(** * jr_goresponse: the response stores of package [response]

    A shallow embedding of [ResponsePack] and [CompressResponsePack]
    (package [response]) together with the constructors of [Response], its
    JSON and compression codecs and the parser of raw responses, and the
    properties of the round numbering, counters, batch operations, error
    report and round trips.

    Conventions of the embedding.
    - A Go [string] is a [string] (a sequence of 8-bit characters, not
      necessarily UTF-8); a [[]byte] is a [list byte]; a value that may be
      [nil] (a [*Response], a slice or map field that JSON distinguishes from
      the empty one) is an [option].  The packs store [*Response] pointers
      and never write through them, so a stored pointer is the record it
      points to.
    - A Go [map[string]V] is a [gmap string V].  What [for ... range] over a
      map and the interleaving of goroutines leave unspecified is supplied by
      a [GoRuntime]: an iteration order and a schedule, about which the
      theorems assume only that they are permutations.
    - [uint64] and [int] arithmetic wraps around and is written out.
    - What the package calls in other packages and cannot be written out
      here (gzip, the JSON text, [net/http], [net/url], the Unicode tables,
      the messages of wrapped errors) is a type class whose fields are the
      functions called.
    - A method returning [(T, error)] with exactly one of the two set returns
      [error + T]; a method returning only [error] and mutating its receiver
      returns the new receiver and an [option error]. *)

From Stdlib Require Import ZArith Lia QArith_base.
From Stdlib.Strings Require Import Ascii String Byte.
From stdpp Require Import base tactics option list gmap strings pretty sorting.

Local Open Scope Z_scope.

(** ** Machine integers *)

Module GoInt.

(** [uint64]: the value after an operation is reduced modulo 2^64. *)
Definition uint64_wrap (z : Z) : Z := z mod 2 ^ 64.

(** [int] (64 bits, two's complement). *)
Definition int_wrap (z : Z) : Z := (z + 2 ^ 63) mod 2 ^ 64 - 2 ^ 63.

Definition uint64_add (a b : Z) : Z := uint64_wrap (a + b).
Definition int_add (a b : Z) : Z := int_wrap (a + b).

Definition MaxInt : Z := 2 ^ 63 - 1.
Definition MaxUint64 : Z := 2 ^ 64 - 1.

End GoInt.
Import GoInt.

(** ** What the Go runtime leaves unspecified *)

Class GoRuntime := {
  (** [runtime.NumCPU()] *)
  NumCPU : nat;
  (** the order in which [for k, v := range m] visits the entries of [m] *)
  range : forall A : Type, gmap string A -> list (string * A);
  (** the order in which the goroutines spawned for the items of a batch
      get to run their critical section *)
  sched : forall A : Type, list A -> list A;
}.
Arguments range {_ _} _.
Arguments sched {_ _} _.

(** A runtime for evaluating examples: [cpus] CPUs, maps visited in the order
    of [map_to_list], goroutines run in the order they were spawned. *)
Definition in_order_runtime (cpus : nat) : GoRuntime :=
  {| NumCPU := cpus;
     range := fun A m => map_to_list m;
     sched := fun A l => l |}.

(** ** Package [codes] *)

Module codes.

(** Modelled from the spec: package [jr_httpcodes/codes] is an external
    module whose source is not part of the repository.  Spec section 6:
    "isSuccess(code) -> bool (2xx range)". *)
Definition IsSuccess (code : Z) : bool := (200 <=? code) && (code <? 300).

(** [ValidateStatusCode] and [ValidateMethod] check their argument against
    tables of that module; they are taken as they are. *)
Class Validator := {
  ValidateStatusCode : Z -> bool;
  ValidateMethod : string -> bool;
}.

End codes.

(** ** [Response] *)

Record Response := mkResponse {
  Method : string;
  StatusCode : Z;
  Url : string;
  Host : string;
  Headers : option (gmap string string);
  Body : option (list byte);
  BodyLength : Z;
  RawResponse : option (list byte);
}.

(** The errors the package creates with [fmt.Errorf], and the two it passes
    on from package [codes]. *)
Inductive error : Type :=
| ErrStatusCode                 (* from [codes.ValidateStatusCode] *)
| ErrMethod                     (* from [codes.ValidateMethod] *)
| ErrResponseNil                (* "response is nil" *)
| ErrPackNil                    (* "response pack is nil" *)
| ErrNotFound (url : string)    (* "response not found for URL: %s" *)
| ErrNoResponses                (* "no responses found" *)
| ErrGzipReader                 (* "failed to create gzip reader: %w" *)
| ErrDecompress                 (* "failed to decompress data: %w" *)
| ErrUnmarshal.                 (* "failed to unmarshal response: %w" *)

Definition NewResponse {validator : codes.Validator}
    (url host method : string) (statusCode : Z)
    (headers : option (gmap string string)) (body : option (list byte))
    (bodyLength : Z) (rawResponse : option (list byte)) : error + Response :=
  if negb (codes.ValidateStatusCode statusCode) then inl ErrStatusCode
  else if negb (codes.ValidateMethod method) then inl ErrMethod
  else
    let headers := match headers with None => ∅ | Some headers => headers end in
    let body := match body with None => [] | Some body => body end in
    let bodyLength :=
      if bodyLength =? 0 then Z.of_nat (length body) else bodyLength in
    inr {| Method := method; StatusCode := statusCode; Url := url; Host := host;
           Headers := Some headers; Body := Some body; BodyLength := bodyLength;
           RawResponse := rawResponse |}.

(** [fmt.Sprintf("round_%d", n)] *)
Definition round_key (n : Z) : string := "round_" +:+ pretty n.

(** [m[k1][k2] = v] for a map of maps whose entry [k1] has been made. *)
Definition store2 {V : Type} (k1 k2 : string) (v : V)
    (m : gmap string (gmap string V)) : gmap string (gmap string V) :=
  alter (insert k2 v) k1 m.

(** ** [ResponsePack] *)

Module ResponsePack.

Record t := mk {
  Responses : gmap string (gmap string Response);
  Total : Z;
  Success : Z;
  Failure : Z;
  (** The two ratios are [float64] in the source; the embedding keeps the
      exact quotient and does not model rounding. *)
  SuccessRatio : Q;
  FailureRatio : Q;
  Info : gmap string string;
}.

Definition NewResponsePack : t :=
  {| Responses := ∅; Info := ∅; Total := 0; Success := 0; Failure := 0;
     SuccessRatio := 0%Q; FailureRatio := 0%Q |}.

Definition with_Responses (p : t) (rs : gmap string (gmap string Response)) : t :=
  {| Responses := rs; Total := Total p; Success := Success p;
     Failure := Failure p; SuccessRatio := SuccessRatio p;
     FailureRatio := FailureRatio p; Info := Info p |}.

(** The counter updates of [AddResponse]: [Success++] or [Failure++], then
    [Total++]. *)
Definition count (p : t) (ok : bool) : t :=
  {| Responses := Responses p;
     Total := uint64_add (Total p) 1;
     Success := if ok then uint64_add (Success p) 1 else Success p;
     Failure := if ok then Failure p else uint64_add (Failure p) 1;
     SuccessRatio := SuccessRatio p; FailureRatio := FailureRatio p;
     Info := Info p |}.

(** The recomputation of the ratios, shared by [AddResponse] and
    [Calculate]: nothing when [Total] is 0, and a ratio is left as it is when
    its counter is 0. *)
Definition ratios (p : t) : t :=
  if Total p =? 0 then p else
  {| Responses := Responses p; Total := Total p; Success := Success p;
     Failure := Failure p;
     SuccessRatio :=
       if Success p =? 0 then SuccessRatio p
       else Qdiv (inject_Z (Success p)) (inject_Z (Total p));
     FailureRatio :=
       if Failure p =? 0 then FailureRatio p
       else Qdiv (inject_Z (Failure p)) (inject_Z (Total p));
     Info := Info p |}.

Section methods.
Context {rt : GoRuntime}.

Definition GetResponse (p : t) (url : string) : error + list Response :=
  match Responses p !! url with
  | None => inl (ErrNotFound url)
  | Some result => inr ((range result).*2)
  end.

(** The goroutines of [BatchGetResponse] only read; [done] lists what they
    sent, in the order they finished.  A result is sent when the slice is not
    [nil], that is, not empty. *)
Definition BatchGetResponse (p : t) (urls : list string)
    : gmap string (gmap string Response) * list error :=
  let done := GetResponse p <$> sched urls in
  let errors := omap (fun d => match d with inl e => Some e | inr _ => None end) done in
  let resultCh :=
    omap (fun d => match d with
                   | inr (r0 :: rest) => Some (r0 :: rest)
                   | _ => None
                   end) done in
  let output :=
    foldl (fun output result =>
             match result with
             | [] => output
             | r0 :: _ =>
               let urlKey := Url r0 in
               foldl (fun output ir =>
                        store2 urlKey (round_key (Z.of_nat ir.1)) ir.2 output)
                     (<[urlKey := ∅]> output)
                     (imap pair result)
             end) ∅ resultCh in
  (output, errors).

Definition GetKeysOfResponses (p : t) : list string := (range (Responses p)).*1.

Definition AddResponse (p : t) (response : option Response) : t * option error :=
  match response with
  | None => (p, Some ErrResponseNil)
  | Some response =>
    let ok := codes.IsSuccess (StatusCode response) in
    let p := ratios (count p ok) in
    match Responses p !! Url response with
    | None =>
      (with_Responses p (<[Url response := {[ "round_1"%string := response ]}]> (Responses p)), None)
    | Some rounds =>
      let round := foldl (fun round _ => int_add round 1) 0 (range rounds) in
      let newKey := round_key (int_add round 1) in
      (with_Responses p (<[Url response := <[newKey := response]> rounds]> (Responses p)), None)
    end
  end.

(** [maxWorkers] goroutines are started and goroutine [i] adds
    [responses[i]]; each [AddResponse] holds the lock from its first write to
    its last, so the batch is the sequence of the started additions in the
    order of the schedule. *)
Definition BatchAddResponse (p : t) (responses : list (option Response))
    : t * list error :=
  let maxWorkers := Nat.min NumCPU (length responses) in
  foldl (fun st response =>
           let '(p', err) := AddResponse st.1 response in
           (p', st.2 ++ option_list err))
        (p, []) (sched (take maxWorkers responses)).

Definition Calculate (p : t) : t := ratios p.

Definition AddInfo (p : t) (key value : string) : t :=
  {| Responses := Responses p; Total := Total p; Success := Success p;
     Failure := Failure p; SuccessRatio := SuccessRatio p;
     FailureRatio := FailureRatio p; Info := <[key := value]> (Info p) |}.

(** The receiver of [Len] and [GetErrorReport] may be [nil]. *)
Definition Len (p : option t) : Z :=
  match p with
  | None => 0
  | Some p => Z.of_nat (size (Responses p))
  end.

Definition GetErrorReport (p : option t)
    : error + gmap string (gmap string Response) :=
  match p with
  | None => inl ErrPackNil
  | Some p' =>
    if Len p =? 0 then inl ErrNoResponses else
    inr (foldl (fun output out =>
                  foldl (fun output inn =>
                           if negb (codes.IsSuccess (StatusCode inn.2))
                           then store2 out.1 inn.1 inn.2 (<[out.1 := ∅]> output)
                           else output)
                        output (range out.2))
               ∅ (range (Responses p')))
  end.

End methods.
End ResponsePack.


(** ** The standard library under [Compress]

    [Compress] is [json.Marshal] followed by a gzip writer, and
    [NewResponseFromCompressed] is a gzip reader followed by
    [json.Unmarshal].  What [encoding/json] does to the fields of a
    [Response] is modelled after its documentation: a string is coerced to
    valid UTF-8, a byte slice is written in base64, a map as an object with
    sorted keys, a [nil] slice or map as [null].  The two layers that turn a
    document into bytes and back (JSON text, gzip) are taken as a [Codec]. *)

Module utf8.

Definition code (a : ascii) : Z := Z.of_N (N_of_ascii a).

Definition between (lo c hi : Z) : bool := (lo <=? c) && (c <=? hi).

(** The length a first byte announces; 0 for a byte that starts no
    encoding. *)
Definition size (c0 : Z) : nat :=
  if c0 <? 0x80 then 1
  else if between 0xC2 c0 0xDF then 2
  else if between 0xE0 c0 0xEF then 3
  else if between 0xF0 c0 0xF4 then 4
  else 0.

(** The range accepted for the second byte. *)
Definition accept (c0 : Z) : Z * Z :=
  if c0 =? 0xE0 then (0xA0, 0xBF)
  else if c0 =? 0xED then (0x80, 0x9F)
  else if c0 =? 0xF0 then (0x90, 0xBF)
  else if c0 =? 0xF4 then (0x80, 0x8F)
  else (0x80, 0xBF).

Definition second (a0 a1 : ascii) : bool :=
  between (accept (code a0)).1 (code a1) (accept (code a0)).2.

Definition cont (a : ascii) : bool := between 0x80 (code a) 0xBF.

(** The width of the rune [DecodeRuneInString] finds at the head of [s];
    0 when it reports [RuneError] with width 1, or [s] is empty. *)
Definition rune_len (s : string) : nat :=
  match s with
  | EmptyString => 0
  | String a0 rest =>
    match size (code a0), rest with
    | 1%nat, _ => 1
    | 2%nat, String a1 _ => if second a0 a1 then 2 else 0
    | 3%nat, String a1 (String a2 _) =>
      if second a0 a1 && cont a2 then 3 else 0
    | 4%nat, String a1 (String a2 (String a3 _)) =>
      if second a0 a1 && cont a2 && cont a3 then 4 else 0
    | _, _ => 0
    end
  end.

(** [utf8.ValidString] *)
Fixpoint Valid (s : string) : bool :=
  match s with
  | EmptyString => true
  | String _ rest =>
    match rune_len s, rest with
    | 1%nat, _ => Valid rest
    | 2%nat, String _ s2 => Valid s2
    | 3%nat, String _ (String _ s3) => Valid s3
    | 4%nat, String _ (String _ (String _ s4)) => Valid s4
    | _, _ => false
    end
  end.

(** U+FFFD, the replacement character, in UTF-8. *)
Definition RuneError : string := String "239" (String "191" (String "189" "")).

End utf8.

Module base64.

(** [StdEncoding]: the standard alphabet with [=] padding, lenient about
    the unused bits of the last character. *)
Definition encodeStd : list ascii :=
  list_ascii_of_string
    "ABCDEFGHIJKLMNOPQRSTUVWXYZabcdefghijklmnopqrstuvwxyz0123456789+/".

(** A group of six bits is an [ascii] below 64: the character of the
    alphabet at that index, and back. *)
Definition encode (six : ascii) : ascii :=
  nth (nat_of_ascii six) encodeStd "A"%char.

Definition decodeMap (c : ascii) : option ascii :=
  match list_find (fun a => a = c) encodeStd with
  | Some (i, _) => Some (ascii_of_nat i)
  | None => None
  end.

(** Three bytes as four groups of six bits, most significant first
    ([Ascii] lists the bits of a byte from the least significant). *)
Definition split (x y z : ascii) : ascii * ascii * ascii * ascii :=
  let '(Ascii x0 x1 x2 x3 x4 x5 x6 x7) := x in
  let '(Ascii y0 y1 y2 y3 y4 y5 y6 y7) := y in
  let '(Ascii z0 z1 z2 z3 z4 z5 z6 z7) := z in
  (Ascii x2 x3 x4 x5 x6 x7 false false,
   Ascii y4 y5 y6 y7 x0 x1 false false,
   Ascii z6 z7 y0 y1 y2 y3 false false,
   Ascii z0 z1 z2 z3 z4 z5 false false).

(** Four groups of six bits as three bytes. *)
Definition join (s0 s1 s2 s3 : ascii) : ascii * ascii * ascii :=
  let '(Ascii p0 p1 p2 p3 p4 p5 _ _) := s0 in
  let '(Ascii q0 q1 q2 q3 q4 q5 _ _) := s1 in
  let '(Ascii r0 r1 r2 r3 r4 r5 _ _) := s2 in
  let '(Ascii t0 t1 t2 t3 t4 t5 _ _) := s3 in
  (Ascii q4 q5 p0 p1 p2 p3 p4 p5,
   Ascii r2 r3 r4 r5 q0 q1 q2 q3,
   Ascii t0 t1 t2 t3 t4 t5 r0 r1).

Fixpoint EncodeToString (src : list byte) : string :=
  match src with
  | [] => ""
  | [x] =>
    let '(s0, s1, _, _) := split (ascii_of_byte x) zero zero in
    String (encode s0) (String (encode s1) "==")
  | [x; y] =>
    let '(s0, s1, s2, _) := split (ascii_of_byte x) (ascii_of_byte y) zero in
    String (encode s0) (String (encode s1) (String (encode s2) "="))
  | x :: y :: z :: rest =>
    let '(s0, s1, s2, s3) :=
      split (ascii_of_byte x) (ascii_of_byte y) (ascii_of_byte z) in
    String (encode s0) (String (encode s1) (String (encode s2)
      (String (encode s3) (EncodeToString rest))))
  end.

Definition is_newline (c : ascii) : bool :=
  Ascii.eqb c "010" || Ascii.eqb c "013".

(** Line breaks are skipped wherever they are. *)
Fixpoint strip (s : string) : string :=
  match s with
  | EmptyString => EmptyString
  | String c rest => if is_newline c then strip rest else String c (strip rest)
  end.

Definition is_empty (s : string) : bool :=
  match s with EmptyString => true | _ => false end.

Fixpoint decode_quanta (s : string) : option (list byte) :=
  match s with
  | EmptyString => Some []
  | String c0 (String c1 (String c2 (String c3 rest))) =>
    match decodeMap c0, decodeMap c1 with
    | Some s0, Some s1 =>
      match decodeMap c2, decodeMap c3 with
      | Some s2, Some s3 =>
        let '(x, y, z) := join s0 s1 s2 s3 in
        match decode_quanta rest with
        | Some tl => Some (byte_of_ascii x :: byte_of_ascii y :: byte_of_ascii z :: tl)
        | None => None
        end
      | Some s2, None =>
        let '(x, y, _) := join s0 s1 s2 zero in
        if Ascii.eqb c3 "=" && is_empty rest
        then Some [byte_of_ascii x; byte_of_ascii y] else None
      | None, _ =>
        let '(x, _, _) := join s0 s1 zero zero in
        if Ascii.eqb c2 "=" && Ascii.eqb c3 "=" && is_empty rest
        then Some [byte_of_ascii x] else None
      end
    | _, _ => None
    end
  | _ => None
  end.

Definition DecodeString (s : string) : option (list byte) :=
  decode_quanta (strip s).

End base64.

Module json.

(** A JSON document.  A string is the sequence of the characters it
    denotes, in UTF-8; a number written as an integer is a [JNum], any other
    number a [JFrac]. *)
#[local] Set Warnings "-register-all".
Inductive value : Type :=
| JNull
| JBool (b : bool)
| JNum (n : Z)
| JFrac (literal : string)
| JStr (s : string)
| JArr (elems : list value)
| JObj (members : list (string * value)).
#[local] Set Warnings "register-all".

(** How the encoder writes a Go string: what is not valid UTF-8 is replaced,
    byte by byte, by U+FFFD. *)
Fixpoint coerce (s : string) : string :=
  match s with
  | EmptyString => EmptyString
  | String a0 rest =>
    match utf8.rune_len s, rest with
    | 1%nat, _ => String a0 (coerce rest)
    | 2%nat, String a1 s2 => String a0 (String a1 (coerce s2))
    | 3%nat, String a1 (String a2 s3) =>
      String a0 (String a1 (String a2 (coerce s3)))
    | 4%nat, String a1 (String a2 (String a3 s4)) =>
      String a0 (String a1 (String a2 (String a3 (coerce s4))))
    | _, _ => utf8.RuneError +:+ coerce rest
    end
  end.

Definition of_string (s : string) : value := JStr (coerce s).

(** A [[]byte]: [null] when [nil], else a base64 string. *)
Definition of_bytes (b : option (list byte)) : value :=
  match b with
  | None => JNull
  | Some b => JStr (base64.EncodeToString b)
  end.

Definition key_le (a b : string * string) : Prop := String.leb a.1 b.1 = true.

#[global] Instance key_le_dec : RelDecision key_le.
Proof. intros a b. unfold key_le. apply _. Defined.

(** A [map[string]string]: [null] when [nil], else an object whose members
    are sorted by key. *)
Definition of_map (m : option (gmap string string)) : value :=
  match m with
  | None => JNull
  | Some m =>
    JObj ((fun kv => (coerce kv.1, of_string kv.2)) <$> merge_sort key_le (map_to_list m))
  end.

(** [json.Marshal] of a [Response], by its field tags. *)
Definition Marshal (r : Response) : value :=
  JObj [ ("method"%string, of_string (Method r));
         ("statusCode"%string, JNum (StatusCode r));
         ("url"%string, of_string (Url r));
         ("host"%string, of_string (Host r));
         ("headers"%string, of_map (Headers r));
         ("body"%string, of_bytes (Body r));
         ("bodyLength"%string, JNum (BodyLength r));
         ("rawResponse"%string, of_bytes (RawResponse r)) ].

(** Decoding a member into a field that holds [old]: [null] leaves a string
    or a number as it is and makes a slice or a map [nil]. *)
Definition to_string (old : string) (v : value) : option string :=
  match v with
  | JNull => Some old
  | JStr s => Some s
  | _ => None
  end.

Definition to_int (old : Z) (v : value) : option Z :=
  match v with
  | JNull => Some old
  | JNum n => if (- 2 ^ 63 <=? n) && (n <=? MaxInt) then Some n else None
  | _ => None
  end.

Definition to_uint64 (old : Z) (v : value) : option Z :=
  match v with
  | JNull => Some old
  | JNum n => if (0 <=? n) && (n <=? MaxUint64) then Some n else None
  | _ => None
  end.

Definition to_uint8 (v : value) : option byte :=
  match v with
  | JNull => Some x00
  | JNum n => if (0 <=? n) && (n <=? 255) then Byte.of_N (Z.to_N n) else None
  | _ => None
  end.

(** A [[]byte] is read from a base64 string, or from an array of numbers. *)
Definition to_bytes (v : value) : option (option (list byte)) :=
  match v with
  | JNull => Some None
  | JStr s => Some <$> base64.DecodeString s
  | JArr elems => Some <$> mapM to_uint8 elems
  | _ => None
  end.

(** A map is read member by member into the map the field holds, a new one
    if it holds none. *)
Definition to_map (old : option (gmap string string)) (v : value)
    : option (option (gmap string string)) :=
  match v with
  | JNull => Some None
  | JObj members =>
    Some <$>
      foldl (fun acc kv =>
               match acc with
               | None => None
               | Some m =>
                 match to_string "" kv.2 with
                 | None => None
                 | Some s => Some (<[kv.1 := s]> m)
                 end
               end)
            (Some (default ∅ old)) members
  | _ => None
  end.

Definition fields : list string :=
  ["method"; "statusCode"; "url"; "host"; "headers"; "body"; "bodyLength";
   "rawResponse"]%string.

(** The zero [Response] that [Unmarshal] fills. *)
Definition zero : Response :=
  {| Method := ""; StatusCode := 0; Url := ""; Host := ""; Headers := None;
     Body := None; BodyLength := 0; RawResponse := None |}.

Definition set_field (r : Response) (field : string) (v : value) : option Response :=
  if String.eqb field "method" then
    s ← to_string (Method r) v;
    Some (mkResponse s (StatusCode r) (Url r) (Host r) (Headers r) (Body r) (BodyLength r) (RawResponse r))
  else if String.eqb field "statusCode" then
    n ← to_int (StatusCode r) v;
    Some (mkResponse (Method r) n (Url r) (Host r) (Headers r) (Body r) (BodyLength r) (RawResponse r))
  else if String.eqb field "url" then
    s ← to_string (Url r) v;
    Some (mkResponse (Method r) (StatusCode r) s (Host r) (Headers r) (Body r) (BodyLength r) (RawResponse r))
  else if String.eqb field "host" then
    s ← to_string (Host r) v;
    Some (mkResponse (Method r) (StatusCode r) (Url r) s (Headers r) (Body r) (BodyLength r) (RawResponse r))
  else if String.eqb field "headers" then
    m ← to_map (Headers r) v;
    Some (mkResponse (Method r) (StatusCode r) (Url r) (Host r) m (Body r) (BodyLength r) (RawResponse r))
  else if String.eqb field "body" then
    b ← to_bytes v;
    Some (mkResponse (Method r) (StatusCode r) (Url r) (Host r) (Headers r) b (BodyLength r) (RawResponse r))
  else if String.eqb field "bodyLength" then
    n ← to_uint64 (BodyLength r) v;
    Some (mkResponse (Method r) (StatusCode r) (Url r) (Host r) (Headers r) (Body r) n (RawResponse r))
  else if String.eqb field "rawResponse" then
    b ← to_bytes v;
    Some (mkResponse (Method r) (StatusCode r) (Url r) (Host r) (Headers r) (Body r) (BodyLength r) b)
  else Some r.

End json.

(** The outcome of [gzip.NewReader] followed by [io.ReadAll]. *)
Inductive gzip_result : Type :=
| GzHeaderError
| GzReadError
| GzData (data : list byte).

Class Codec := {
  (** a [gzip.Writer] over a buffer: [Write] then [Close] *)
  gzip_Write : list byte -> list byte;
  gzip_Read : list byte -> gzip_result;
  (** the text the encoder writes for a document, and the document the
      decoder reads from a text ([None]: a syntax error) *)
  json_text : json.value -> list byte;
  json_scan : list byte -> option json.value;
  (** the case-insensitive comparison of a member name with a field name *)
  equalFold : string -> string -> bool;
}.

Section Compress.
Context {codec : Codec}.

(** The field a member name selects: the field of that name, else the first
    one that matches it whatever the case; a member that selects no field is
    skipped. *)
Definition find_field (key : string) : option string :=
  match find (fun f => String.eqb key f) json.fields with
  | Some f => Some f
  | None => find (equalFold key) json.fields
  end.

(** [json.Unmarshal] of a document into a new [Response]; [None] is an
    error. *)
Definition Unmarshal (v : json.value) : option Response :=
  match v with
  | json.JNull => Some json.zero
  | json.JObj members =>
    foldl (fun acc kv =>
             match acc with
             | None => None
             | Some r =>
               match find_field kv.1 with
               | None => Some r
               | Some f => json.set_field r f kv.2
               end
             end)
          (Some json.zero) members
  | _ => None
  end.

(** [json.Marshal] reports no error for a [Response]. *)
Definition ToJSON (r : Response) : error + list byte :=
  inr (json_text (json.Marshal r)).

Definition Compress (r : Response) : error + list byte :=
  match ToJSON r with
  | inl err => inl err
  | inr jsonData => inr (gzip_Write jsonData)
  end.

Definition NewResponseFromCompressed (compressedData : list byte) : error + Response :=
  match gzip_Read compressedData with
  | GzHeaderError => inl ErrGzipReader
  | GzReadError => inl ErrDecompress
  | GzData jsonData =>
    match json_scan jsonData with
    | None => inl ErrUnmarshal
    | Some v =>
      match Unmarshal v with
      | None => inl ErrUnmarshal
      | Some response => inr response
      end
    end
  end.

End Compress.

(** ** [CompressResponsePack] *)

Module CompressResponsePack.

Record t := mk {
  CompressedResponses : gmap string (gmap string (list byte));
  MetaInfo : gmap string string;
}.

Definition NewCompressResponsePack : t :=
  {| CompressedResponses := ∅; MetaInfo := ∅ |}.

Section methods.
Context {rt : GoRuntime} {codec : Codec}.

(** The receiver is a pack, so the guard [r == nil] of the source does not
    apply.  The record is compressed before the lock is taken. *)
Definition AddResponse (r : t) (response : option Response) : t * option error :=
  match response with
  | None => (r, Some ErrResponseNil)
  | Some response =>
    match Compress response with
    | inl err => (r, Some err)
    | inr compressedData =>
      match CompressedResponses r !! Url response with
      | None =>
        ({| CompressedResponses :=
              <[Url response := {[ "round_1"%string := compressedData ]}]>
                (CompressedResponses r);
            MetaInfo := MetaInfo r |}, None)
      | Some rounds =>
        let round := foldl (fun round _ => int_add round 1) 0 (range rounds) in
        ({| CompressedResponses :=
              <[Url response :=
                  <[round_key (int_add round 1) := compressedData]> rounds]>
                (CompressedResponses r);
            MetaInfo := MetaInfo r |}, None)
      end
    end
  end.

(** The workers drain a channel that holds every response, so with at least
    one worker every response is added; the additions are serialised by the
    lock, in the order of the schedule. *)
Definition BatchAddResponse (r : t) (responses : list (option Response))
    : t * list error :=
  let maxWorkers := Nat.min NumCPU (length responses) in
  match maxWorkers with
  | O => (r, [])
  | S _ =>
    foldl (fun st response =>
             let '(r', err) := AddResponse st.1 response in
             (r', st.2 ++ option_list err))
          (r, []) (sched responses)
  end.

Definition GetResponseCount (r : t) : Z :=
  foldl (fun counter out => int_add counter (Z.of_nat (size out.2)))
        0 (range (CompressedResponses r)).

(** The first round that fails to decompress ends the call with its
    error. *)
Definition GetResponse (r : t) (url : string) : error + list Response :=
  match CompressedResponses r !! url with
  | None => inl (ErrNotFound url)
  | Some responses =>
    foldl (fun acc value =>
             match acc with
             | inl err => inl err
             | inr responseSlice =>
               match NewResponseFromCompressed value.2 with
               | inl err => inl err
               | inr response => inr (responseSlice ++ [response])
               end
             end)
          (inr []) (range responses)
  end.

(** One error is enough for the call to return the errors alone. *)
Definition BatchGetResponse (r : t) (urls : list string)
    : list error + gmap string (gmap string Response) :=
  let done := GetResponse r <$> sched urls in
  let errSlice := omap (fun d => match d with inl e => Some e | inr _ => None end) done in
  let respCh :=
    omap (fun d => match d with
                   | inr (r0 :: rest) => Some (r0 :: rest)
                   | _ => None
                   end) done in
  match errSlice with
  | _ :: _ => inl errSlice
  | [] =>
    inr (foldl (fun responses resp =>
                  foldl (fun responses ir =>
                           store2 (Url ir.2)
                                  (round_key (int_add (Z.of_nat ir.1) 1)) ir.2
                                  (<[Url ir.2 := ∅]> responses))
                        responses (imap pair resp))
               ∅ respCh)
  end.

Definition DeleteResponse (r : t) (url : string) : t * option error :=
  match CompressedResponses r !! url with
  | None => (r, Some (ErrNotFound url))
  | Some _ =>
    let m := delete url (CompressedResponses r) in
    ({| CompressedResponses := if Z.of_nat (size m) =? 0 then ∅ else m;
        MetaInfo := MetaInfo r |}, None)
  end.

Definition BatchDeleteResponse (r : t) (urls : list string) : t * list error :=
  foldl (fun st url =>
           let '(r', err) := DeleteResponse st.1 url in
           (r', st.2 ++ option_list err))
        (r, []) (sched urls).

Definition AddInfo (r : t) (key value : string) : t :=
  {| CompressedResponses := CompressedResponses r;
     MetaInfo := <[key := value]> (MetaInfo r) |}.

Definition AddInfoFromMap (r : t) (info : gmap string string) : t :=
  {| CompressedResponses := CompressedResponses r;
     MetaInfo := foldl (fun m kv => <[kv.1 := kv.2]> m) (MetaInfo r) (range info) |}.

Definition Clear (r : t) : t :=
  {| CompressedResponses := ∅; MetaInfo := MetaInfo r |}.

End methods.
End CompressResponsePack.

(** ** A codec that meets the assumptions

    No compression, and a document written as its rank in an enumeration of
    the documents, in unary.  It stands for the libraries only where the
    assumptions on them have to be shown to hold for some codec. *)

Module reference.
Import json.

Definition leaf : Type := (bool + Z + string)%type.

Fixpoint to_tree (v : value) : gen_tree leaf :=
  match v with
  | JNull => GenNode 0 []
  | JBool b => GenLeaf (inl (inl b))
  | JNum n => GenLeaf (inl (inr n))
  | JFrac literal => GenNode 1 [GenLeaf (inr literal)]
  | JStr s => GenLeaf (inr s)
  | JArr elems => GenNode 2 (to_tree <$> elems)
  | JObj members =>
    GenNode 3 ((fun kv => GenNode 4 [GenLeaf (inr kv.1); to_tree kv.2]) <$> members)
  end.

Fixpoint of_tree (t : gen_tree leaf) : value :=
  match t with
  | GenLeaf (inl (inl b)) => JBool b
  | GenLeaf (inl (inr n)) => JNum n
  | GenLeaf (inr s) => JStr s
  | GenNode 1 [GenLeaf (inr literal)] => JFrac literal
  | GenNode 2 elems => JArr (of_tree <$> elems)
  | GenNode 3 members =>
    JObj ((fun t =>
             match t with
             | GenNode 4 [GenLeaf (inr k); t'] => (k, of_tree t')
             | _ => (EmptyString, JNull)
             end) <$> members)
  | _ => JNull
  end.

Lemma value_ind' (P : value -> Prop) :
  P JNull -> (forall b, P (JBool b)) -> (forall n, P (JNum n)) ->
  (forall s, P (JFrac s)) -> (forall s, P (JStr s)) ->
  (forall elems, Forall P elems -> P (JArr elems)) ->
  (forall members, Forall (fun kv => P kv.2) members -> P (JObj members)) ->
  forall v, P v.
Proof.
  intros HNull HBool HNum HFrac HStr HArr HObj.
  fix IH 1. intros [ |b|n|s|s|elems|members].
  - apply HNull.
  - apply HBool.
  - apply HNum.
  - apply HFrac.
  - apply HStr.
  - apply HArr. induction elems as [|v elems IHl]; constructor; [apply IH|apply IHl].
  - apply HObj. induction members as [|[k v] members IHl]; constructor;
      [apply IH|apply IHl].
Qed.

Lemma of_to_tree v : of_tree (to_tree v) = v.
Proof.
  induction v as [ |b|n|s|s|elems IH|members IH] using value_ind'; try done.
  - simpl. f_equal. rewrite <- list_fmap_compose.
    rewrite <- (list_fmap_id elems) at 2.
    apply Forall_fmap_ext_1. by apply IH.
  - simpl. f_equal. rewrite <- list_fmap_compose.
    rewrite <- (list_fmap_id members) at 2.
    apply Forall_fmap_ext_1. eapply Forall_impl; [apply IH|].
    intros [k v] Hv. simpl in *. by rewrite Hv.
Qed.

#[global] Instance value_eq_dec : EqDecision value.
Proof.
  intros x y. destruct (decide (to_tree x = to_tree y)) as [Heq|Hne].
  - left. by rewrite <- (of_to_tree x), <- (of_to_tree y), Heq.
  - right. by intros ->.
Defined.

#[global] Instance value_countable : Countable value :=
  inj_countable' to_tree of_tree of_to_tree.

Definition text (v : value) : list byte :=
  replicate (Pos.to_nat (encode v)) x00.

Definition scan (data : list byte) : option value :=
  decode (Pos.of_nat (length data)).

Definition lower (a : ascii) : ascii :=
  if (65 <=? utf8.code a) && (utf8.code a <=? 90)
  then ascii_of_N (N_of_ascii a + 32) else a.

Fixpoint fold_ascii (s : string) : string :=
  match s with
  | EmptyString => EmptyString
  | String a rest => String (lower a) (fold_ascii rest)
  end.

Definition codec : Codec :=
  {| gzip_Write := fun data => data;
     gzip_Read := GzData;
     json_text := text;
     json_scan := scan;
     equalFold := fun s t => String.eqb (fold_ascii s) (fold_ascii t) |}.

End reference.
(** ** Sequences of calls *)

(** The receiver after the calls [AddResponse(r)] for the [r] of [rs], in
    that order (a [nil] pointer is a failing call). *)
Definition AddResponses {rt : GoRuntime} (p : ResponsePack.t)
    (rs : list (option Response)) : ResponsePack.t :=
  foldl (fun p r => (ResponsePack.AddResponse p r).1) p rs.

(** The records of the successful calls among [rs]: the calls whose argument
    is not [nil]. *)
Definition added (rs : list (option Response)) : list Response := omap id rs.

(** The records of [rs] with a given URL, in the order of [rs]. *)
Definition with_url (url : string) (rs : list Response) : list Response :=
  filter (fun r => Url r = url) rs.

Definition is_success (r : Response) : Prop := codes.IsSuccess (StatusCode r) = true.

(** ** The rounds expected under a URL *)

(** The rounds of a URL under which the values [vs] were inserted in this
    order: the i-th insertion (from 1) is under [round_i]. *)
Definition rounds_of {V : Type} (vs : list V) : gmap string V :=
  list_to_map (imap (fun i v => (round_key (Z.of_nat (S i)), v)) vs).

(** The entry of a URL under which [vs] were inserted: none before the first
    insertion. *)
Definition entry_of {V : Type} (vs : list V) : option (gmap string V) :=
  match vs with
  | [] => None
  | _ => Some (rounds_of vs)
  end.

(** What both [AddResponse] methods do to their map of maps. *)
Definition commit {rt : GoRuntime} {V : Type} (url : string) (v : V)
    (m : gmap string (gmap string V)) : gmap string (gmap string V) :=
  match m !! url with
  | None => <[url := {[ "round_1"%string := v ]}]> m
  | Some rounds =>
    let round := foldl (fun round _ => int_add round 1) 0 (range rounds) in
    <[url := <[round_key (int_add round 1) := v]> rounds]> m
  end.


(** [m[url][key]] *)
Definition lookup2 {V : Type} (m : gmap string (gmap string V))
    (url key : string) : option V :=
  match m !! url with
  | Some rounds => rounds !! key
  | None => None
  end.

(** The round of a URL that the error report keeps: the last one that is not
    a success, in the order the rounds are visited. *)
Definition reported {rt : GoRuntime} (rounds : gmap string Response)
    : option (gmap string Response) :=
  match last (filter (fun inn => ~ is_success inn.2) (range rounds)) with
  | Some inn => Some {[ inn.1 := inn.2 ]}
  | None => None
  end.

(** ** Records and the codec *)

(** The numeric fields hold values of their Go types ([int], [uint64]). *)
Definition fits_types (r : Response) : Prop :=
  - 2 ^ 63 <= StatusCode r <= MaxInt /\ 0 <= BodyLength r <= MaxUint64.

(** Every string of the record is valid UTF-8: the method, the URL, the host
    and the names and values of the headers.  The body and the raw response
    are bytes and are not concerned. *)
Definition utf8_text (r : Response) : Prop :=
  utf8.Valid (Method r) = true /\
  utf8.Valid (Url r) = true /\
  utf8.Valid (Host r) = true /\
  match Headers r with
  | Some m => map_Forall (fun k v => utf8.Valid k = true /\ utf8.Valid v = true) m
  | None => True
  end.

(** What is assumed of the libraries: reading what the gzip writer wrote
    gives the data back, and scanning the text written for the document of a
    [Response] gives the document back. *)
Definition lossless (codec : Codec) : Prop :=
  (forall data, gzip_Read (gzip_Write data) = GzData data) /\
  (forall r, json_scan (json_text (json.Marshal r)) = Some (json.Marshal r)).

(** The same sequence of calls on a [CompressResponsePack]. *)
Definition CompressAddResponses {rt : GoRuntime} {codec : Codec}
    (p : CompressResponsePack.t) (rs : list (option Response))
    : CompressResponsePack.t :=
  foldl (fun p r => (CompressResponsePack.AddResponse p r).1) p rs.

(** The number of [nil] pointers of a batch. *)
Definition nils (rs : list (option Response)) : nat :=
  length (filter (fun r => r = None) rs).

(** The number of entries of a map of maps, all URLs together. *)
Definition entries {V : Type} (m : gmap string (gmap string V)) : nat :=
  sum_list (size <$> (map_to_list m).*2).

(** The blob [Compress] returns for a record. *)
Definition compressed {codec : Codec} (r : Response) : list byte :=
  gzip_Write (json_text (json.Marshal r)).

(** The inner map [BatchGetResponse] of the plain pack builds from the slice
    of a URL: the element at index [i] under the key made from [i]. *)
Definition keyed (result : list Response) : gmap string Response :=
  foldl (fun m ir => <[round_key (Z.of_nat ir.1) := ir.2]> m) ∅ (imap pair result).

(** One turn of the loop of the plain [BatchGetResponse] over the results:
    the inner map of the URL of the first record is made from the slice. *)
Definition turn (output : gmap string (gmap string Response))
    (result : list Response) : gmap string (gmap string Response) :=
  match result with
  | [] => output
  | r0 :: _ => <[Url r0 := keyed result]> output
  end.

(** A record that [Compress] and [NewResponseFromCompressed] give back as it
    is. *)
Definition round_trips (r : Response) : Prop := fits_types r /\ utf8_text r.

(** ** Records used in the examples *)

Definition ok_200 : Response :=
  mkResponse "GET" 200 "https://example.com/api1" "example.com"
             (Some ∅) (Some []) 0 None.

Definition not_found_404 : Response :=
  mkResponse "GET" 404 "https://example.com/api3" "example.com"
             (Some ∅) (Some []) 0 None.

Definition server_error_500 : Response :=
  mkResponse "GET" 500 "https://example.com/api3" "example.com"
             (Some ∅) (Some []) 0 None.

Definition created_201 : Response :=
  mkResponse "POST" 201 "https://example.com/api1" "example.com"
             (Some ∅) (Some []) 0 None.

(** A record whose body and raw response are not UTF-8. *)
Definition binary_body : Response :=
  mkResponse "GET" 200 "https://example.com/logo.png" "example.com"
             (Some {[ "Content-Type"%string := "image/png"%string ]})
             (Some ["137"; "P"; "N"; "G"; "255"; "000"]%byte) 6
             (Some ["255"; "254"; "128"]%byte).

(** A record, as [NewResponse] returns it for GET and 200, whose URL holds
    the byte E9, an e with an acute accent in Latin-1, which is not UTF-8. *)
Definition latin1_url : Response :=
  mkResponse "GET" 200 ("https://example.com/caf" +:+ String "233" "")
             "example.com" (Some ∅) (Some []) 0 None.


(** ** Stores and their rounds *)

(** The rounds of every URL of the store are [round_1] to [round_k], for
    some [k] that is not 0. *)
Definition numbered {V : Type} (m : gmap string (gmap string V)) : Prop :=
  forall url rounds, m !! url = Some rounds ->
    exists vs, vs <> [] /\ rounds = rounds_of vs.

(** The store [m'] holds whatever [m] holds, under the same URL and round
    key. *)
Definition keeps {V : Type} (m m' : gmap string (gmap string V)) : Prop :=
  forall url key v, lookup2 m url key = Some v -> lookup2 m' url key = Some v.

(** ** The constructors of [Response] *)

Module ConfigResponse.

Record t := mk {
  Method : string;
  StatusCode : Z;
  Url : string;
  Host : string;
  Headers : option (gmap string string);
  Body : option (list byte);
  BodyLength : Z;
  RawResponse : option (list byte);
}.

End ConfigResponse.

Definition NewResponseFromConfig {validator : codes.Validator}
    (config : ConfigResponse.t) : error + Response :=
  NewResponse (ConfigResponse.Url config) (ConfigResponse.Host config)
              (ConfigResponse.Method config) (ConfigResponse.StatusCode config)
              (ConfigResponse.Headers config) (ConfigResponse.Body config)
              (ConfigResponse.BodyLength config) (ConfigResponse.RawResponse config).

(** The errors of [NewResponseFromJSON]. *)
Inductive json_error : Type :=
| ErrJSONNil          (* "input JSON data is nil" *)
| ErrJSONEmpty        (* "input JSON data is empty" *)
| ErrJSONUnmarshal.   (* "failed to unmarshal JSON into Response: %w" *)

(** [data] is [None] for a [nil] slice. *)
Definition NewResponseFromJSON {codec : Codec} (data : option (list byte))
    : json_error + Response :=
  match data with
  | None => inl ErrJSONNil
  | Some [] => inl ErrJSONEmpty
  | Some data =>
    match json_scan data with
    | None => inl ErrJSONUnmarshal
    | Some v =>
      match Unmarshal v with
      | None => inl ErrJSONUnmarshal
      | Some outputResponse => inr outputResponse
      end
    end
  end.

(** ** Reading a [Response] *)

(** [string(b)] for a byte slice, [nil] or not. *)
Definition string_of_bytes (b : option (list byte)) : string :=
  string_of_list_byte (default [] b).

Definition ReadBody (r : Response) : string := string_of_bytes (Body r).

Definition ReadRawResponse (r : Response) : string := string_of_bytes (RawResponse r).

Definition IsSuccessful (r : Response) : bool := codes.IsSuccess (StatusCode r).

(** ** Package [strings] *)

Module gostrings.

Definition HasPrefix (s prefix : string) : bool := String.prefix prefix s.

Fixpoint Contains (s substr : string) : bool :=
  String.prefix substr s ||
  match s with
  | EmptyString => false
  | String _ rest => Contains rest substr
  end.

Definition is_ascii (a : ascii) : bool := utf8.code a <? 0x80.

Definition lower (a : ascii) : ascii :=
  if (65 <=? utf8.code a) && (utf8.code a <=? 90)
  then ascii_of_N (N_of_ascii a + 32) else a.

Fixpoint all_ascii (s : string) : bool :=
  match s with
  | EmptyString => true
  | String a rest => is_ascii a && all_ascii rest
  end.

Fixpoint lower_bytes (s : string) : string :=
  match s with
  | EmptyString => EmptyString
  | String a rest => String (lower a) (lower_bytes rest)
  end.

(** What [strings.ToLower] does to a string that is not ASCII,
    [strings.Map(unicode.ToLower, s)], is left to the Unicode tables. *)
Class Unicode := { MapToLower : string -> string }.

(** [strings.ToLower]: an ASCII string has its letters A to Z lowered, byte
    by byte. *)
Definition ToLower {unicode : Unicode} (s : string) : string :=
  if all_ascii s then lower_bytes s else MapToLower s.

Fixpoint Join (elems : list string) (sep : string) : string :=
  match elems with
  | [] => ""
  | [e] => e
  | e :: rest => e +:+ sep +:+ Join rest sep
  end.

End gostrings.

(** ** [ToReadableJSON] *)

Section ToReadableJSON.
Context {codec : Codec} {unicode : gostrings.Unicode}.

Definition textTypes : list string :=
  ["text/"; "application/json"; "application/xml"; "application/javascript";
   "application/x-www-form-urlencoded"]%string.

(** A lookup in a [nil] map finds nothing. *)
Definition isTextContent (headers : option (gmap string string)) : bool :=
  match default ∅ headers !! "Content-Type"%string with
  | None => false
  | Some contentType =>
    existsb (fun textType => gostrings.Contains (gostrings.ToLower contentType) textType)
            textTypes
  end.

Definition bytes_Valid (b : option (list byte)) : bool :=
  utf8.Valid (string_of_bytes b).

Definition bodyContent (r : Response) : string :=
  if isTextContent (Headers r) && bytes_Valid (Body r)
  then string_of_bytes (Body r)
  else base64.EncodeToString (default [] (Body r)).

Definition rawResponseContent (r : Response) : string :=
  if bytes_Valid (RawResponse r)
  then string_of_bytes (RawResponse r)
  else base64.EncodeToString (default [] (RawResponse r)).

(** The member [encoding]: a struct of two strings that are left out when
    empty; the struct itself is always written. *)
Definition Encoding (r : Response) : json.value :=
  json.JObj
    ((if negb (bytes_Valid (Body r))
      then [("body"%string, json.of_string "base64")] else []) ++
     (if negb (bytes_Valid (RawResponse r))
      then [("rawResponse"%string, json.of_string "base64")] else [])).

(** The document [json.Marshal] writes for [tempData]. *)
Definition tempData (r : Response) : json.value :=
  json.JObj [ ("method"%string, json.of_string (Method r));
              ("statusCode"%string, json.JNum (StatusCode r));
              ("url"%string, json.of_string (Url r));
              ("host"%string, json.of_string (Host r));
              ("headers"%string, json.of_map (Headers r));
              ("body"%string, json.of_string (bodyContent r));
              ("bodyLength"%string, json.JNum (BodyLength r));
              ("rawResponse"%string, json.of_string (rawResponseContent r));
              ("encoding"%string, Encoding r) ].

Definition ToReadableJSON (r : Response) : error + list byte :=
  inr (json_text (tempData r)).

End ToReadableJSON.

(** The member of an object under a name. *)
Definition member (name : string) (v : json.value) : option json.value :=
  match v with
  | json.JObj members => snd <$> find (fun kv => String.eqb kv.1 name) members
  | _ => None
  end.

(** ** [GetErrorReportString] *)

(** [err.Error()].  The package makes its errors with [fmt.Errorf]; the text
    of those made from a constant format is stated by [package_messages], the
    text of the others comes from the errors they wrap. *)
Class ErrorText := { Error : error -> string }.

Definition package_messages {text : ErrorText} : Prop :=
  Error ErrResponseNil = "response is nil"%string /\
  Error ErrPackNil = "response pack is nil"%string /\
  Error ErrNoResponses = "no responses found"%string /\
  forall url, Error (ErrNotFound url) = ("response not found for URL: " +:+ url)%string.

Definition newline : string := String "010" "".
Definition tab : string := String "009" "".

(** [fmt.Sprintf("\t%s: %d\n", inKey, inValue.StatusCode)] *)
Definition report_line (inKey : string) (inValue : Response) : string :=
  tab +:+ inKey +:+ ": " +:+ pretty (StatusCode inValue) +:+ newline.

Definition GetErrorReportString {rt : GoRuntime} {text : ErrorText}
    (p : option ResponsePack.t) : string * option error :=
  match ResponsePack.GetErrorReport p with
  | inl err => (Error err, Some err)
  | inr reportMap =>
    (foldl (fun str out =>
              foldl (fun str inn => str +:+ report_line inn.1 inn.2)
                    (str +:+ "URL: " +:+ out.1 +:+ newline)
                    (range out.2))
           ("Error Report:" +:+ newline) (range reportMap),
     None)
  end.

(** The two lines of the report for a URL with one round. *)
Definition report_block (url key : string) (r : Response) : string :=
  "URL: " +:+ url +:+ newline +:+ report_line key r.

(** ** The parser of raw HTTP responses *)

Module http.

(** What the parser reads of the [*http.Response] that [http.ReadResponse]
    returns for a [nil] request: [Request] is [nil]. *)
Record Response := mkResponse {
  StatusCode : Z;
  Header : gmap string (list string);
  (** what [io.ReadAll] reads of the body, [None] when it fails *)
  Body : option (list byte);
  (** [Body.Close()] returns no error *)
  Close : bool;
}.

End http.

(** The functions of [net/http], [net/url] and [codes] the parser calls. *)
Class HttpLib := {
  (** [http.ReadResponse(reader, nil)]; [None] is an error *)
  ReadResponse : list byte -> option http.Response;
  (** the [Host] of [url.Parse(url)]; [None] is an error *)
  url_Parse_Host : string -> option string;
  (** [codes.GET] *)
  GET : string;
}.

Inductive parse_error : Type :=
| ErrEmptyData                  (* "empty response data" *)
| ErrParseHTTP                  (* "failed to parse HTTP response: %w" *)
| ErrReadBody                   (* "failed to read response body: %w" *)
| ErrParseURL                   (* the error of [url.Parse] *)
| ErrCreateResponse (err : error)  (* "failed to create response: %w" *)
| ErrCloseBody.                 (* "failed to close response body: %w" *)

Section parser.
Context {validator : codes.Validator} {lib : HttpLib}.

(** [data] is [None] for a [nil] pointer.  The request of the parsed
    response is [nil], so the host is not taken from it and the method is
    [codes.GET]. *)
Definition responseParser (data : option (list byte)) (url : string)
    : parse_error + Response :=
  match data with
  | None | Some [] => inl ErrEmptyData
  | Some data =>
    match ReadResponse data with
    | None => inl ErrParseHTTP
    | Some httpResponse =>
      match http.Body httpResponse with
      | None => inl ErrReadBody
      | Some body =>
        let headers :=
          (fun values => gostrings.Join values ", ") <$> http.Header httpResponse in
        let host :=
          if gostrings.HasPrefix url "http://" || gostrings.HasPrefix url "https://"
          then url_Parse_Host url
          else Some url in
        match host with
        | None => inl ErrParseURL
        | Some host =>
          match NewResponse url host GET (http.StatusCode httpResponse)
                            (Some headers) (Some body)
                            (Z.of_nat (length body)) (Some data) with
          | inl err => inl (ErrCreateResponse err)
          | inr response =>
            if http.Close httpResponse then inr response else inl ErrCloseBody
          end
        end
      end
    end
  end.

Definition ParseRawHTTPResponse (rawResponse : option (list byte)) (url : string)
    : parse_error + Response :=
  responseParser rawResponse url.

Definition ParseStringHTTPResponse (rawResponse : string) (url : string)
    : parse_error + Response :=
  responseParser (Some (list_byte_of_string rawResponse)) url.

End parser.

(** The strings of a list, one after the other. *)
Definition concat_all (l : list string) : string :=
  foldr (fun s acc => s +:+ acc) "" l.

(** The messages of the errors for the examples: those of the package, and
    a text that stands for what an error takes from another package. *)
Definition reference_messages : ErrorText :=
  {| Error := fun err =>
       match err with
       | ErrStatusCode => "invalid status code"
       | ErrMethod => "invalid method"
       | ErrResponseNil => "response is nil"
       | ErrPackNil => "response pack is nil"
       | ErrNotFound url => "response not found for URL: " +:+ url
       | ErrNoResponses => "no responses found"
       | ErrGzipReader => "failed to create gzip reader: "
       | ErrDecompress => "failed to decompress data: "
       | ErrUnmarshal => "failed to unmarshal response: "
       end%string |}.

(** A validator and a library for the examples: every status code and
    method is accepted, and every data is read as a response 200 with one
    header and the body [ok]. *)
Definition reference_validator : codes.Validator :=
  {| codes.ValidateStatusCode := fun _ => true;
     codes.ValidateMethod := fun _ => true |}.

Definition reference_http : HttpLib :=
  {| ReadResponse := fun _ =>
       Some (http.mkResponse 200 {[ "Content-Type"%string := ["text/plain"%string] ]}
                             (Some ["o"; "k"]%byte) true);
     url_Parse_Host := fun _ => Some "example.com"%string;
     GET := "GET" |}.

(** The headers a document written for the map [m] reads back as: the
    members are written in the order of the keys, each key and value made
    valid UTF-8, and read in that order, a later member replacing an earlier
    one of the same name. *)
Definition coerce_headers (m : gmap string string) : gmap string string :=
  foldl (fun acc kv => <[json.coerce kv.1 := json.coerce kv.2]> acc) ∅
        (merge_sort json.key_le (map_to_list m)).

(** The record a compressed record reads back as. *)
Definition coerced (r : Response) : Response :=
  mkResponse (json.coerce (Method r)) (StatusCode r) (json.coerce (Url r))
             (json.coerce (Host r)) (coerce_headers <$> Headers r) (Body r)
             (BodyLength r) (RawResponse r).
(** * Properties *)

Section GoInt_facts.

Lemma uint64_add_small a b :
  0 <= a + b <= MaxUint64 -> uint64_add a b = a + b.
Proof.
  unfold uint64_add, uint64_wrap, MaxUint64. intros H.
  apply Z.mod_small. lia.
Qed.

Lemma int_add_small a b :
  - 2 ^ 63 <= a + b <= MaxInt -> int_add a b = a + b.
Proof.
  unfold int_add, int_wrap, MaxInt. intros H.
  rewrite Z.mod_small by lia. lia.
Qed.

(** The counting loop [for range m { round++ }]. *)
Lemma count_loop {A} (l : list A) :
  Z.of_nat (length l) <= MaxInt ->
  foldl (fun round _ => int_add round 1) 0 l = Z.of_nat (length l).
Proof.
  induction l as [|x l IH] using rev_ind; [done|].
  rewrite length_app, foldl_app. simpl. intros H.
  rewrite IH by lia. rewrite int_add_small; unfold MaxInt in *; lia.
Qed.

End GoInt_facts.

Section ResponsePack_counters.
Context {rt : GoRuntime}.
Import ResponsePack.

Lemma ratios_counters p :
  Total (ratios p) = Total p /\ Success (ratios p) = Success p /\
  Failure (ratios p) = Failure p /\ Responses (ratios p) = Responses p.
Proof. unfold ratios. by destruct (Total p =? 0). Qed.

Lemma AddResponse_Total p r :
  Total (AddResponse p (Some r)).1 = uint64_add (Total p) 1.
Proof.
  unfold AddResponse.
  destruct (Responses _ !! Url r); simpl;
    by rewrite (proj1 (ratios_counters _)).
Qed.

Lemma AddResponse_Success p r :
  Success (AddResponse p (Some r)).1 =
  if codes.IsSuccess (StatusCode r) then uint64_add (Success p) 1 else Success p.
Proof.
  unfold AddResponse.
  destruct (Responses _ !! Url r); simpl;
    by rewrite (proj1 (proj2 (ratios_counters _))).
Qed.

Lemma AddResponse_Failure p r :
  Failure (AddResponse p (Some r)).1 =
  if codes.IsSuccess (StatusCode r) then Failure p else uint64_add (Failure p) 1.
Proof.
  unfold AddResponse.
  destruct (Responses _ !! Url r); simpl;
    by rewrite (proj1 (proj2 (proj2 (ratios_counters _)))).
Qed.

Lemma AddResponse_nil p : AddResponse p None = (p, Some ErrResponseNil).
Proof. done. Qed.

Lemma AddResponse_ok p r : (AddResponse p (Some r)).2 = None.
Proof. unfold AddResponse. by destruct (Responses _ !! Url r). Qed.

Lemma AddResponses_snoc p rs r :
  AddResponses p (rs ++ [r]) = (AddResponse (AddResponses p rs) r).1.
Proof. unfold AddResponses. by rewrite foldl_app. Qed.

Lemma added_snoc rs r : added (rs ++ [r]) = added rs ++ option_list r.
Proof. unfold added. rewrite omap_app. by destruct r. Qed.

(** The counters after a sequence of calls on a new pack, as long as the
    number of additions fits a [uint64]. *)
Lemma AddResponses_counters rs :
  Z.of_nat (length (added rs)) <= MaxUint64 ->
  let p := AddResponses NewResponsePack rs in
  Total p = Z.of_nat (length (added rs)) /\
  Success p = Z.of_nat (length (filter is_success (added rs))) /\
  Failure p = Z.of_nat (length (filter (fun r => ~ is_success r) (added rs))).
Proof.
  induction rs as [|r rs IH] using rev_ind; [done|].
  rewrite added_snoc, AddResponses_snoc. intros Hlen. cbv zeta in *.
  destruct r as [r|].
  2:{ rewrite AddResponse_nil. change (option_list None) with (@nil Response) in *.
      cbn [fst]. rewrite app_nil_r in *. by apply IH. }
  change (option_list (Some r)) with [r] in *.
  rewrite length_app in Hlen. cbn [length] in Hlen.
  destruct IH as (HT & HS & HF); [lia|].
  rewrite AddResponse_Total, AddResponse_Success, AddResponse_Failure.
  rewrite !filter_app, !length_app, !filter_cons, !filter_nil.
  pose proof (length_filter is_success (added rs)) as Hs.
  pose proof (length_filter (fun r => ~ is_success r) (added rs)) as Hf.
  rewrite HT, HS, HF. unfold is_success in *.
  destruct (codes.IsSuccess (StatusCode r)) eqn:Hok.
  - rewrite decide_True by done. rewrite decide_False by naive_solver.
    rewrite !uint64_add_small by lia. cbn [length]. lia.
  - rewrite decide_False by done. rewrite decide_True by naive_solver.
    rewrite !uint64_add_small by lia. cbn [length]. lia.
Qed.

End ResponsePack_counters.

(** ** Round numbering *)

Section rounds.
Context {rt : GoRuntime}.
Hypothesis range_perm :
  forall (A : Type) (m : gmap string A), range m ≡ₚ map_to_list m.

Lemma round_key_inj n m : round_key n = round_key m -> n = m.
Proof.
  unfold round_key. intros H.
  apply (inj (String.app "round_")) in H. by apply (inj pretty) in H.
Qed.

Lemma length_range {A} (m : gmap string A) : length (range m) = size m.
Proof. by rewrite range_perm, length_map_to_list. Qed.

Lemma elem_of_range {A} (m : gmap string A) k v :
  (k, v) ∈ range m <-> m !! k = Some v.
Proof. by rewrite range_perm, elem_of_map_to_list. Qed.

Lemma rounds_keys_lookup {V} (vs : list V) key :
  key ∈ (imap (fun i v => (round_key (Z.of_nat (S i)), v)) vs).*1 ->
  exists i, (i < length vs)%nat /\ key = round_key (Z.of_nat (S i)).
Proof.
  rewrite list_elem_of_fmap. intros ([k v] & -> & Hin).
  apply list_elem_of_lookup in Hin as [i Hi].
  rewrite list_lookup_imap in Hi.
  destruct (vs !! i) eqn:Hv; simplify_eq/=.
  exists i. split; [by eapply lookup_lt_Some|done].
Qed.

Lemma rounds_of_snoc {V} (vs : list V) v :
  rounds_of (vs ++ [v]) =
  <[round_key (Z.of_nat (S (length vs))) := v]> (rounds_of vs).
Proof.
  unfold rounds_of. rewrite imap_app. simpl. rewrite Nat.add_0_r.
  apply list_to_map_snoc. intros Hin.
  apply rounds_keys_lookup in Hin as (i & Hlt & Heq).
  apply round_key_inj in Heq. lia.
Qed.

Lemma rounds_of_lookup {V} (vs : list V) key v :
  rounds_of vs !! key = Some v <->
  exists i, key = round_key (Z.of_nat (S i)) /\ vs !! i = Some v.
Proof.
  induction vs as [|x vs IH] using rev_ind.
  - unfold rounds_of. simpl. rewrite lookup_empty.
    split; [done|]. by intros (i & _ & ?).
  - rewrite rounds_of_snoc, lookup_insert. case_decide as Hk.
    + subst key. split.
      * intros [= ->]. exists (length vs). split; [done|].
        by rewrite lookup_app_r, Nat.sub_diag.
      * intros (i & Hi & Hv). apply round_key_inj in Hi.
        assert (i = length vs) as -> by lia.
        rewrite lookup_app_r, Nat.sub_diag in Hv by done. by simplify_eq/=.
    + rewrite IH. split.
      * intros (i & -> & Hi). exists i. split; [done|].
        by rewrite lookup_app_l by (by eapply lookup_lt_Some).
      * intros (i & -> & Hi). exists i. split; [done|].
        destruct (decide (i < length vs)%nat) as [Hlt|Hge].
        -- by rewrite lookup_app_l in Hi.
        -- rewrite lookup_app_r in Hi by lia.
           apply lookup_lt_Some in Hi as Hlen. simpl in Hlen.
           assert (i = length vs) as -> by lia. done.
Qed.

Lemma rounds_of_size {V} (vs : list V) : size (rounds_of vs) = length vs.
Proof.
  induction vs as [|x vs IH] using rev_ind; [done|].
  rewrite rounds_of_snoc, length_app, map_size_insert_None; [simpl; lia|].
  apply eq_None_not_Some. intros [v Hv].
  apply rounds_of_lookup in Hv as (i & Hi & Hv).
  apply round_key_inj in Hi. apply lookup_lt_Some in Hv. lia.
Qed.

(** One commit for [url]: the entry of [url] gains the next round, the other
    entries are untouched. *)
Lemma commit_same {V} (m : gmap string (gmap string V)) url v vs :
  m !! url = entry_of vs ->
  Z.of_nat (length vs) < MaxInt ->
  commit url v m !! url = entry_of (vs ++ [v]).
Proof.
  intros Hm Hlen. unfold commit. rewrite Hm.
  destruct vs as [|v0 vs]; simpl.
  - by rewrite lookup_insert_eq.
  - rewrite lookup_insert_eq. f_equal.
    change (v0 :: vs ++ [v]) with ((v0 :: vs) ++ [v]).
    rewrite rounds_of_snoc.
    rewrite count_loop; rewrite length_range, rounds_of_size; [|lia].
    rewrite int_add_small by (unfold MaxInt in *; lia).
    do 2 f_equal. lia.
Qed.

Lemma commit_other {V} (m : gmap string (gmap string V)) url url' v :
  url <> url' -> commit url v m !! url' = m !! url'.
Proof.
  intros Hne. unfold commit.
  destruct (m !! url); by rewrite lookup_insert_ne.
Qed.

End rounds.

Section ResponsePack_rounds.
Context {rt : GoRuntime}.
Hypothesis range_perm :
  forall (A : Type) (m : gmap string A), range m ≡ₚ map_to_list m.
Import ResponsePack.

Lemma AddResponse_Responses p r :
  Responses (AddResponse p (Some r)).1 = commit (Url r) r (Responses p).
Proof.
  unfold AddResponse, commit.
  rewrite (proj2 (proj2 (proj2 (ratios_counters _)))). simpl.
  by destruct (Responses p !! Url r).
Qed.

Lemma with_url_snoc url rs r :
  with_url url (rs ++ [r]) =
  if decide (Url r = url) then with_url url rs ++ [r] else with_url url rs.
Proof.
  unfold with_url. rewrite filter_app, filter_cons, filter_nil.
  case_decide; [done|by rewrite app_nil_r].
Qed.

Lemma length_with_url url rs : (length (with_url url rs) <= length rs)%nat.
Proof. apply length_filter. Qed.

(** The entry of every URL after a sequence of calls on a new pack. *)
Lemma AddResponses_entry rs url :
  Z.of_nat (length (added rs)) <= MaxInt ->
  Responses (AddResponses NewResponsePack rs) !! url =
  entry_of (with_url url (added rs)).
Proof.
  induction rs as [|r rs IH] using rev_ind; [done|].
  rewrite added_snoc, AddResponses_snoc, length_app. intros Hlen.
  destruct r as [r|].
  2:{ rewrite AddResponse_nil. change (option_list None) with (@nil Response).
      rewrite app_nil_r. apply IH. lia. }
  change (option_list (Some r)) with [r] in *. cbn [length] in Hlen.
  rewrite AddResponse_Responses, with_url_snoc.
  case_decide as Hurl.
  - subst url. apply (commit_same range_perm); [apply IH; lia|].
    pose proof (length_with_url (Url r) (added rs)). lia.
  - rewrite commit_other by done. apply IH. lia.
Qed.

End ResponsePack_rounds.

Section ResponsePack_report.
Context {rt : GoRuntime}.
Hypothesis range_perm :
  forall (A : Type) (m : gmap string A), range m ≡ₚ map_to_list m.
Import ResponsePack.

(** The inner loop of [GetErrorReport] over the rounds [l] of [url]: the map
    made for [url] is made again at every round that is not a success. *)
Lemma report_rounds url (l : list (string * Response)) output :
  foldl (fun output inn =>
           if negb (codes.IsSuccess (StatusCode inn.2))
           then store2 url inn.1 inn.2 (<[url := ∅]> output)
           else output) output l =
  match last (filter (fun inn => ~ is_success inn.2) l) with
  | Some inn => <[url := {[ inn.1 := inn.2 ]}]> output
  | None => output
  end.
Proof.
  induction l as [|x l IH] using rev_ind; [done|].
  rewrite foldl_app, filter_app, filter_cons, filter_nil.
  cbn [foldl]. rewrite IH. unfold is_success.
  destruct (codes.IsSuccess (StatusCode x.2)) eqn:Hok; cbn [negb].
  - rewrite decide_False by naive_solver. by rewrite app_nil_r.
  - rewrite decide_True by naive_solver. rewrite last_snoc.
    unfold store2. rewrite alter_insert_eq.
    destruct (last _); [by rewrite insert_insert_eq|done].
Qed.

Lemma report_urls (l : list (string * gmap string Response)) url :
  NoDup l.*1 ->
  foldl (fun output out =>
           foldl (fun output inn =>
                    if negb (codes.IsSuccess (StatusCode inn.2))
                    then store2 out.1 inn.1 inn.2 (<[out.1 := ∅]> output)
                    else output)
                 output (range out.2)) ∅ l !! url =
  match (list_to_map l : gmap string (gmap string Response)) !! url with
  | Some rounds => reported rounds
  | None => None
  end.
Proof.
  induction l as [|[u rounds] l IH] using rev_ind; [done|].
  rewrite fmap_app, NoDup_app. intros (Hnd & Hu & _).
  assert (u ∉ l.*1) as Hnew.
  { intros Hin. apply (Hu u Hin). simpl. left. }
  rewrite foldl_app, list_to_map_snoc by done. simpl.
  rewrite report_rounds. unfold reported in *.
  destruct (decide (u = url)) as [->|Hne].
  - rewrite lookup_insert_eq.
    destruct (last _) as [inn|]; [by rewrite lookup_insert_eq|].
    rewrite IH by done. by rewrite (not_elem_of_list_to_map_1 _ _ Hnew).
  - rewrite (lookup_insert_ne _ u url) by done.
    destruct (last _) as [inn|]; [rewrite lookup_insert_ne by done|]; by apply IH.
Qed.

Lemma list_to_map_range {A} (m : gmap string A) :
  list_to_map (range m) = m.
Proof.
  rewrite <- (list_to_map_to_list m) at 2.
  apply list_to_map_proper; [|apply range_perm].
  rewrite range_perm. apply NoDup_fst_map_to_list.
Qed.

(** What [GetErrorReport] returns for a pack that is not empty: for every
    URL with a round that is not a success, the one round [reported]. *)
Lemma GetErrorReport_entries p :
  Responses p <> ∅ ->
  exists output,
    GetErrorReport (Some p) = inr output /\
    forall url, output !! url =
      match Responses p !! url with
      | Some rounds => reported rounds
      | None => None
      end.
Proof.
  intros Hne. unfold GetErrorReport, Len.
  destruct (Z.of_nat (size (Responses p)) =? 0) eqn:Hsize.
  { apply Z.eqb_eq in Hsize. destruct Hne. apply map_size_empty_iff. lia. }
  eexists. split; [done|]. intros url.
  rewrite report_urls.
  - by rewrite list_to_map_range.
  - rewrite range_perm. apply NoDup_fst_map_to_list.
Qed.

Lemma GetErrorReport_empty p :
  GetErrorReport (Some p) = inl ErrNoResponses <-> Responses p = ∅.
Proof.
  unfold GetErrorReport, Len.
  destruct (Z.of_nat (size (Responses p)) =? 0) eqn:Hsize.
  - apply Z.eqb_eq in Hsize. split; [|done]. intros _.
    apply map_size_empty_iff. lia.
  - apply Z.eqb_neq in Hsize. split; [done|]. intros Hm.
    rewrite Hm, map_size_empty in Hsize. done.
Qed.

End ResponsePack_report.

(** ** The codec *)

Section base64_facts.
Import base64.

Local Arguments encode : simpl never.
Local Arguments decodeMap : simpl never.

Lemma decodeMap_encode b0 b1 b2 b3 b4 b5 :
  decodeMap (encode (Ascii b0 b1 b2 b3 b4 b5 false false)) =
  Some (Ascii b0 b1 b2 b3 b4 b5 false false).
Proof. destruct b0, b1, b2, b3, b4, b5; vm_compute; reflexivity. Qed.

Lemma encode_not_newline b0 b1 b2 b3 b4 b5 :
  is_newline (encode (Ascii b0 b1 b2 b3 b4 b5 false false)) = false.
Proof. destruct b0, b1, b2, b3, b4, b5; vm_compute; reflexivity. Qed.

Lemma decodeMap_pad : decodeMap "=" = None.
Proof. vm_compute. reflexivity. Qed.

(** Induction on a list three elements at a time. *)
Lemma list_ind3 {A} (P : list A -> Prop) :
  P [] -> (forall x, P [x]) -> (forall x y, P [x; y]) ->
  (forall x y z l, P l -> P (x :: y :: z :: l)) ->
  forall l, P l.
Proof.
  intros H0 H1 H2 H3 l.
  assert (P l /\ (forall x, P (x :: l)) /\ (forall x y, P (x :: y :: l))) as [? _].
  { induction l as [|z l (IH0 & IH1 & IH2)]; [by auto|].
    split; [apply IH1|]. split; [intros x; apply IH2|]. intros x y. by apply H3. }
  done.
Qed.

Lemma strip_EncodeToString src : strip (EncodeToString src) = EncodeToString src.
Proof.
  induction src as [|x|x y|x y z rest IH] using list_ind3; [done|..].
  - cbn [EncodeToString].
    destruct (ascii_of_byte x) as [x0 x1 x2 x3 x4 x5 x6 x7].
    cbn [split zero strip]. by rewrite !encode_not_newline.
  - cbn [EncodeToString].
    destruct (ascii_of_byte x) as [x0 x1 x2 x3 x4 x5 x6 x7].
    destruct (ascii_of_byte y) as [y0 y1 y2 y3 y4 y5 y6 y7].
    cbn [split zero strip]. by rewrite !encode_not_newline.
  - cbn [EncodeToString].
    destruct (ascii_of_byte x) as [x0 x1 x2 x3 x4 x5 x6 x7].
    destruct (ascii_of_byte y) as [y0 y1 y2 y3 y4 y5 y6 y7].
    destruct (ascii_of_byte z) as [z0 z1 z2 z3 z4 z5 z6 z7].
    cbn [split strip]. by rewrite !encode_not_newline, IH.
Qed.

Lemma decode_quanta_EncodeToString src :
  decode_quanta (EncodeToString src) = Some src.
Proof.
  induction src as [|x|x y|x y z rest IH] using list_ind3; [done|..].
  - cbn [EncodeToString].
    transitivity (Some [byte_of_ascii (ascii_of_byte x)]);
      [|by rewrite byte_of_ascii_of_byte].
    destruct (ascii_of_byte x) as [x0 x1 x2 x3 x4 x5 x6 x7].
    cbn [split zero decode_quanta].
    by rewrite !decodeMap_encode, decodeMap_pad.
  - cbn [EncodeToString].
    transitivity (Some [byte_of_ascii (ascii_of_byte x);
                        byte_of_ascii (ascii_of_byte y)]);
      [|by rewrite !byte_of_ascii_of_byte].
    destruct (ascii_of_byte x) as [x0 x1 x2 x3 x4 x5 x6 x7].
    destruct (ascii_of_byte y) as [y0 y1 y2 y3 y4 y5 y6 y7].
    cbn [split zero decode_quanta].
    by rewrite !decodeMap_encode, decodeMap_pad.
  - cbn [EncodeToString].
    transitivity (Some (byte_of_ascii (ascii_of_byte x) ::
                        byte_of_ascii (ascii_of_byte y) ::
                        byte_of_ascii (ascii_of_byte z) :: rest));
      [|by rewrite !byte_of_ascii_of_byte].
    destruct (ascii_of_byte x) as [x0 x1 x2 x3 x4 x5 x6 x7].
    destruct (ascii_of_byte y) as [y0 y1 y2 y3 y4 y5 y6 y7].
    destruct (ascii_of_byte z) as [z0 z1 z2 z3 z4 z5 z6 z7].
    cbn [split decode_quanta].
    by rewrite !decodeMap_encode, IH.
Qed.

(** Base64 loses no byte, whatever the bytes are. *)
Lemma DecodeString_EncodeToString src :
  DecodeString (EncodeToString src) = Some src.
Proof.
  unfold DecodeString.
  by rewrite strip_EncodeToString, decode_quanta_EncodeToString.
Qed.

End base64_facts.

Section json_facts.
Import json.

Local Arguments utf8.rune_len : simpl never.

(** The encoder leaves a valid UTF-8 string as it is. *)
Lemma coerce_Valid s : utf8.Valid s = true -> coerce s = s.
Proof.
  remember (String.length s) as n eqn:Hn.
  revert s Hn. induction (lt_wf n) as [n _ IH]. intros s Hn Hv.
  destruct s as [|a0 rest]; [done|].
  simpl in Hv |- *.
  destruct (utf8.rune_len (String a0 rest)) as [|[|[|[|[|?]]]]]; try done.
  - f_equal. eapply IH; [|done..]. simpl in Hn. lia.
  - destruct rest as [|a1 s2]; [done|].
    do 2 f_equal. eapply IH; [|done..]. simpl in Hn. lia.
  - destruct rest as [|a1 [|a2 s3]]; try done.
    do 3 f_equal. eapply IH; [|done..]. simpl in Hn. lia.
  - destruct rest as [|a1 [|a2 [|a3 s4]]]; try done.
    do 4 f_equal. eapply IH; [|done..]. simpl in Hn. lia.
Qed.

Lemma to_string_of_string old s :
  utf8.Valid s = true -> to_string old (of_string s) = Some s.
Proof. intros Hv. unfold of_string. simpl. by rewrite coerce_Valid. Qed.

Lemma to_bytes_of_bytes b : to_bytes (of_bytes b) = Some b.
Proof.
  destruct b as [b|]; [|done]. simpl.
  by rewrite DecodeString_EncodeToString.
Qed.

(** Reading the members of a map back, in any order in which the encoder
    may have written them. *)
Lemma to_map_members (l : list (string * string)) (base : gmap string string) :
  foldl (fun (acc : option (gmap string string)) (kv : string * value) =>
           match acc with
           | None => None
           | Some m =>
             match to_string "" kv.2 with
             | None => None
             | Some s => Some (<[kv.1 := s]> m)
             end
           end)
        (Some base) ((fun kv : string * string => (kv.1, JStr kv.2)) <$> l) =
  Some (foldl (fun (m : gmap string string) (kv : string * string) =>
                 <[kv.1 := kv.2]> m) base l).
Proof.
  revert base. induction l as [|[k v] l IH]; intros base; [done|].
  simpl. apply IH.
Qed.

Lemma foldl_insert_list_to_map (l : list (string * string)) (base : gmap string string) :
  foldl (fun (m : gmap string string) (kv : string * string) =>
           <[kv.1 := kv.2]> m) base l = list_to_map (reverse l) ∪ base.
Proof.
  revert base. induction l as [|[k v] l IH]; intros base.
  - simpl. by rewrite (left_id_L ∅ (∪)).
  - simpl. rewrite IH, reverse_cons, list_to_map_app. simpl.
    rewrite <- (assoc_L (∪)). f_equal.
    by rewrite insert_empty, <- insert_union_singleton_l.
Qed.

Lemma to_map_of_map m :
  match m with
  | Some m => map_Forall (fun k v => utf8.Valid k = true /\ utf8.Valid v = true) m
  | None => True
  end ->
  to_map None (of_map m) = Some m.
Proof.
  destruct m as [m|]; [|done]. intros Hv. unfold of_map, to_map.
  assert (((fun kv : string * string => (coerce kv.1, of_string kv.2)) <$>
            merge_sort key_le (map_to_list m)) =
          ((fun kv : string * string => (kv.1, JStr kv.2)) <$>
            merge_sort key_le (map_to_list m))) as ->.
  { apply Forall_fmap_ext_1, Forall_forall. intros [k v] Hin.
    rewrite merge_sort_Permutation in Hin.
    apply elem_of_map_to_list in Hin. destruct (Hv k v Hin) as [Hk Hv'].
    unfold of_string. simpl. by rewrite !coerce_Valid. }
  rewrite to_map_members. simpl. f_equal. f_equal.
  rewrite foldl_insert_list_to_map, (right_id_L ∅ (∪)).
  rewrite <- (list_to_map_to_list m) at 2.
  apply list_to_map_proper.
  - rewrite reverse_Permutation, merge_sort_Permutation.
    apply NoDup_fst_map_to_list.
  - by rewrite reverse_Permutation, merge_sort_Permutation.
Qed.

End json_facts.

Section Compress_facts.
Context {codec : Codec}.
Import json.

Local Arguments of_bytes : simpl never.
Local Arguments of_map : simpl never.
Local Arguments to_bytes : simpl never.
Local Arguments to_map : simpl never.

(** What comes back in general, for headers that are valid UTF-8: the record
    with its method, URL and host coerced to valid UTF-8. *)
Lemma Unmarshal_Marshal_coerced r :
  fits_types r ->
  match Headers r with
  | Some m => map_Forall (fun k v => utf8.Valid k = true /\ utf8.Valid v = true) m
  | None => True
  end ->
  Unmarshal (Marshal r) =
  Some (mkResponse (coerce (Method r)) (StatusCode r) (coerce (Url r))
                   (coerce (Host r)) (Headers r) (Body r) (BodyLength r)
                   (RawResponse r)).
Proof.
  intros [Hcode Hlen] Hh.
  destruct r as [method code url host headers body len raw].
  assert ((- 2 ^ 63 <=? code) && (code <=? MaxInt) = true) as Hc.
  { simpl in Hcode. apply andb_true_iff. split; apply Z.leb_le; lia. }
  assert ((0 <=? len) && (len <=? MaxUint64) = true) as Hl.
  { simpl in Hlen. apply andb_true_iff. split; apply Z.leb_le; lia. }
  unfold Unmarshal, Marshal, find_field, set_field. simpl in *.
  rewrite Hc. simpl.
  rewrite to_map_of_map by done. simpl.
  rewrite to_bytes_of_bytes. simpl.
  rewrite Hl. simpl.
  by rewrite to_bytes_of_bytes.
Qed.

(** [json.Unmarshal] reads back what [json.Marshal] wrote for a record
    whose strings are valid UTF-8. *)
Lemma Unmarshal_Marshal r :
  fits_types r -> utf8_text r -> Unmarshal (Marshal r) = Some r.
Proof.
  intros Hfits (Hm & Hu & Hh & Hhs).
  rewrite Unmarshal_Marshal_coerced by done.
  rewrite !coerce_Valid by done. by destruct r.
Qed.

Hypothesis codec_lossless : lossless codec.

Lemma Compress_ok r : Compress r = inr (gzip_Write (json_text (Marshal r))).
Proof. done. Qed.

(** Decompressing what [Compress] returned, for a record whose strings are
    valid UTF-8 and whatever its body and raw bytes are. *)
Lemma NewResponseFromCompressed_Compress r compressedData :
  fits_types r -> utf8_text r ->
  Compress r = inr compressedData ->
  NewResponseFromCompressed compressedData = inr r.
Proof.
  intros Hfits Htext [= <-]. destruct codec_lossless as [Hgzip Hjson].
  unfold NewResponseFromCompressed.
  by rewrite Hgzip, Hjson, Unmarshal_Marshal.
Qed.

End Compress_facts.

(** ** The compressed pack *)

Section CompressResponsePack_rounds.
Context {rt : GoRuntime} {codec : Codec}.
Hypothesis range_perm :
  forall (A : Type) (m : gmap string A), range m ≡ₚ map_to_list m.
Import CompressResponsePack.

Lemma Compress_compressed r : Compress r = inr (compressed r).
Proof. done. Qed.

Lemma CompressAddResponse_nil p : AddResponse p None = (p, Some ErrResponseNil).
Proof. done. Qed.

Lemma CompressAddResponse_ok p r : (AddResponse p (Some r)).2 = None.
Proof.
  unfold AddResponse. rewrite Compress_compressed.
  by destruct (CompressedResponses p !! Url r).
Qed.

Lemma CompressAddResponse_commit p r :
  CompressedResponses (AddResponse p (Some r)).1 =
  commit (Url r) (compressed r) (CompressedResponses p).
Proof.
  unfold AddResponse, commit. rewrite Compress_compressed.
  by destruct (CompressedResponses p !! Url r).
Qed.

Lemma CompressAddResponses_snoc p rs r :
  CompressAddResponses p (rs ++ [r]) = (AddResponse (CompressAddResponses p rs) r).1.
Proof. unfold CompressAddResponses. by rewrite foldl_app. Qed.

(** The entry of every URL after a sequence of calls on a new pack. *)
Lemma CompressAddResponses_entry rs url :
  Z.of_nat (length (added rs)) <= MaxInt ->
  CompressedResponses (CompressAddResponses NewCompressResponsePack rs) !! url =
  entry_of (compressed <$> with_url url (added rs)).
Proof.
  induction rs as [|r rs IH] using rev_ind; [done|].
  rewrite added_snoc, CompressAddResponses_snoc, length_app. intros Hlen.
  destruct r as [r|].
  2:{ rewrite CompressAddResponse_nil. change (option_list None) with (@nil Response).
      rewrite app_nil_r. apply IH. lia. }
  change (option_list (Some r)) with [r] in *. cbn [length] in Hlen.
  rewrite CompressAddResponse_commit, with_url_snoc.
  case_decide as Hurl.
  - subst url. rewrite fmap_app. apply (commit_same range_perm); [apply IH; lia|].
    rewrite length_fmap.
    pose proof (length_with_url (Url r) (added rs)). lia.
  - rewrite commit_other by done. apply IH. lia.
Qed.

End CompressResponsePack_rounds.

Lemma sum_list_snoc (l : list nat) (n : nat) :
  sum_list (l ++ [n]) = (sum_list l + n)%nat.
Proof. induction l as [|x l IH]; simpl; lia. Qed.

Lemma sum_list_Permutation (l k : list nat) : l ≡ₚ k -> sum_list l = sum_list k.
Proof. induction 1; simpl; lia. Qed.

Section entries_facts.
Context {V : Type}.
Implicit Types m : gmap string (gmap string V).

Lemma entries_empty : entries (∅ : gmap string (gmap string V)) = 0%nat.
Proof. unfold entries. by rewrite map_to_list_empty. Qed.

Lemma entries_insert_None m url rounds :
  m !! url = None -> entries (<[url := rounds]> m) = (size rounds + entries m)%nat.
Proof.
  intros Hm. unfold entries.
  rewrite (sum_list_Permutation _ (size <$> ((url, rounds) :: map_to_list m).*2)); [done|].
  by rewrite map_to_list_insert.
Qed.

Lemma entries_delete m url rounds :
  m !! url = Some rounds -> entries m = (size rounds + entries (delete url m))%nat.
Proof.
  intros Hm. rewrite <- (insert_delete_id m url rounds) at 1 by done.
  apply entries_insert_None, lookup_delete_eq.
Qed.

Lemma entries_insert m url rounds :
  entries (<[url := rounds]> m) = (size rounds + entries (delete url m))%nat.
Proof.
  rewrite <- insert_delete_eq. apply entries_insert_None, lookup_delete_eq.
Qed.

End entries_facts.

Lemma entry_of_snoc {V} (vs : list V) v :
  entry_of (vs ++ [v]) = Some (rounds_of (vs ++ [v])).
Proof. by destruct vs. Qed.

Section CompressResponsePack_count.
Context {rt : GoRuntime} {codec : Codec}.
Hypothesis range_perm :
  forall (A : Type) (m : gmap string A), range m ≡ₚ map_to_list m.
Import CompressResponsePack.

Lemma count_entries_loop (l : list (string * gmap string (list byte))) :
  Z.of_nat (sum_list (size <$> l.*2)) <= MaxInt ->
  foldl (fun counter out => int_add counter (Z.of_nat (size out.2))) 0 l =
  Z.of_nat (sum_list (size <$> l.*2)).
Proof.
  induction l as [|x l IH] using rev_ind; [done|].
  rewrite !fmap_app, foldl_app. simpl. rewrite sum_list_snoc. intros Hlen.
  rewrite IH by lia. rewrite int_add_small; unfold MaxInt in *; lia.
Qed.

(** [GetResponseCount] is the number of stored blobs, as long as it fits an
    [int]. *)
Lemma GetResponseCount_entries r :
  Z.of_nat (entries (CompressedResponses r)) <= MaxInt ->
  GetResponseCount r = Z.of_nat (entries (CompressedResponses r)).
Proof.
  unfold GetResponseCount, entries.
  rewrite (sum_list_Permutation _ (size <$> (range (CompressedResponses r)).*2))
    by by rewrite range_perm.
  apply count_entries_loop.
Qed.

(** Every successful addition stores one more blob. *)
Lemma CompressAddResponses_count rs :
  Z.of_nat (length (added rs)) <= MaxInt ->
  entries (CompressedResponses (CompressAddResponses NewCompressResponsePack rs)) =
  length (added rs).
Proof.
  induction rs as [|r rs IH] using rev_ind; [intros _; apply entries_empty|].
  rewrite added_snoc, length_app. intros Hlen.
  rewrite CompressAddResponses_snoc.
  destruct r as [r|].
  2:{ rewrite CompressAddResponse_nil. simpl. rewrite IH by lia. simpl. lia. }
  change (option_list (Some r)) with [r] in *. cbn [length] in *.
  rewrite CompressAddResponse_commit.
  pose proof (CompressAddResponses_entry range_perm rs (Url r)) as Hentry.
  specialize (IH ltac:(lia)). specialize (Hentry ltac:(lia)).
  pose proof (length_with_url (Url r) (added rs)) as Hle.
  pose proof (commit_same range_perm _ (Url r) (compressed r) _ Hentry) as Hnew.
  rewrite length_fmap in Hnew. specialize (Hnew ltac:(lia)).
  set (m := CompressedResponses _) in *.
  assert (exists rounds, commit (Url r) (compressed r) m = <[Url r := rounds]> m /\
                         commit (Url r) (compressed r) m !! Url r = Some rounds)
    as (rounds & Hcommit & Hlook).
  { unfold commit. destruct (m !! Url r); eexists; by rewrite lookup_insert_eq. }
  rewrite Hcommit, entries_insert. rewrite Hlook, entry_of_snoc in Hnew.
  injection Hnew as ->. rewrite rounds_of_size, length_app, length_fmap.
  destruct (with_url (Url r) (added rs)) as [|r0 l0] eqn:Hwith.
  - rewrite delete_id by done. simpl. lia.
  - rewrite (entries_delete m (Url r) _ Hentry) in IH.
    rewrite rounds_of_size, length_fmap in IH. simpl in *. lia.
Qed.

End CompressResponsePack_count.

(** ** [BatchGetResponse] *)

Lemma foldl_same {A B} (f g : A -> B -> A) (a : A) (l : list B) :
  (forall a x, f a x = g a x) -> foldl f a l = foldl g a l.
Proof.
  intros Hfg. revert a. induction l as [|x l IH]; intros a; [done|].
  simpl. by rewrite Hfg, IH.
Qed.

Section keyed_facts.

Lemma keyed_snoc result r :
  keyed (result ++ [r]) = <[round_key (Z.of_nat (length result)) := r]> (keyed result).
Proof.
  unfold keyed. rewrite imap_app, foldl_app. simpl. by rewrite Nat.add_0_r.
Qed.

Lemma keyed_lookup result key r :
  keyed result !! key = Some r ->
  exists i : nat, key = round_key (Z.of_nat i) /\ result !! i = Some r.
Proof.
  induction result as [|x result IH] using rev_ind; [done|].
  rewrite keyed_snoc, lookup_insert. case_decide as Hk.
  - intros [= <-]. exists (length result). split; [done|].
    by rewrite lookup_app_r, Nat.sub_diag.
  - intros Hr. destruct (IH Hr) as (i & -> & Hi). exists i. split; [done|].
    rewrite lookup_app_l; [done|]. by eapply lookup_lt_Some.
Qed.

Lemma keyed_fresh result : keyed result !! round_key (Z.of_nat (length result)) = None.
Proof.
  apply eq_None_not_Some. intros [r Hr].
  apply keyed_lookup in Hr as (i & Hi & Hr).
  apply round_key_inj in Hi. apply lookup_lt_Some in Hr. lia.
Qed.

Lemma keyed_size result : size (keyed result) = length result.
Proof.
  induction result as [|x result IH] using rev_ind; [done|].
  rewrite keyed_snoc, length_app, map_size_insert_None by apply keyed_fresh.
  simpl. lia.
Qed.

(** The values of the inner map are the elements of the slice, each once. *)
Lemma keyed_values result : (map_to_list (keyed result)).*2 ≡ₚ result.
Proof.
  induction result as [|x result IH] using rev_ind; [done|].
  rewrite keyed_snoc, map_to_list_insert by apply keyed_fresh.
  rewrite fmap_cons, IH. simpl. by rewrite Permutation_app_comm.
Qed.

(** The loop of the plain [BatchGetResponse] over the slice of one URL. *)
Lemma keyed_loop urlKey (result : list Response)
    (output : gmap string (gmap string Response)) :
  foldl (fun output ir => store2 urlKey (round_key (Z.of_nat ir.1)) ir.2 output)
        (<[urlKey := ∅]> output) (imap pair result) =
  <[urlKey := keyed result]> output.
Proof.
  induction result as [|x result IH] using rev_ind; [done|].
  rewrite imap_app, foldl_app, IH, keyed_snoc. cbn [imap foldl fst snd].
  unfold store2. by rewrite alter_insert_eq, Nat.add_0_r.
Qed.

End keyed_facts.

Section values_in_range.
Context {rt : GoRuntime}.
Hypothesis range_perm :
  forall (A : Type) (m : gmap string A), range m ≡ₚ map_to_list m.

Lemma rounds_of_fresh {V} (vs : list V) :
  rounds_of vs !! round_key (Z.of_nat (S (length vs))) = None.
Proof.
  apply eq_None_not_Some. intros [v Hv].
  apply rounds_of_lookup in Hv as (i & Hi & Hv).
  apply round_key_inj in Hi. apply lookup_lt_Some in Hv. lia.
Qed.

(** Visiting the rounds of a URL gives the values stored under it, each
    once, in some order. *)
Lemma range_rounds_of_values {V} (vs : list V) : (range (rounds_of vs)).*2 ≡ₚ vs.
Proof.
  rewrite range_perm.
  induction vs as [|x vs IH] using rev_ind; [done|].
  rewrite rounds_of_snoc, map_to_list_insert by apply rounds_of_fresh.
  rewrite fmap_cons, IH. simpl. by rewrite Permutation_app_comm.
Qed.

Lemma range_rounds_of_entries {V} (vs : list V) key v :
  (key, v) ∈ range (rounds_of vs) -> v ∈ vs.
Proof.
  rewrite (elem_of_range range_perm), rounds_of_lookup.
  intros (i & _ & Hi). by eapply list_elem_of_lookup_2.
Qed.

End values_in_range.

Section plain_batch_get.
Context {rt : GoRuntime}.
Hypothesis range_perm :
  forall (A : Type) (m : gmap string A), range m ≡ₚ map_to_list m.
Hypothesis sched_perm : forall (A : Type) (l : list A), sched l ≡ₚ l.
Import ResponsePack.

Lemma with_url_Url url rs r : r ∈ with_url url rs -> Url r = url.
Proof. unfold with_url. rewrite list_elem_of_filter. by intros [? _]. Qed.

(** [GetResponse] on a pack built by a sequence of calls: the records added
    with the URL, in the order in which the rounds are visited. *)
Lemma GetResponse_added rs url :
  Z.of_nat (length (added rs)) <= MaxInt ->
  match with_url url (added rs) with
  | [] => GetResponse (AddResponses NewResponsePack rs) url = inl (ErrNotFound url)
  | _ :: _ =>
    exists result,
      GetResponse (AddResponses NewResponsePack rs) url = inr result /\
      result ≡ₚ with_url url (added rs)
  end.
Proof.
  intros Hlen. unfold GetResponse.
  rewrite (AddResponses_entry range_perm) by done.
  destruct (with_url url (added rs)) as [|r l]; [done|].
  cbn [entry_of]. eexists. split; [done|].
  apply (range_rounds_of_values range_perm).
Qed.

(** One turn of the loop over the results: the inner map of the URL of the
    first record is made anew from the slice. *)
Lemma BatchGetResponse_turn (output : gmap string (gmap string Response)) r0 rest :
  foldl (fun output ir => store2 (Url r0) (round_key (Z.of_nat ir.1)) ir.2 output)
        (<[Url r0 := ∅]> output) (imap pair (r0 :: rest)) =
  <[Url r0 := keyed (r0 :: rest)]> output.
Proof. apply keyed_loop. Qed.

Lemma BatchGetResponse_turns p urls :
  (BatchGetResponse p urls).1 =
  foldl turn ∅
    (omap (fun d : error + list Response =>
             match d with
             | inr (r0 :: rest) => Some (r0 :: rest)
             | _ => None
             end) (GetResponse p <$> sched urls)).
Proof.
  unfold BatchGetResponse. cbn [fst]. apply foldl_same.
  intros output [|r0 rest]; [done|]. apply BatchGetResponse_turn.
Qed.

Lemma turns_lookup (results : list (list Response)) output u m :
  foldl turn output results !! u = Some m ->
  output !! u = Some m \/
  exists r0 rest, (r0 :: rest) ∈ results /\ Url r0 = u /\ m = keyed (r0 :: rest).
Proof.
  revert output. induction results as [|result results IH]; intros output; [by left|].
  cbn [foldl]. intros Hm. destruct (IH _ Hm) as [Hout|(r0 & rest & Hin & Hu & Hk)].
  - destruct result as [|r0 rest]; [by left|]. cbn [turn] in Hout.
    rewrite lookup_insert in Hout. case_decide as Hu.
    + right. exists r0, rest. simplify_eq. split; [left|done].
    + by left.
  - right. exists r0, rest. split; [by right|done].
Qed.

Lemma turns_is_Some (results : list (list Response)) output r0 rest :
  (r0 :: rest) ∈ results -> is_Some (foldl turn output results !! Url r0).
Proof.
  revert output. induction results as [|result results IH]; intros output Hin.
  { by apply not_elem_of_nil in Hin. }
  cbn [foldl]. apply elem_of_cons in Hin as [<-|Hin]; [|by apply IH].
  cbn [turn].
  assert (is_Some (<[Url r0 := keyed (r0 :: rest)]> output !! Url r0)) as Hnow
    by (rewrite lookup_insert_eq; eauto).
  clear IH. revert Hnow. generalize (<[Url r0 := keyed (r0 :: rest)]> output).
  induction results as [|result results IH]; intros out Hout; [done|].
  cbn [foldl]. apply IH. destruct result as [|r1 rest1]; [done|]. cbn [turn].
  rewrite lookup_insert. case_decide; eauto.
Qed.

(** [BatchGetResponse] of the plain pack, for a requested URL that is in the
    pack: its inner map has one entry for every record stored under the
    URL. *)
Lemma BatchGetResponse_stored rs urls url :
  Z.of_nat (length (added rs)) <= MaxInt ->
  url ∈ urls ->
  with_url url (added rs) <> [] ->
  exists rounds,
    (BatchGetResponse (AddResponses NewResponsePack rs) urls).1 !! url = Some rounds /\
    size rounds = length (with_url url (added rs)) /\
    (map_to_list rounds).*2 ≡ₚ with_url url (added rs).
Proof.
  intros Hlen Hin Hpresent. rewrite BatchGetResponse_turns.
  set (p := AddResponses NewResponsePack rs).
  set (results := omap _ _).
  assert (forall r0 rest, (r0 :: rest) ∈ results ->
            (r0 :: rest) ≡ₚ with_url (Url r0) (added rs)) as Hresults.
  { intros r0 rest Hr. unfold results in Hr.
    apply list_elem_of_omap in Hr as (d & Hd & Hsome).
    apply list_elem_of_fmap in Hd as (url' & -> & _).
    pose proof (GetResponse_added rs url' Hlen) as Hget. fold p in Hget.
    destruct (with_url url' (added rs)) as [|r l] eqn:Hwith.
    { by rewrite Hget in Hsome. }
    destruct Hget as (result & Hget & Hperm). rewrite Hget in Hsome.
    destruct result as [|r1 rest1]; [done|]. simplify_eq.
    assert (Url r0 = url') as ->; [|by rewrite Hwith].
    apply (with_url_Url url' (added rs)). rewrite Hwith, <- Hperm. left. }
  assert (exists r0 rest, (r0 :: rest) ∈ results /\ Url r0 = url) as (r0 & rest & Hr & Hu).
  { pose proof (GetResponse_added rs url Hlen) as Hget. fold p in Hget.
    destruct (with_url url (added rs)) as [|r l] eqn:Hwith; [done|].
    destruct Hget as (result & Hget & Hperm).
    destruct result as [|r0 rest].
    { apply Permutation_nil_l in Hperm. done. }
    exists r0, rest. split.
    - unfold results. apply list_elem_of_omap. exists (inr (r0 :: rest)).
      split; [|done]. apply list_elem_of_fmap. exists url. split; [done|].
      by rewrite sched_perm.
    - apply (with_url_Url url (added rs)). rewrite Hwith, <- Hperm. left. }
  destruct (turns_is_Some results ∅ r0 rest Hr) as [rounds Hrounds].
  rewrite Hu in Hrounds. exists rounds. split; [done|].
  apply turns_lookup in Hrounds as [Hempty|(r1 & rest1 & Hr1 & Hu1 & ->)].
  { by rewrite lookup_empty in Hempty. }
  pose proof (Hresults r1 rest1 Hr1) as Hperm. rewrite Hu1 in Hperm.
  split.
  - by rewrite keyed_size, Hperm.
  - by rewrite keyed_values.
Qed.

End plain_batch_get.

Section compress_batch_get.
Context {rt : GoRuntime} {codec : Codec}.
Hypothesis range_perm :
  forall (A : Type) (m : gmap string A), range m ≡ₚ map_to_list m.
Hypothesis sched_perm : forall (A : Type) (l : list A), sched l ≡ₚ l.
Hypothesis codec_lossless : lossless codec.
Import CompressResponsePack.



(** One turn of the inner loop of [BatchGetResponse]: the inner map of the
    URL of the record is made, with that record alone. *)
Lemma CompressBatchGetResponse_turn (responses : gmap string (gmap string Response))
    (ir : nat * Response) :
  store2 (Url ir.2) (round_key (int_add (Z.of_nat ir.1) 1)) ir.2
         (<[Url ir.2 := ∅]> responses) =
  <[Url ir.2 := {[ round_key (int_add (Z.of_nat ir.1) 1) := ir.2 ]}]> responses.
Proof. unfold store2. by rewrite alter_insert_eq, insert_empty. Qed.





End compress_batch_get.

(** * The properties of the specification *)

Lemma reference_lossless : lossless reference.codec.
Proof.
  split; [done|]. intros r. unfold json_text, json_scan. simpl.
  unfold reference.scan, reference.text.
  by rewrite length_replicate, Pos2Nat.id, decode_encode.
Qed.

Lemma in_order_range cpus (A : Type) (m : gmap string A) :
  @range (in_order_runtime cpus) A m ≡ₚ map_to_list m.
Proof. done. Qed.

Lemma in_order_sched cpus (A : Type) (l : list A) :
  @sched (in_order_runtime cpus) A l ≡ₚ l.
Proof. done. Qed.

Lemma length_filter_split {A} (P : A -> Prop) `{!forall x, Decision (P x)} (l : list A) :
  (length (filter P l) + length (filter (fun x => ~ P x) l) = length l)%nat.
Proof.
  induction l as [|x l IH]; [done|].
  rewrite !filter_cons. destruct (decide (P x)).
  - rewrite decide_False by naive_solver. simpl. lia.
  - rewrite decide_True by done. simpl. lia.
Qed.

Section counters.
Context {rt : GoRuntime}.
Import ResponsePack.

(** C3.  On a new pack, after any sequence of [AddResponse] calls of which
    [N] succeed (their record is not [nil]), [Total = Success + Failure = N];
    [Success] counts the additions with a 2xx status code and [Failure] all
    the others.  [N] is at most the largest [uint64]. *)
Theorem AddResponse_Total_Success_Failure (rs : list (option Response)) :
  Z.of_nat (length (added rs)) <= MaxUint64 ->
  Total (AddResponses NewResponsePack rs) =
    Success (AddResponses NewResponsePack rs) +
    Failure (AddResponses NewResponsePack rs) /\
  Total (AddResponses NewResponsePack rs) = Z.of_nat (length (added rs)) /\
  Success (AddResponses NewResponsePack rs) =
    Z.of_nat (length (filter is_success (added rs))) /\
  Failure (AddResponses NewResponsePack rs) =
    Z.of_nat (length (filter (fun r => ~ is_success r) (added rs))) /\
  (forall r, is_success r <-> 200 <= StatusCode r < 300).
Proof.
  intros Hlen. destruct (AddResponses_counters rs Hlen) as (HT & HS & HF).
  pose proof (length_filter_split is_success (added rs)) as Hsplit.
  repeat split; try done; try lia.
  - unfold is_success, codes.IsSuccess in H. lia.
  - unfold is_success, codes.IsSuccess in H. lia.
  - unfold is_success, codes.IsSuccess. lia.
Qed.

End counters.

Lemma AddResponse_Total_Success_Failure_witness :
  let p := @AddResponses (in_order_runtime 2) ResponsePack.NewResponsePack
             [Some ok_200; None; Some not_found_404] in
  ResponsePack.Total p = 2 /\ ResponsePack.Success p = 1 /\
  ResponsePack.Failure p = 1.
Proof.
  destruct (@AddResponse_Total_Success_Failure (in_order_runtime 2)
              [Some ok_200; None; Some not_found_404])
    as (H1 & H2 & H3 & H4 & _).
  - vm_compute. discriminate.
  - cbv zeta. split; [|split].
    + rewrite H2. reflexivity.
    + rewrite H3. by vm_compute.
    + rewrite H4. by vm_compute.
Defined.

Section error_report.
Context {rt : GoRuntime}.
Import ResponsePack.


Hypothesis range_perm :
  forall (A : Type) (m : gmap string A), range m ≡ₚ map_to_list m.

Lemma reported_Some rounds s :
  reported rounds = Some s ->
  exists key r, s = {[ key := r ]} /\ rounds !! key = Some r /\ ~ is_success r.
Proof.
  unfold reported.
  destruct (last _) as [[key r]|] eqn:Hlast; [|done]. intros [= <-].
  exists key, r. split; [done|].
  apply last_Some_elem_of, list_elem_of_filter in Hlast as [Hr Hin].
  split; [|done]. by apply (elem_of_range range_perm).
Qed.

Lemma reported_None rounds :
  reported rounds = None <-> forall key r, rounds !! key = Some r -> is_success r.
Proof.
  unfold reported. split.
  - destruct (last _) eqn:Hlast; [done|]. intros _ key r Hr.
    apply last_None in Hlast.
    apply (elem_of_range range_perm) in Hr.
    destruct (decide (is_success r)) as [|Hn]; [done|].
    assert ((key, r) ∈ filter (fun inn : string * Response => ~ is_success inn.2)
                              (range rounds)) as Hin
      by by apply list_elem_of_filter.
    rewrite Hlast in Hin. by apply not_elem_of_nil in Hin.
  - intros Hall. destruct (last _) as [[key r]|] eqn:Hlast; [|done].
    apply last_Some_elem_of, list_elem_of_filter in Hlast as [Hr Hin].
    destruct Hr. apply (Hall key). by apply (elem_of_range range_perm).
Qed.

(** The report of a pack that is not empty: a URL is in it exactly when one
    of its rounds is not a success, and then with a single round, one of
    those that are not a success. *)
Lemma GetErrorReport_one_round_per_url p :
  Responses p <> ∅ ->
  exists output,
    GetErrorReport (Some p) = inr output /\
    (forall url, is_Some (output !! url) <->
       exists key r, lookup2 (Responses p) url key = Some r /\ ~ is_success r) /\
    (forall url rounds, output !! url = Some rounds ->
       exists key r, rounds = {[ key := r ]} /\
         lookup2 (Responses p) url key = Some r /\ ~ is_success r).
Proof.
  intros Hne.
  destruct (GetErrorReport_entries range_perm p Hne) as (output & Hrep & Hout).
  exists output. split; [done|]. split.
  - intros url. rewrite Hout. unfold lookup2.
    destruct (Responses p !! url) as [rounds|];
      [|split; [by intros []|by intros (key & r & ? & _)]].
    split.
    + intros [s Hs]. apply reported_Some in Hs as (key & r & _ & Hr & Hbad).
      by exists key, r.
    + intros (key & r & Hr & Hbad).
      destruct (reported rounds) eqn:Hrp; [done|].
      destruct Hbad. by eapply reported_None.
  - intros url s. rewrite Hout. unfold lookup2.
    destruct (Responses p !! url) as [rounds|]; [|done].
    apply reported_Some.
Qed.

(** C10.  For a pack that holds a response and holds only successes,
    [GetErrorReport] returns an empty map and no error. *)
Theorem GetErrorReport_all_success p :
  Responses p <> ∅ ->
  (forall url key r, lookup2 (Responses p) url key = Some r -> is_success r) ->
  GetErrorReport (Some p) = inr ∅.
Proof.
  intros Hne Hall.
  destruct (GetErrorReport_entries range_perm p Hne) as (output & Hrep & Hout).
  rewrite Hrep. f_equal. apply map_eq. intros url.
  rewrite Hout, lookup_empty.
  destruct (Responses p !! url) as [rounds|] eqn:Hurl; [|done].
  apply reported_None. intros key r Hr. apply (Hall url key).
  unfold lookup2. by rewrite Hurl.
Qed.

End error_report.

Section error_report_rounds.
Context {rt : GoRuntime}.
Hypothesis range_perm :
  forall (A : Type) (m : gmap string A), range m ≡ₚ map_to_list m.
Import ResponsePack.

(** C5, at a pack whose one URL has two rounds that are both failures (404,
    then 500): both rounds are stored, and the report has a single round for
    the URL, whatever the order in which the maps are visited. *)
Theorem GetErrorReport_two_failing_rounds :
  exists stored output rounds,
    Responses (AddResponses NewResponsePack
                 [Some not_found_404; Some server_error_500])
      !! "https://example.com/api3"%string = Some stored /\
    size stored = 2%nat /\
    (forall key r, stored !! key = Some r -> ~ is_success r) /\
    GetErrorReport (Some (AddResponses NewResponsePack
                            [Some not_found_404; Some server_error_500]))
      = inr output /\
    output !! "https://example.com/api3"%string = Some rounds /\
    size rounds = 1%nat.
Proof.
  set (p := AddResponses NewResponsePack [Some not_found_404; Some server_error_500]).
  assert (Responses p !! "https://example.com/api3"%string =
          Some (rounds_of [not_found_404; server_error_500])) as Hstored.
  { unfold p. rewrite (AddResponses_entry range_perm); [done|].
    vm_compute. discriminate. }
  assert (forall key r, rounds_of [not_found_404; server_error_500] !! key = Some r ->
                        ~ is_success r) as Hbad.
  { intros key r Hr. apply rounds_of_lookup in Hr as (i & _ & Hi).
    destruct i as [|[|i]]; cbv [lookup list_lookup] in Hi; [| |done];
      injection Hi as <-; by vm_compute. }
  assert (Responses p <> ∅) as Hne.
  { intros Hempty. by rewrite Hempty, lookup_empty in Hstored. }
  destruct (GetErrorReport_one_round_per_url range_perm p Hne)
    as (output & Hrep & Hdom & Hone).
  assert (is_Some (output !! "https://example.com/api3"%string)) as [rounds Hrounds].
  { apply Hdom. exists (round_key 1), not_found_404. split; [|by vm_compute].
    unfold lookup2. rewrite Hstored. apply rounds_of_lookup. exists 0%nat.
    split; [by vm_compute|reflexivity]. }
  exists (rounds_of [not_found_404; server_error_500]), output, rounds.
  split; [done|]. split; [by rewrite rounds_of_size|].
  split; [done|]. split; [done|]. split; [done|].
  destruct (Hone _ _ Hrounds) as (key & r & -> & _).
  by rewrite map_size_singleton.
Qed.

(** A pack with one success and one failure under two URLs: the report has
    one entry, for the URL of the failure. *)
Lemma GetErrorReport_200_and_404 :
  GetErrorReport (Some (AddResponses NewResponsePack [Some ok_200; Some not_found_404]))
  = inr {[ "https://example.com/api3"%string :=
             {[ "round_1"%string := not_found_404 ]} ]}.
Proof.
  set (p := AddResponses NewResponsePack [Some ok_200; Some not_found_404]).
  assert (forall url, Responses p !! url =
                      entry_of (with_url url [ok_200; not_found_404])) as Hstored.
  { intros url. unfold p. rewrite (AddResponses_entry range_perm); [done|].
    vm_compute. discriminate. }
  assert (Responses p <> ∅) as Hne.
  { intros Hempty. specialize (Hstored "https://example.com/api1"%string).
    by rewrite Hempty, lookup_empty in Hstored. }
  destruct (GetErrorReport_entries range_perm p Hne) as (output & Hrep & Hout).
  rewrite Hrep. f_equal. apply map_eq. intros url. rewrite Hout, Hstored.
  assert (forall r : Response, range (rounds_of [r]) = [("round_1"%string, r)]) as Hone.
  { intros r. apply Permutation_singleton_r. rewrite range_perm.
    change (rounds_of [r]) with ({[ "round_1"%string := r ]} : gmap string Response).
    by rewrite map_to_list_singleton. }
  unfold with_url. rewrite !filter_cons, filter_nil.
  change (Url ok_200) with "https://example.com/api1"%string.
  change (Url not_found_404) with "https://example.com/api3"%string.
  destruct (decide ("https://example.com/api1"%string = url)) as [<-|Hne1].
  - rewrite decide_False by discriminate. cbn [entry_of].
    rewrite lookup_singleton_ne by discriminate.
    unfold reported. rewrite Hone, filter_cons, filter_nil.
    rewrite decide_False; [done|]. intros Hbad. apply Hbad. by vm_compute.
  - destruct (decide ("https://example.com/api3"%string = url)) as [<-|Hne3].
    + cbn [entry_of]. rewrite lookup_singleton_eq.
      unfold reported. rewrite Hone, filter_cons, filter_nil.
      rewrite decide_True; [done|]. by vm_compute.
    + cbn [entry_of]. by rewrite lookup_singleton_ne.
Qed.

End error_report_rounds.

Lemma GetErrorReport_two_failing_rounds_witness :
  exists stored output rounds,
    ResponsePack.Responses
      (@AddResponses (in_order_runtime 2) ResponsePack.NewResponsePack
         [Some not_found_404; Some server_error_500])
      !! "https://example.com/api3"%string = Some stored /\
    size stored = 2%nat /\
    (forall key r, stored !! key = Some r -> ~ is_success r) /\
    @ResponsePack.GetErrorReport (in_order_runtime 2)
      (Some (@AddResponses (in_order_runtime 2) ResponsePack.NewResponsePack
               [Some not_found_404; Some server_error_500]))
      = inr output /\
    output !! "https://example.com/api3"%string = Some rounds /\
    size rounds = 1%nat.
Proof.
  apply (@GetErrorReport_two_failing_rounds (in_order_runtime 2)).
  intros A m. reflexivity.
Defined.

Lemma GetErrorReport_all_success_witness :
  @ResponsePack.GetErrorReport (in_order_runtime 2)
    (Some (@AddResponses (in_order_runtime 2) ResponsePack.NewResponsePack
             [Some ok_200])) = inr ∅.
Proof.
  apply (@GetErrorReport_all_success (in_order_runtime 2)).
  - intros A m. reflexivity.
  - intros Hempty.
    apply (f_equal (fun m => size m)) in Hempty. vm_compute in Hempty. lia.
  - intros url key r. unfold lookup2.
    rewrite (@AddResponses_entry (in_order_runtime 2));
      [|intros A m; reflexivity|vm_compute; discriminate].
    change (added [Some ok_200]) with [ok_200].
    unfold with_url. rewrite filter_cons, filter_nil.
    case_decide; [|done]. cbn [entry_of]. intros Hr.
    apply rounds_of_lookup in Hr as (i & _ & Hi).
    destruct i; cbv [lookup list_lookup] in Hi; [|done].
    injection Hi as <-. by vm_compute.
Defined.

Lemma lookup2_entry_of {V} (m : gmap string (gmap string V)) url (vs : list V) key v :
  m !! url = entry_of vs ->
  lookup2 m url key = Some v <->
  exists i : nat, key = round_key (Z.of_nat (S i)) /\ vs !! i = Some v.
Proof.
  intros Hm. unfold lookup2. rewrite Hm.
  destruct vs as [|v0 vs]; [|apply rounds_of_lookup].
  simpl. split; [done|]. by intros (i & _ & ?).
Qed.

Section round_keys.
Context {rt : GoRuntime} {codec : Codec}.
Hypothesis range_perm :
  forall (A : Type) (m : gmap string A), range m ≡ₚ map_to_list m.

(** C4.  After any sequence of [AddResponse] calls on a new pack, plain or
    compressed, the rounds stored under a URL are exactly [round_1] to
    [round_k], [k] being the number of records added with that URL:
    [round_(i+1)] holds the record (or the blob of the record) that was the
    (i+1)-th added with the URL, and two rounds have different keys.  The
    number of additions fits an [int]. *)
Theorem round_keys_contiguous (rs : list (option Response)) (url : string) :
  Z.of_nat (length (added rs)) <= MaxInt ->
  (forall key r,
     lookup2 (ResponsePack.Responses (AddResponses ResponsePack.NewResponsePack rs))
             url key = Some r <->
     exists i : nat, key = round_key (Z.of_nat (S i)) /\
                     with_url url (added rs) !! i = Some r) /\
  (forall key data,
     lookup2 (CompressResponsePack.CompressedResponses
                (CompressAddResponses CompressResponsePack.NewCompressResponsePack rs))
             url key = Some data <->
     exists (i : nat) r, key = round_key (Z.of_nat (S i)) /\
                         with_url url (added rs) !! i = Some r /\
                         Compress r = inr data) /\
  (forall i j : nat, round_key (Z.of_nat (S i)) = round_key (Z.of_nat (S j)) -> i = j).
Proof.
  intros Hlen. split; [|split].
  - intros key r. apply lookup2_entry_of. by apply AddResponses_entry.
  - intros key data.
    rewrite (lookup2_entry_of _ _ _ _ _
               (CompressAddResponses_entry range_perm rs url Hlen)).
    split.
    + intros (i & Hkey & Hi). rewrite list_lookup_fmap in Hi.
      destruct (with_url url (added rs) !! i) as [r|] eqn:Hr; [|done].
      exists i, r. by simplify_eq/=.
    + intros (i & r & Hkey & Hr & Hdata). exists i. split; [done|].
      rewrite list_lookup_fmap, Hr. simpl. f_equal.
      rewrite Compress_compressed in Hdata. by injection Hdata.
  - intros i j Hij. apply round_key_inj in Hij. lia.
Qed.

End round_keys.

Lemma round_keys_contiguous_witness :
  lookup2 (ResponsePack.Responses
             (@AddResponses (in_order_runtime 2) ResponsePack.NewResponsePack
                [Some ok_200; Some not_found_404; Some created_201]))
          "https://example.com/api1" "round_2" = Some created_201.
Proof.
  apply (@round_keys_contiguous (in_order_runtime 2) reference.codec
           (fun A m => reflexivity _)
           [Some ok_200; Some not_found_404; Some created_201]
           "https://example.com/api1").
  - vm_compute. discriminate.
  - exists 1%nat. split; [by vm_compute|reflexivity].
Defined.

Section delete.
Context {rt : GoRuntime} {codec : Codec}.
Import CompressResponsePack.

(** C8.  [DeleteResponse] for a URL of the pack returns no error and removes
    the URL with all its rounds, as many as they are, so that [GetResponse]
    for the URL then returns the not-found error; the other URLs are left as
    they were.  For a URL that is not in the pack it returns the not-found
    error and the pack is unchanged. *)
Theorem DeleteResponse_removes_all_rounds (r : t) (url : string) :
  match CompressedResponses r !! url with
  | Some rounds =>
    (DeleteResponse r url).2 = None /\
    CompressedResponses (DeleteResponse r url).1 !! url = None /\
    (forall key, lookup2 (CompressedResponses (DeleteResponse r url).1) url key = None) /\
    GetResponse (DeleteResponse r url).1 url = inl (ErrNotFound url) /\
    (forall url', url' <> url ->
       CompressedResponses (DeleteResponse r url).1 !! url' =
       CompressedResponses r !! url') /\
    MetaInfo (DeleteResponse r url).1 = MetaInfo r
  | None => DeleteResponse r url = (r, Some (ErrNotFound url))
  end.
Proof.
  unfold DeleteResponse.
  destruct (CompressedResponses r !! url) as [rounds|] eqn:Hurl; [|done].
  cbn [fst snd CompressedResponses MetaInfo].
  set (m := delete url (CompressedResponses r)).
  assert ((if Z.of_nat (size m) =? 0 then ∅ else m) = m) as ->.
  { destruct (Z.of_nat (size m) =? 0) eqn:Hsize; [|done].
    apply Z.eqb_eq in Hsize. symmetry. apply map_size_empty_iff. lia. }
  assert (m !! url = None) as Hgone by apply lookup_delete_eq.
  split; [done|]. split; [done|]. split.
  { intros key. unfold lookup2. by rewrite Hgone. }
  split.
  { unfold GetResponse. cbn [CompressedResponses]. by rewrite Hgone. }
  split; [|done]. intros url' Hne. by apply lookup_delete_ne.
Qed.

End delete.

(** A pack whose URL has two rounds. *)
Lemma DeleteResponse_two_rounds (blob1 blob2 : list byte) :
  let r := CompressResponsePack.mk
             {[ "https://example.com/api1"%string :=
                  {[ "round_1"%string := blob1; "round_2"%string := blob2 ]} ]} ∅ in
  @CompressResponsePack.GetResponse (in_order_runtime 2) reference.codec
    (CompressResponsePack.DeleteResponse r "https://example.com/api1").1
    "https://example.com/api1" = inl (ErrNotFound "https://example.com/api1").
Proof.
  intros r.
  pose proof (@DeleteResponse_removes_all_rounds (in_order_runtime 2)
                reference.codec r "https://example.com/api1") as H.
  replace (CompressResponsePack.CompressedResponses r !! "https://example.com/api1"%string)
    with (Some ({[ "round_1"%string := blob1; "round_2"%string := blob2 ]}
                  : gmap string (list byte))) in H
    by (symmetry; apply lookup_singleton_eq).
  apply H.
Defined.

Section counting.
Context {rt : GoRuntime} {codec : Codec}.
Hypothesis range_perm :
  forall (A : Type) (m : gmap string A), range m ≡ₚ map_to_list m.

Lemma entry_of_is_Some {V} (vs : list V) : is_Some (entry_of vs) <-> vs <> [].
Proof. destruct vs; split; (done || by intros []). Qed.

(** The URLs of a pack built by a sequence of calls. *)
Lemma AddResponses_dom rs :
  Z.of_nat (length (added rs)) <= MaxInt ->
  dom (ResponsePack.Responses (AddResponses ResponsePack.NewResponsePack rs)) =
  (list_to_set (Url <$> added rs) : gset string).
Proof.
  intros Hlen. apply set_eq. intros url.
  rewrite elem_of_dom, (AddResponses_entry range_perm) by done.
  rewrite entry_of_is_Some, elem_of_list_to_set, list_elem_of_fmap.
  unfold with_url. split.
  - intros Hne. destruct (filter _ _) as [|r l] eqn:Hf; [done|].
    assert (r ∈ filter (fun r => Url r = url) (added rs)) as Hin
      by (rewrite Hf; left).
    apply list_elem_of_filter in Hin as [Hurl Hin]. by exists r.
  - intros (r & -> & Hin) Hnil.
    assert (r ∈ filter (fun r' => Url r' = Url r) (added rs)) as Hf
      by by apply list_elem_of_filter.
    rewrite Hnil in Hf. by apply not_elem_of_nil in Hf.
Qed.

(** C9.  [Len] of a [ResponsePack] is the number of its URLs, whatever the
    number of rounds under each, and [GetResponseCount] of a
    [CompressResponsePack] is the number of its blobs, all URLs and rounds
    together.  After the same sequence of calls on a new pack of each kind,
    the first is the number of distinct URLs added and the second the number
    of records added.  The numbers fit an [int]. *)
Theorem Len_counts_urls_GetResponseCount_counts_rounds
    (p : ResponsePack.t) (r : CompressResponsePack.t)
    (rs : list (option Response)) :
  Z.of_nat (entries (CompressResponsePack.CompressedResponses r)) <= MaxInt ->
  Z.of_nat (length (added rs)) <= MaxInt ->
  ResponsePack.Len (Some p) =
    Z.of_nat (size (dom (ResponsePack.Responses p) : gset string)) /\
  CompressResponsePack.GetResponseCount r =
    Z.of_nat (entries (CompressResponsePack.CompressedResponses r)) /\
  ResponsePack.Len (Some (AddResponses ResponsePack.NewResponsePack rs)) =
    Z.of_nat (size (list_to_set (Url <$> added rs) : gset string)) /\
  CompressResponsePack.GetResponseCount
    (CompressAddResponses CompressResponsePack.NewCompressResponsePack rs) =
    Z.of_nat (length (added rs)).
Proof.
  intros Hr Hrs. split; [|split; [|split]].
  - unfold ResponsePack.Len. by rewrite size_dom.
  - by apply GetResponseCount_entries.
  - unfold ResponsePack.Len. by rewrite <- AddResponses_dom, size_dom.
  - rewrite (GetResponseCount_entries range_perm);
      by rewrite (CompressAddResponses_count range_perm).
Qed.

End counting.

Lemma Len_counts_urls_GetResponseCount_counts_rounds_witness :
  ResponsePack.Len
    (Some (@AddResponses (in_order_runtime 2) ResponsePack.NewResponsePack
             [Some ok_200; Some created_201])) = 1 /\
  @CompressResponsePack.GetResponseCount (in_order_runtime 2)
    (@CompressAddResponses (in_order_runtime 2) reference.codec
       CompressResponsePack.NewCompressResponsePack
       [Some ok_200; Some created_201]) = 2.
Proof.
  destruct (@Len_counts_urls_GetResponseCount_counts_rounds
              (in_order_runtime 2) reference.codec (fun A m => reflexivity _)
              ResponsePack.NewResponsePack
              CompressResponsePack.NewCompressResponsePack
              [Some ok_200; Some created_201])
    as (_ & _ & HLen & HCount).
  - vm_compute. discriminate.
  - vm_compute. discriminate.
  - split.
    + rewrite HLen. by vm_compute.
    + rewrite HCount. reflexivity.
Defined.

Lemma nils_cons r rs :
  nils (r :: rs) = ((if r is None then 1 else 0) + nils rs)%nat.
Proof.
  unfold nils. rewrite filter_cons. destruct r; [by rewrite decide_False|].
  by rewrite decide_True.
Qed.

Lemma length_added_nils rs : (length (added rs) + nils rs = length rs)%nat.
Proof.
  induction rs as [|[r|] rs IH]; [done|..]; rewrite nils_cons; simpl in *; lia.
Qed.

Section batch.
Context {rt : GoRuntime}.
Hypothesis sched_perm : forall (A : Type) (l : list A), sched l ≡ₚ l.

(** The loop of both [BatchAddResponse] methods over the responses that are
    added: the additions in that order, and one error for every [nil]. *)
Lemma BatchAddResponse_loop p errs (l : list (option Response)) :
  foldl (fun st response =>
           let '(p', err) := ResponsePack.AddResponse st.1 response in
           (p', st.2 ++ option_list err))
        (p, errs) l =
  (AddResponses p l, errs ++ replicate (nils l) ErrResponseNil).
Proof.
  revert p errs. induction l as [|r l IH]; intros p errs.
  - simpl. by rewrite app_nil_r.
  - cbn [foldl fst snd]. rewrite nils_cons. destruct r as [r|].
    + pose proof (AddResponse_ok p r) as Hok.
      destruct (ResponsePack.AddResponse p (Some r)) as [p' err] eqn:Hadd.
      cbn [snd] in Hok. subst err. rewrite IH. cbn [option_list].
      rewrite app_nil_r. change (AddResponses p (Some r :: l))
        with (AddResponses (ResponsePack.AddResponse p (Some r)).1 l).
      by rewrite Hadd.
    + rewrite AddResponse_nil, IH. cbn [option_list replicate Nat.add].
      by rewrite <- (assoc_L (++)).
Qed.

Lemma added_sched (l : list (option Response)) :
  length (added (sched l)) = length (added l).
Proof. unfold added. by rewrite sched_perm. Qed.

Lemma nils_sched (l : list (option Response)) : nils (sched l) = nils l.
Proof. unfold nils. by rewrite sched_perm. Qed.

(** What [ResponsePack.BatchAddResponse] does with a batch on a new pack:
    the records among the first [min NumCPU K] responses are added, one
    error is returned for every [nil] among them, and the rest of the batch
    is not looked at. *)
Lemma BatchAddResponse_started (responses : list (option Response)) :
  Z.of_nat (length responses) <= MaxUint64 ->
  let started := take (Nat.min NumCPU (length responses)) responses in
  ResponsePack.Total
    (ResponsePack.BatchAddResponse ResponsePack.NewResponsePack responses).1 =
    Z.of_nat (length (added started)) /\
  length (ResponsePack.BatchAddResponse ResponsePack.NewResponsePack responses).2 =
    nils started.
Proof.
  intros Hlen started. unfold ResponsePack.BatchAddResponse.
  fold started. rewrite BatchAddResponse_loop. cbn [fst snd app].
  rewrite length_replicate, nils_sched.
  split; [|done]. rewrite <- added_sched.
  apply AddResponses_counters. rewrite added_sched.
  pose proof (length_added_nils started).
  assert (length started <= length responses)%nat by (unfold started; rewrite length_take; lia).
  lia.
Qed.

(** C1, at a batch of three records on a machine with two CPUs: no error is
    returned, and [Total] has increased by two, not by three; the third
    record is not in the pack. *)
Theorem BatchAddResponse_three_records_two_CPUs :
  NumCPU = 2%nat ->
  (ResponsePack.BatchAddResponse ResponsePack.NewResponsePack
     [Some ok_200; Some created_201; Some not_found_404]).2 = [] /\
  ResponsePack.Total
    (ResponsePack.BatchAddResponse ResponsePack.NewResponsePack
       [Some ok_200; Some created_201; Some not_found_404]).1 = 2 /\
  ResponsePack.Failure
    (ResponsePack.BatchAddResponse ResponsePack.NewResponsePack
       [Some ok_200; Some created_201; Some not_found_404]).1 = 0.
Proof.
  intros Hcpu.
  destruct (BatchAddResponse_started [Some ok_200; Some created_201; Some not_found_404])
    as [HT Herr]; [vm_compute; discriminate|].
  rewrite Hcpu in *.
  change (take (2 `min` length [Some ok_200; Some created_201; Some not_found_404])
               [Some ok_200; Some created_201; Some not_found_404])
    with [Some ok_200; Some created_201] in *.
  split; [|split].
  - by apply nil_length_inv.
  - by rewrite HT.
  - unfold ResponsePack.BatchAddResponse. rewrite BatchAddResponse_loop, Hcpu.
    change (take _ _) with [Some ok_200; Some created_201].
    cbn [fst].
    assert (sched [Some ok_200; Some created_201] ≡ₚ [Some ok_200; Some created_201])
      as Hperm by apply sched_perm.
    destruct (sched [Some ok_200; Some created_201]) as [|a [|b [|c l]]] eqn:Hs;
      try (apply Permutation_length in Hperm; done).
    apply Permutation_length_2 in Hperm as [[-> ->]|[-> ->]]; by vm_compute.
Qed.

End batch.

Lemma BatchAddResponse_three_records_two_CPUs_witness :
  ResponsePack.Total
    (@ResponsePack.BatchAddResponse (in_order_runtime 2)
       ResponsePack.NewResponsePack
       [Some ok_200; Some created_201; Some not_found_404]).1 = 2.
Proof.
  apply (@BatchAddResponse_three_records_two_CPUs (in_order_runtime 2)
           (fun A l => reflexivity _)).
  reflexivity.
Defined.

Section compress_batch.
Context {rt : GoRuntime} {codec : Codec}.
Hypothesis range_perm :
  forall (A : Type) (m : gmap string A), range m ≡ₚ map_to_list m.
Hypothesis sched_perm : forall (A : Type) (l : list A), sched l ≡ₚ l.
Hypothesis NumCPU_pos : (0 < NumCPU)%nat.

Lemma CompressBatchAddResponse_loop p errs (l : list (option Response)) :
  foldl (fun st response =>
           let '(p', err) := CompressResponsePack.AddResponse st.1 response in
           (p', st.2 ++ option_list err))
        (p, errs) l =
  (CompressAddResponses p l, errs ++ replicate (nils l) ErrResponseNil).
Proof.
  revert p errs. induction l as [|r l IH]; intros p errs.
  - simpl. by rewrite app_nil_r.
  - cbn [foldl fst snd]. rewrite nils_cons. destruct r as [r|].
    + pose proof (CompressAddResponse_ok p r) as Hok.
      destruct (CompressResponsePack.AddResponse p (Some r)) as [p' err] eqn:Hadd.
      cbn [snd] in Hok. subst err. rewrite IH. cbn [option_list].
      rewrite app_nil_r. change (CompressAddResponses p (Some r :: l))
        with (CompressAddResponses (CompressResponsePack.AddResponse p (Some r)).1 l).
      by rewrite Hadd.
    + rewrite CompressAddResponse_nil, IH. cbn [option_list replicate Nat.add].
      by rewrite <- (assoc_L (++)).
Qed.

(** [CompressResponsePack.BatchAddResponse] does what C1 says: every record
    of the batch is added and every [nil] gives one error. *)
Lemma CompressBatchAddResponse_all (responses : list (option Response)) :
  Z.of_nat (length responses) <= MaxInt ->
  CompressResponsePack.GetResponseCount
    (CompressResponsePack.BatchAddResponse
       CompressResponsePack.NewCompressResponsePack responses).1 =
    Z.of_nat (length responses) - Z.of_nat (nils responses) /\
  length (CompressResponsePack.BatchAddResponse
            CompressResponsePack.NewCompressResponsePack responses).2 =
    nils responses.
Proof.
  intros Hlen. unfold CompressResponsePack.BatchAddResponse.
  pose proof (length_added_nils responses) as Hsplit.
  destruct NumCPU as [|n] eqn:Hn; [lia|].
  destruct responses as [|r0 responses].
  { split; [|done]. cbn [Nat.min length fst].
    by rewrite (GetResponseCount_entries range_perm). }
  cbn [Nat.min length]. rewrite CompressBatchAddResponse_loop. cbn [fst snd app].
  rewrite length_replicate, (nils_sched sched_perm). split; [|done].
  assert (Z.of_nat (length (added (sched (r0 :: responses)))) <= MaxInt) as Hadded.
  { rewrite (added_sched sched_perm). cbn [length] in *. lia. }
  rewrite (GetResponseCount_entries range_perm);
    rewrite (CompressAddResponses_count range_perm) by done; [|done].
  rewrite (added_sched sched_perm). cbn [length] in *. lia.
Qed.

End compress_batch.

Section compression.
Context {codec : Codec}.
Hypothesis codec_lossless : lossless codec.

(** C2, as amended.  For every record whose strings (method, URL, host,
    names and values of the headers) are valid UTF-8, and whatever the bytes
    of its body and of its raw response, [Compress] returns a blob and
    [NewResponseFromCompressed] of that blob returns the record, equal in
    every field. *)
Theorem Compress_NewResponseFromCompressed_utf8 (r : Response) :
  fits_types r -> utf8_text r ->
  exists compressedData,
    Compress r = inr compressedData /\
    NewResponseFromCompressed compressedData = inr r.
Proof.
  intros Hfits Htext. exists (compressed r). split; [done|].
  by apply NewResponseFromCompressed_Compress.
Qed.

(** What comes back in general, for headers that are valid UTF-8: the record
    with its method, URL and host coerced to valid UTF-8. *)
Lemma NewResponseFromCompressed_Compress_coerced (r : Response) :
  fits_types r ->
  match Headers r with
  | Some m => map_Forall (fun k v => utf8.Valid k = true /\ utf8.Valid v = true) m
  | None => True
  end ->
  NewResponseFromCompressed (compressed r) =
  inr (mkResponse (json.coerce (Method r)) (StatusCode r) (json.coerce (Url r))
                  (json.coerce (Host r)) (Headers r) (Body r) (BodyLength r)
                  (RawResponse r)).
Proof.
  intros Hfits Hh. destruct codec_lossless as [Hgzip Hjson].
  unfold NewResponseFromCompressed, compressed.
  by rewrite Hgzip, Hjson, Unmarshal_Marshal_coerced.
Qed.

End compression.

Lemma Compress_NewResponseFromCompressed_utf8_witness :
  exists compressedData,
    @Compress reference.codec binary_body = inr compressedData /\
    @NewResponseFromCompressed reference.codec compressedData = inr binary_body.
Proof.
  apply (@Compress_NewResponseFromCompressed_utf8 reference.codec
           reference_lossless binary_body).
  - split; split; vm_compute; discriminate.
  - split; [by vm_compute|]. split; [by vm_compute|]. split; [by vm_compute|].
    apply map_Forall_singleton. split; by vm_compute.
Defined.

Lemma NewResponse_latin1_url (validator : codes.Validator) :
  codes.ValidateStatusCode 200 = true ->
  codes.ValidateMethod "GET" = true ->
  NewResponse ("https://example.com/caf" +:+ String "233" "") "example.com" "GET"
              200 None None 0 None = inr latin1_url.
Proof. intros Hcode Hmethod. unfold NewResponse. by rewrite Hcode, Hmethod. Qed.

(** C2 as it is stated does not hold for [latin1_url]: with any codec that
    loses nothing, it comes back with another URL. *)
Lemma Compress_NewResponseFromCompressed_latin1_url :
  ~ (forall codec : Codec, lossless codec ->
       exists compressedData,
         Compress latin1_url = inr compressedData /\
         NewResponseFromCompressed compressedData = inr latin1_url).
Proof.
  intros Hclaim.
  destruct (Hclaim reference.codec reference_lossless) as (data & Hc & Hback).
  pose proof (NewResponseFromCompressed_Compress_coerced reference_lossless
                latin1_url) as Hco.
  rewrite Compress_compressed in Hc.
  assert (data = @compressed reference.codec latin1_url) as Hdata by congruence.
  subst data. rewrite Hco in Hback.
  - apply (f_equal (fun x : error + Response =>
                      match x with inr r => Url r | inl _ => EmptyString end))
      in Hback.
    vm_compute in Hback. discriminate Hback.
  - split; split; vm_compute; discriminate.
  - apply map_Forall_empty.
Qed.

Section batch_get.
Context {rt : GoRuntime} {codec : Codec}.
Hypothesis range_perm :
  forall (A : Type) (m : gmap string A), range m ≡ₚ map_to_list m.
Hypothesis sched_perm : forall (A : Type) (l : list A), sched l ≡ₚ l.
Hypothesis codec_lossless : lossless codec.

(** The two orders in which two rounds can be visited. *)
Lemma range_two_rounds {V} (a b : V) :
  range (rounds_of [a; b]) = [("round_1"%string, a); ("round_2"%string, b)] \/
  range (rounds_of [a; b]) = [("round_2"%string, b); ("round_1"%string, a)].
Proof.
  assert (range (rounds_of [a; b]) ≡ₚ
          [("round_1"%string, a); ("round_2"%string, b)]) as Hperm.
  { rewrite range_perm. unfold rounds_of.
    change (imap _ [a; b]) with [("round_1"%string, a); ("round_2"%string, b)].
    apply map_to_list_to_map. simpl. apply NoDup_cons. split.
    - rewrite list_elem_of_singleton. discriminate.
    - apply NoDup_singleton. }
  destruct (range (rounds_of [a; b])) as [|x [|y [|z l]]];
    try (apply Permutation_length in Hperm; done).
  apply Permutation_length_2 in Hperm as [[-> ->]|[-> ->]]; auto.
Qed.

Lemma sched_one {A} (x : A) : sched [x] = [x].
Proof. apply Permutation_singleton_r, sched_perm. Qed.

(** The keys of the answers, at packs whose one URL has two rounds.  The
    plain pack answers with two rounds under [round_0] and [round_1], not
    [round_1] and [round_2]; the compressed pack answers with one round,
    under [round_2], instead of two. *)
Lemma BatchGetResponse_two_rounds :
  ((ResponsePack.BatchGetResponse
      (AddResponses ResponsePack.NewResponsePack [Some ok_200; Some created_201])
      ["https://example.com/api1"%string]).2 = [] /\
   let output :=
     (ResponsePack.BatchGetResponse
        (AddResponses ResponsePack.NewResponsePack [Some ok_200; Some created_201])
        ["https://example.com/api1"%string]).1 in
   size <$> output !! "https://example.com/api1"%string = Some 2%nat /\
   is_Some (lookup2 output "https://example.com/api1" "round_0") /\
   is_Some (lookup2 output "https://example.com/api1" "round_1") /\
   lookup2 output "https://example.com/api1" "round_2" = None) /\
  (exists output,
     CompressResponsePack.BatchGetResponse
       (CompressAddResponses CompressResponsePack.NewCompressResponsePack
          [Some ok_200; Some created_201])
       ["https://example.com/api1"%string] = inr output /\
     size <$> output !! "https://example.com/api1"%string = Some 1%nat /\
     lookup2 output "https://example.com/api1" "round_1" = None /\
     is_Some (lookup2 output "https://example.com/api1" "round_2")).
Proof.
  assert (with_url "https://example.com/api1" (added [Some ok_200; Some created_201])
          = [ok_200; created_201]) as Hwith by (by vm_compute).
  assert (Z.of_nat (length (added [Some ok_200; Some created_201])) <= MaxInt) as Hlen
    by (vm_compute; discriminate).
  split.
  - pose proof (AddResponses_entry range_perm _ "https://example.com/api1" Hlen)
      as Hstored.
    rewrite Hwith in Hstored. cbn [entry_of] in Hstored.
    unfold ResponsePack.BatchGetResponse. rewrite sched_one.
    cbn [fmap list_fmap]. unfold ResponsePack.GetResponse. rewrite Hstored.
    destruct (range_two_rounds ok_200 created_201) as [-> | ->];
      (split; [by vm_compute|]); cbv zeta;
      (split; [by vm_compute|]);
      (split; [vm_compute; by eexists|]);
      (split; [vm_compute; by eexists|by vm_compute]).
  - pose proof (CompressAddResponses_entry range_perm _ "https://example.com/api1" Hlen)
      as Hstored.
    rewrite Hwith in Hstored. cbn [entry_of fmap list_fmap] in Hstored.
    assert (NewResponseFromCompressed (compressed ok_200) = inr ok_200) as Hok.
    { apply (NewResponseFromCompressed_Compress codec_lossless); [| |done].
      - split; split; vm_compute; discriminate.
      - split; [by vm_compute|]. split; [by vm_compute|]. split; [by vm_compute|].
        apply map_Forall_empty. }
    assert (NewResponseFromCompressed (compressed created_201) = inr created_201)
      as Hcreated.
    { apply (NewResponseFromCompressed_Compress codec_lossless); [| |done].
      - split; split; vm_compute; discriminate.
      - split; [by vm_compute|]. split; [by vm_compute|]. split; [by vm_compute|].
        apply map_Forall_empty. }
    unfold CompressResponsePack.BatchGetResponse. rewrite sched_one.
    cbn [fmap list_fmap]. unfold CompressResponsePack.GetResponse.
    rewrite Hstored.
    destruct (range_two_rounds (compressed ok_200) (compressed created_201))
      as [-> | ->]; cbn [foldl snd]; rewrite ?Hok, ?Hcreated; cbn [app omap];
      (eexists; split; [reflexivity|]);
      (split; [by vm_compute|]);
      (split; [by vm_compute|vm_compute; by eexists]).
Qed.

End batch_get.

Section batch_get_present.
Context {rt : GoRuntime} {codec : Codec}.
Hypothesis range_perm :
  forall (A : Type) (m : gmap string A), range m ≡ₚ map_to_list m.
Hypothesis sched_perm : forall (A : Type) (l : list A), sched l ≡ₚ l.
Hypothesis codec_lossless : lossless codec.



(** Why the strings have to be valid UTF-8 for the compressed pack: the
    mapping is keyed by the URL of the record that was decompressed.  For the
    record whose URL holds the byte E9, stored and requested under that URL,
    the mapping has no entry for the requested URL; the entry is under the
    URL as JSON wrote it. *)
Lemma CompressBatchGetResponse_latin1_url :
  exists output,
    CompressResponsePack.BatchGetResponse
      (CompressAddResponses CompressResponsePack.NewCompressResponsePack
         [Some latin1_url])
      [Url latin1_url] = inr output /\
    output !! Url latin1_url = None /\
    is_Some (output !! json.coerce (Url latin1_url)).
Proof.
  assert (CompressResponsePack.CompressedResponses
            (CompressAddResponses CompressResponsePack.NewCompressResponsePack
               [Some latin1_url]) =
          {[ Url latin1_url := {[ "round_1"%string := compressed latin1_url ]} ]})
    as Hstore.
  { change (CompressAddResponses CompressResponsePack.NewCompressResponsePack
              [Some latin1_url])
      with (CompressResponsePack.AddResponse
              CompressResponsePack.NewCompressResponsePack (Some latin1_url)).1.
    rewrite CompressAddResponse_commit.
    change (CompressResponsePack.CompressedResponses
              CompressResponsePack.NewCompressResponsePack)
      with (∅ : gmap string (gmap string (list byte))).
    unfold commit. by rewrite lookup_empty, insert_empty. }
  assert (range ({[ "round_1"%string := compressed latin1_url ]}
                   : gmap string (list byte)) =
          [("round_1"%string, compressed latin1_url)]) as Hrange.
  { apply Permutation_singleton_r. by rewrite range_perm, map_to_list_singleton. }
  assert (NewResponseFromCompressed (compressed latin1_url) =
          inr (mkResponse (json.coerce (Method latin1_url)) (StatusCode latin1_url)
                          (json.coerce (Url latin1_url)) (json.coerce (Host latin1_url))
                          (Headers latin1_url) (Body latin1_url)
                          (BodyLength latin1_url) (RawResponse latin1_url))) as Hback.
  { apply (NewResponseFromCompressed_Compress_coerced codec_lossless).
    - split; split; vm_compute; discriminate.
    - apply map_Forall_empty. }
  unfold CompressResponsePack.BatchGetResponse.
  rewrite (sched_one sched_perm). rewrite list_fmap_singleton.
  unfold CompressResponsePack.GetResponse at 1 2.
  rewrite Hstore, lookup_singleton_eq, Hrange. cbn [foldl snd]. rewrite Hback.
  cbn [app omap list_omap foldl imap].
  rewrite CompressBatchGetResponse_turn. cbn [fst snd Url].
  eexists. split; [done|]. split.
  - apply lookup_insert_None. split; [done|]. by vm_compute.
  - rewrite lookup_insert_eq. by eexists.
Qed.

End batch_get_present.

Lemma ok_200_round_trips : round_trips ok_200.
Proof.
  split.
  - split; split; vm_compute; discriminate.
  - split; [by vm_compute|]. split; [by vm_compute|]. split; [by vm_compute|].
    apply map_Forall_empty.
Qed.



(** * Further properties of the package *)

(** ** [ResponsePack]: keys and lookups *)

Section pack_keys.
Context {rt : GoRuntime}.
Hypothesis range_perm :
  forall (A : Type) (m : gmap string A), range m ≡ₚ map_to_list m.
Import ResponsePack.

(** X1.  [GetKeysOfResponses] returns every URL of the pack once, whatever
    the number of rounds stored under it: the slice has no duplicates, a URL
    is in it exactly when the pack has an entry for it, and its length is
    [Len].  After a sequence of [AddResponse] calls on a new pack the keys
    are the URLs of the records that were added. *)
Theorem GetKeysOfResponses_each_url_once (p : t) :
  NoDup (GetKeysOfResponses p) /\
  (forall url, url ∈ GetKeysOfResponses p <-> is_Some (Responses p !! url)) /\
  Z.of_nat (length (GetKeysOfResponses p)) = Len (Some p) /\
  (forall rs url,
     Z.of_nat (length (added rs)) <= MaxInt ->
     url ∈ GetKeysOfResponses (AddResponses NewResponsePack rs) <->
     url ∈ Url <$> added rs).
Proof.
  assert (forall q, GetKeysOfResponses q ≡ₚ (map_to_list (Responses q)).*1) as Hkeys.
  { intros q. unfold GetKeysOfResponses. by rewrite range_perm. }
  assert (forall q url,
            url ∈ GetKeysOfResponses q <-> is_Some (Responses q !! url)) as Hin.
  { intros q url. rewrite Hkeys, list_elem_of_fmap. split.
    - intros ([k v] & -> & Hkv). apply elem_of_map_to_list in Hkv. by exists v.
    - intros [v Hv]. exists (url, v). split; [done|]. by apply elem_of_map_to_list. }
  split; [|split; [|split]].
  - rewrite Hkeys. apply NoDup_fst_map_to_list.
  - apply Hin.
  - rewrite Hkeys. unfold Len. by rewrite length_fmap, length_map_to_list.
  - intros rs url Hlen. rewrite Hin, (AddResponses_entry range_perm) by done.
    rewrite entry_of_is_Some, list_elem_of_fmap. split.
    + intros Hne. destruct (with_url url (added rs)) as [|r l] eqn:Hw; [done|].
      exists r. assert (r ∈ with_url url (added rs)) as Hr by (rewrite Hw; left).
      unfold with_url in Hr. apply list_elem_of_filter in Hr as [Hu Hr]. done.
    + intros (r & -> & Hr) Hnil.
      assert (r ∈ with_url (Url r) (added rs)) as Hw
        by (unfold with_url; by apply list_elem_of_filter).
      rewrite Hnil in Hw. by apply not_elem_of_nil in Hw.
Qed.

(** X2.  [GetResponse] after a sequence of [AddResponse] calls on a new
    pack: for a URL under which no record was added it returns the error
    "response not found for URL" and no slice; for any other URL it returns
    the records added with that URL, each one once, in an order that is the
    order of the map iteration and not that of the rounds. *)
Theorem GetResponse_returns_the_added_records (rs : list (option Response)) (url : string) :
  Z.of_nat (length (added rs)) <= MaxInt ->
  (with_url url (added rs) = [] ->
   GetResponse (AddResponses NewResponsePack rs) url = inl (ErrNotFound url)) /\
  (with_url url (added rs) <> [] ->
   exists result,
     GetResponse (AddResponses NewResponsePack rs) url = inr result /\
     result ≡ₚ with_url url (added rs)).
Proof.
  intros Hlen. pose proof (GetResponse_added range_perm rs url Hlen) as Hget.
  destruct (with_url url (added rs)) as [|r l]; by split.
Qed.

End pack_keys.

Lemma GetKeysOfResponses_each_url_once_witness :
  NoDup (@ResponsePack.GetKeysOfResponses (in_order_runtime 2)
           (@AddResponses (in_order_runtime 2) ResponsePack.NewResponsePack
              [Some ok_200; Some created_201; Some not_found_404])).
Proof.
  apply (@GetKeysOfResponses_each_url_once (in_order_runtime 2) (in_order_range 2)).
Defined.

Lemma GetResponse_returns_the_added_records_witness :
  exists result,
    @ResponsePack.GetResponse (in_order_runtime 2)
      (@AddResponses (in_order_runtime 2) ResponsePack.NewResponsePack
         [Some ok_200; Some not_found_404; Some created_201])
      "https://example.com/api1" = inr result /\
    result ≡ₚ [ok_200; created_201].
Proof.
  apply (@GetResponse_returns_the_added_records (in_order_runtime 2) (in_order_range 2)
           [Some ok_200; Some not_found_404; Some created_201]
           "https://example.com/api1").
  - vm_compute. discriminate.
  - discriminate.
Defined.

(** ** [ResponsePack]: the batch operations *)

Section pack_batch.
Context {rt : GoRuntime}.
Hypothesis range_perm :
  forall (A : Type) (m : gmap string A), range m ≡ₚ map_to_list m.
Hypothesis sched_perm : forall (A : Type) (l : list A), sched l ≡ₚ l.
Import ResponsePack.

Lemma BatchGetResponse_errors_loop p (l : list string) :
  omap (fun d : error + list Response =>
          match d with inl e => Some e | inr _ => None end)
       (GetResponse p <$> l) =
  ErrNotFound <$> filter (fun url => Responses p !! url = None) l.
Proof.
  induction l as [|url l IH]; [done|].
  rewrite fmap_cons, filter_cons. unfold GetResponse at 1.
  destruct (Responses p !! url) as [rounds|] eqn:Hurl.
  - rewrite decide_False by done. cbn [omap list_omap]. apply IH.
  - rewrite decide_True by done. rewrite fmap_cons. cbn [omap list_omap].
    f_equal. apply IH.
Qed.

(** X3.  [BatchGetResponse] of the plain pack returns one error "response
    not found for URL" for every requested URL that is not in the pack, as
    many times as the URL is requested, and no other error; a miss does not
    stop the other lookups.  After a sequence of [AddResponse] calls on a new
    pack, the URLs of the returned mapping are exactly the requested URLs
    under which a record was added. *)
Theorem BatchGetResponse_one_error_per_missing_url (p : t) (urls : list string) :
  (BatchGetResponse p urls).2 ≡ₚ
    ErrNotFound <$> filter (fun url => Responses p !! url = None) urls /\
  (forall rs url,
     Z.of_nat (length (added rs)) <= MaxInt ->
     is_Some ((BatchGetResponse (AddResponses NewResponsePack rs) urls).1 !! url) <->
     url ∈ urls /\ with_url url (added rs) <> []).
Proof.
  split.
  - unfold BatchGetResponse. cbn [snd]. rewrite BatchGetResponse_errors_loop.
    by rewrite sched_perm.
  - intros rs url Hlen. split.
    + intros [m Hm]. rewrite BatchGetResponse_turns in Hm.
      apply turns_lookup in Hm as [Hm|(r0 & rest & Hin & Hu & _)]; [done|].
      apply list_elem_of_omap in Hin as (d & Hd & Hres).
      apply list_elem_of_fmap in Hd as (url' & -> & Hurl').
      rewrite sched_perm in Hurl'.
      pose proof (GetResponse_added range_perm rs url' Hlen) as Hget.
      destruct (with_url url' (added rs)) as [|w ws] eqn:Hw.
      { by rewrite Hget in Hres. }
      destruct Hget as (result & Hget & Hperm). rewrite Hget in Hres.
      destruct result as [|r1 rest1]; [done|]. simplify_eq.
      assert (r0 ∈ with_url url' (added rs)) as Hr0.
      { rewrite Hw, <- Hperm. left. }
      apply with_url_Url in Hr0. subst url'. by rewrite Hw.
    + intros [Hin Hne].
      destruct (BatchGetResponse_stored range_perm sched_perm rs urls url Hlen Hin Hne)
        as (rounds & Hrounds & _).
      by exists rounds.
Qed.

(** X4.  [BatchAddResponse] of the plain pack adds the first
    [min(NumCPU, K)] responses of a batch of [K], in the order in which the
    goroutines get the lock, and returns one error "response is nil" for
    every [nil] among them.  When the batch is not longer than the number of
    CPUs, every record of the batch is added: on a new pack [Total] is then
    [K - J] and [J] errors are returned, [J] being the number of [nil]
    pointers. *)
Theorem BatchAddResponse_adds_the_first_NumCPU (p : t) (responses : list (option Response)) :
  (exists order,
     order ≡ₚ take (Nat.min NumCPU (length responses)) responses /\
     BatchAddResponse p responses =
       (AddResponses p order,
        replicate (nils (take (Nat.min NumCPU (length responses)) responses))
                  ErrResponseNil)) /\
  ((length responses <= NumCPU)%nat ->
   Z.of_nat (length responses) <= MaxUint64 ->
   Total (BatchAddResponse NewResponsePack responses).1 =
     Z.of_nat (length responses) - Z.of_nat (nils responses) /\
   (BatchAddResponse NewResponsePack responses).2 =
     replicate (nils responses) ErrResponseNil).
Proof.
  split.
  - exists (sched (take (Nat.min NumCPU (length responses)) responses)).
    split; [apply sched_perm|].
    unfold BatchAddResponse. rewrite BatchAddResponse_loop. cbn [app].
    by rewrite (nils_sched sched_perm).
  - intros Hcpu Hlen.
    destruct (BatchAddResponse_started sched_perm responses Hlen) as [HT _].
    cbv zeta in HT. unfold BatchAddResponse in *.
    rewrite BatchAddResponse_loop in *. cbn [fst snd app] in *.
    rewrite (nils_sched sched_perm).
    rewrite Nat.min_r, firstn_all in * by done.
    split; [|done]. rewrite HT. pose proof (length_added_nils responses). lia.
Qed.

End pack_batch.

Lemma BatchGetResponse_one_error_per_missing_url_witness :
  (@ResponsePack.BatchGetResponse (in_order_runtime 2)
     (@AddResponses (in_order_runtime 2) ResponsePack.NewResponsePack [Some ok_200])
     ["https://nonexistent.com"; "https://example.com/api1";
      "https://nonexistent.com"]%string).2 ≡ₚ
  [ErrNotFound "https://nonexistent.com"; ErrNotFound "https://nonexistent.com"].
Proof.
  apply (@BatchGetResponse_one_error_per_missing_url (in_order_runtime 2)
           (in_order_range 2) (in_order_sched 2)
           (@AddResponses (in_order_runtime 2) ResponsePack.NewResponsePack [Some ok_200])
           ["https://nonexistent.com"; "https://example.com/api1";
            "https://nonexistent.com"]%string).
Defined.

Lemma BatchAddResponse_adds_the_first_NumCPU_witness :
  ResponsePack.Total
    (@ResponsePack.BatchAddResponse (in_order_runtime 4) ResponsePack.NewResponsePack
       [Some ok_200; None; Some not_found_404]).1 = 3 - 1 /\
  (@ResponsePack.BatchAddResponse (in_order_runtime 4) ResponsePack.NewResponsePack
     [Some ok_200; None; Some not_found_404]).2 = [ErrResponseNil].
Proof.
  apply (@BatchAddResponse_adds_the_first_NumCPU (in_order_runtime 4) (in_order_sched 4)
           ResponsePack.NewResponsePack [Some ok_200; None; Some not_found_404]).
  - simpl. lia.
  - vm_compute. discriminate.
Defined.

(** ** [CompressResponsePack]: adding a batch *)

Section compress_batch_add.
Context {rt : GoRuntime} {codec : Codec}.
Hypothesis range_perm :
  forall (A : Type) (m : gmap string A), range m ≡ₚ map_to_list m.
Hypothesis sched_perm : forall (A : Type) (l : list A), sched l ≡ₚ l.
Hypothesis NumCPU_pos : (0 < NumCPU)%nat.
Import CompressResponsePack.

(** X5.  [BatchAddResponse] of the compressed pack adds every record of the
    batch, whatever the number of CPUs (at least one): the batch is the
    sequence of the [AddResponse] calls for all the responses in the order in
    which the workers get the lock, and one error "response is nil" is
    returned for every [nil].  On a new pack [GetResponseCount] is then
    [K - J], and the number of rounds stored under a URL is the number of
    records of the batch with that URL. *)
Theorem CompressBatchAddResponse_adds_every_record
    (r : t) (responses : list (option Response)) :
  (exists order,
     order ≡ₚ responses /\
     BatchAddResponse r responses =
       (CompressAddResponses r order, replicate (nils responses) ErrResponseNil)) /\
  (Z.of_nat (length responses) <= MaxInt ->
   GetResponseCount (BatchAddResponse NewCompressResponsePack responses).1 =
     Z.of_nat (length responses) - Z.of_nat (nils responses) /\
   forall url,
     default 0%nat
       (size <$> CompressedResponses
                   (BatchAddResponse NewCompressResponsePack responses).1 !! url) =
     length (with_url url (added responses))).
Proof.
  assert (forall r0, BatchAddResponse r0 responses =
            (CompressAddResponses r0 (sched responses),
             replicate (nils responses) ErrResponseNil)) as Hbatch.
  { intros r0. unfold BatchAddResponse.
    destruct NumCPU as [|n] eqn:Hn; [lia|].
    destruct responses as [|x responses].
    - cbn [Nat.min length].
      assert (sched (@nil (option Response)) = []) as ->
        by (apply Permutation_nil_r, sched_perm).
      done.
    - cbn [Nat.min length]. rewrite CompressBatchAddResponse_loop. cbn [app].
      by rewrite (nils_sched sched_perm). }
  split.
  - exists (sched responses). split; [apply sched_perm|apply Hbatch].
  - intros Hlen. split.
    + by apply (CompressBatchAddResponse_all range_perm sched_perm NumCPU_pos).
    + intros url. rewrite Hbatch. cbn [fst].
      assert (length (added (sched responses)) = length (added responses)) as Hadded
        by apply (added_sched sched_perm).
      pose proof (length_added_nils responses).
      rewrite (CompressAddResponses_entry range_perm) by lia.
      assert (with_url url (added (sched responses)) ≡ₚ with_url url (added responses))
        as Hperm by (unfold with_url, added; by rewrite sched_perm).
      rewrite <- (Permutation_length Hperm).
      destruct (with_url url (added (sched responses))) as [|x l]; [done|].
      change (entry_of (compressed <$> x :: l))
        with (Some (rounds_of (compressed <$> x :: l))).
      cbn [fmap option_fmap option_map default].
      by rewrite rounds_of_size, length_fmap.
Qed.

End compress_batch_add.

Lemma CompressBatchAddResponse_adds_every_record_witness :
  @CompressResponsePack.GetResponseCount (in_order_runtime 2)
    (@CompressResponsePack.BatchAddResponse (in_order_runtime 2) reference.codec
       CompressResponsePack.NewCompressResponsePack
       [Some ok_200; Some created_201; None; Some not_found_404]).1 = 4 - 1.
Proof.
  apply (@CompressBatchAddResponse_adds_every_record (in_order_runtime 2)
           reference.codec (in_order_range 2) (in_order_sched 2)
           ltac:(simpl; lia) CompressResponsePack.NewCompressResponsePack).
  vm_compute. discriminate.
Defined.

(** ** [ResponsePack]: the ratios *)

Section pack_ratios.
Context {rt : GoRuntime}.
Import ResponsePack.

Lemma ratios_idemp p : ratios (ratios p) = ratios p.
Proof.
  unfold ratios. destruct (Total p =? 0) eqn:HT; [by rewrite HT|].
  cbn [Total Success Failure SuccessRatio FailureRatio Responses Info].
  rewrite HT. by destruct (Success p =? 0), (Failure p =? 0).
Qed.

Lemma ratios_with_Responses p rs :
  ratios (with_Responses p rs) = with_Responses (ratios p) rs.
Proof.
  unfold ratios, with_Responses.
  cbn [Total Success Failure SuccessRatio FailureRatio Responses Info].
  by destruct (Total p =? 0).
Qed.

(** X6.  [Calculate] changes nothing but the two ratios, does nothing on a
    pack whose [Total] is 0 (no division by zero), and changes nothing when
    it is called again or after an [AddResponse] that added a record:
    [AddResponse] leaves the ratios as [Calculate] computes them. *)
Theorem Calculate_after_AddResponse (p : t) (response : Response) :
  Calculate (AddResponse p (Some response)).1 = (AddResponse p (Some response)).1 /\
  Calculate (Calculate p) = Calculate p /\
  (Total p = 0 -> Calculate p = p) /\
  Responses (Calculate p) = Responses p /\
  Total (Calculate p) = Total p /\
  Success (Calculate p) = Success p /\
  Failure (Calculate p) = Failure p /\
  Info (Calculate p) = Info p.
Proof.
  unfold Calculate. split; [|split; [|split]].
  - unfold AddResponse. cbv zeta.
    destruct (Responses (ratios _) !! Url response); cbn [fst];
      by rewrite ratios_with_Responses, ratios_idemp.
  - apply ratios_idemp.
  - intros HT. unfold ratios. by rewrite HT.
  - unfold ratios. by destruct (Total p =? 0).
Qed.

(** X7.  After any sequence of [AddResponse] calls on a new pack the two
    ratios are those of the current counters: [SuccessRatio] is 0 when
    [Success] is 0 and the quotient [Success / Total] otherwise, and the same
    for [FailureRatio] and [Failure]; a ratio is never left over from an
    earlier state of the counters, and nothing is divided by 0.  (The
    quotient is the exact one; the source rounds it to a [float64].) *)
Theorem AddResponse_keeps_the_ratios_current (rs : list (option Response)) :
  Z.of_nat (length (added rs)) <= MaxUint64 ->
  SuccessRatio (AddResponses NewResponsePack rs) =
    (if Success (AddResponses NewResponsePack rs) =? 0 then 0%Q
     else Qdiv (inject_Z (Success (AddResponses NewResponsePack rs)))
               (inject_Z (Total (AddResponses NewResponsePack rs)))) /\
  FailureRatio (AddResponses NewResponsePack rs) =
    (if Failure (AddResponses NewResponsePack rs) =? 0 then 0%Q
     else Qdiv (inject_Z (Failure (AddResponses NewResponsePack rs)))
               (inject_Z (Total (AddResponses NewResponsePack rs)))).
Proof.
  induction rs as [|r rs IH] using rev_ind; [done|].
  rewrite added_snoc, length_app. intros Hlen.
  rewrite AddResponses_snoc. destruct r as [r|].
  2:{ rewrite AddResponse_nil. apply IH. simpl in Hlen. lia. }
  change (option_list (Some r)) with [r] in *. cbn [length] in *.
  destruct IH as [IHS IHF]; [lia|].
  destruct (AddResponses_counters rs) as (HT & HS & HF); [lia|].
  cbv zeta in *.
  set (p := AddResponses NewResponsePack rs) in *.
  pose proof (length_filter_split is_success (added rs)) as Hsplit.
  set (s := length (filter is_success (added rs))) in *.
  set (f := length (filter (fun r => ~ is_success r) (added rs))) in *.
  unfold AddResponse. cbv zeta.
  assert (Total (count p (codes.IsSuccess (StatusCode r))) =
          Z.of_nat (length (added rs)) + 1) as HT'.
  { cbn [count Total]. rewrite HT. apply uint64_add_small. unfold MaxUint64 in *. lia. }
  assert (forall q rs', SuccessRatio (with_Responses q rs') = SuccessRatio q /\
                        FailureRatio (with_Responses q rs') = FailureRatio q /\
                        Success (with_Responses q rs') = Success q /\
                        Failure (with_Responses q rs') = Failure q /\
                        Total (with_Responses q rs') = Total q) as Hw by done.
  assert (forall q, Total q <> 0 ->
            SuccessRatio (ratios q) =
              (if Success q =? 0 then SuccessRatio q
               else Qdiv (inject_Z (Success q)) (inject_Z (Total q))) /\
            FailureRatio (ratios q) =
              (if Failure q =? 0 then FailureRatio q
               else Qdiv (inject_Z (Failure q)) (inject_Z (Total q))) /\
            Success (ratios q) = Success q /\ Failure (ratios q) = Failure q /\
            Total (ratios q) = Total q) as Hr.
  { intros q Hq. unfold ratios. apply Z.eqb_neq in Hq. by rewrite Hq. }
  destruct (Hr (count p (codes.IsSuccess (StatusCode r)))) as (HrS & HrF & HrS' & HrF' & HrT);
    [lia|].
  assert (Success (count p (codes.IsSuccess (StatusCode r))) =
            (if codes.IsSuccess (StatusCode r) then Z.of_nat s + 1 else Z.of_nat s) /\
          Failure (count p (codes.IsSuccess (StatusCode r))) =
            (if codes.IsSuccess (StatusCode r) then Z.of_nat f else Z.of_nat f + 1))
    as [HcS HcF].
  { cbn [count Success Failure]. rewrite HS, HF.
    destruct (codes.IsSuccess (StatusCode r));
      (split; [try done|try done]); apply uint64_add_small; unfold MaxUint64 in *; lia. }
  assert (SuccessRatio (count p (codes.IsSuccess (StatusCode r))) = SuccessRatio p /\
          FailureRatio (count p (codes.IsSuccess (StatusCode r))) = FailureRatio p)
    as [HcSR HcFR] by done.
  destruct (Responses (ratios _) !! Url r); cbn [fst];
    repeat match goal with
           | |- context [SuccessRatio (with_Responses ?q ?x)] =>
             change (SuccessRatio (with_Responses q x)) with (SuccessRatio q)
           | |- context [FailureRatio (with_Responses ?q ?x)] =>
             change (FailureRatio (with_Responses q x)) with (FailureRatio q)
           | |- context [Success (with_Responses ?q ?x)] =>
             change (Success (with_Responses q x)) with (Success q)
           | |- context [Failure (with_Responses ?q ?x)] =>
             change (Failure (with_Responses q x)) with (Failure q)
           | |- context [Total (with_Responses ?q ?x)] =>
             change (Total (with_Responses q x)) with (Total q)
           end;
    rewrite HrS, HrF, HrS', HrF', HrT, HcSR, HcFR, IHS, IHF, HS, HF;
    rewrite HcS, HcF;
    destruct (codes.IsSuccess (StatusCode r));
    (split;
     [destruct (Z.of_nat s =? 0) eqn:E1; destruct (Z.of_nat s + 1 =? 0) eqn:E2;
      try done; lia
     |destruct (Z.of_nat f =? 0) eqn:E1; destruct (Z.of_nat f + 1 =? 0) eqn:E2;
      try done; lia]).
Qed.

End pack_ratios.

Lemma AddResponse_keeps_the_ratios_current_witness :
  ResponsePack.SuccessRatio
    (@AddResponses (in_order_runtime 2) ResponsePack.NewResponsePack
       [Some not_found_404; None; Some server_error_500]) = 0%Q /\
  ResponsePack.FailureRatio
    (@AddResponses (in_order_runtime 2) ResponsePack.NewResponsePack
       [Some not_found_404; None; Some server_error_500]) =
    Qdiv (inject_Z 2) (inject_Z 2).
Proof.
  apply (@AddResponse_keeps_the_ratios_current (in_order_runtime 2)
           [Some not_found_404; None; Some server_error_500]).
  vm_compute. discriminate.
Defined.

(** ** [ResponsePack]: what the error report holds *)

Section report_entries.
Context {rt : GoRuntime}.
Hypothesis range_perm :
  forall (A : Type) (m : gmap string A), range m ≡ₚ map_to_list m.
Import ResponsePack.

(** X8.  [GetErrorReport] returns the error "response pack is nil" for a
    [nil] pack.  For a pack that is not empty, the report never holds a
    successful response: every record in it is a record of the pack that is
    not a success, under the URL and the round key it has in the pack, and a
    URL is in the report exactly when one of its rounds is not a success. *)
Theorem GetErrorReport_holds_only_stored_failures (p : t) :
  GetErrorReport None = inl ErrPackNil /\
  (Responses p <> ∅ ->
   exists output,
     GetErrorReport (Some p) = inr output /\
     (forall url, is_Some (output !! url) <->
        exists key r, lookup2 (Responses p) url key = Some r /\ ~ is_success r) /\
     (forall url key r,
        lookup2 output url key = Some r ->
        lookup2 (Responses p) url key = Some r /\ ~ is_success r)).
Proof.
  split; [done|]. intros Hne.
  destruct (GetErrorReport_entries range_perm p Hne) as (output & Hrep & Hout).
  exists output. split; [done|]. split.
  - intros url. rewrite Hout. unfold lookup2.
    destruct (Responses p !! url) as [rounds|];
      [|split; [by intros []|by intros (key & r & ? & _)]].
    split.
    + intros [s Hs]. apply (reported_Some range_perm) in Hs as (key & r & _ & Hr & Hbad).
      by exists key, r.
    + intros (key & r & Hr & Hbad).
      destruct (reported rounds) eqn:Hrp; [done|].
      destruct Hbad. by eapply (reported_None range_perm).
  - intros url key r. unfold lookup2 at 1. rewrite Hout. unfold lookup2.
    destruct (Responses p !! url) as [rounds|]; [|done].
    destruct (reported rounds) as [s|] eqn:Hs; [|done].
    apply (reported_Some range_perm) in Hs as (key' & r' & -> & Hr & Hbad).
    intros Hkey. apply lookup_singleton_Some in Hkey as [<- <-]. done.
Qed.

End report_entries.

Lemma GetErrorReport_holds_only_stored_failures_witness :
  exists output,
    @ResponsePack.GetErrorReport (in_order_runtime 2)
      (Some (@AddResponses (in_order_runtime 2) ResponsePack.NewResponsePack
               [Some ok_200; Some not_found_404])) = inr output /\
    (forall url, is_Some (output !! url) <->
       exists key r,
         lookup2 (ResponsePack.Responses
                    (@AddResponses (in_order_runtime 2) ResponsePack.NewResponsePack
                       [Some ok_200; Some not_found_404])) url key = Some r /\
         ~ is_success r) /\
    (forall url key r,
       lookup2 output url key = Some r ->
       lookup2 (ResponsePack.Responses
                  (@AddResponses (in_order_runtime 2) ResponsePack.NewResponsePack
                     [Some ok_200; Some not_found_404])) url key = Some r /\
       ~ is_success r).
Proof.
  apply (@GetErrorReport_holds_only_stored_failures (in_order_runtime 2)
           (in_order_range 2)
           (@AddResponses (in_order_runtime 2) ResponsePack.NewResponsePack
              [Some ok_200; Some not_found_404])).
  intros Hempty.
  apply (f_equal (fun m : gmap string (gmap string Response) => size m)) in Hempty.
  vm_compute in Hempty. discriminate Hempty.
Defined.

(** ** [CompressResponsePack]: information, deletion, clearing *)

Section compress_info.
Context {rt : GoRuntime} {codec : Codec}.
Hypothesis range_perm :
  forall (A : Type) (m : gmap string A), range m ≡ₚ map_to_list m.
Hypothesis sched_perm : forall (A : Type) (l : list A), sched l ≡ₚ l.
Import CompressResponsePack.

Lemma range_empty {A} : range (∅ : gmap string A) = [].
Proof. apply Permutation_nil_r. by rewrite range_perm, map_to_list_empty. Qed.

(** X9.  [AddInfoFromMap] merges the given map into [MetaInfo], the given
    map winning on the keys the two share, whatever the order in which the
    map is iterated; it leaves the responses as they are, and [AddInfo] is the
    same as [AddInfoFromMap] with a map of one entry. *)
Theorem AddInfoFromMap_merges (r : t) (info : gmap string string) :
  MetaInfo (AddInfoFromMap r info) = info ∪ MetaInfo r /\
  CompressedResponses (AddInfoFromMap r info) = CompressedResponses r /\
  (forall key value, AddInfo r key value = AddInfoFromMap r {[ key := value ]}) /\
  (forall key,
     MetaInfo (AddInfoFromMap r info) !! key =
     match info !! key with
     | Some value => Some value
     | None => MetaInfo r !! key
     end).
Proof.
  assert (forall info', MetaInfo (AddInfoFromMap r info') = info' ∪ MetaInfo r) as Hunion.
  { intros info'. unfold AddInfoFromMap. cbn [MetaInfo].
    rewrite foldl_insert_list_to_map. f_equal.
    rewrite <- (list_to_map_to_list info') at 2.
    apply list_to_map_proper.
    - rewrite fmap_reverse, reverse_Permutation, range_perm.
      apply NoDup_fst_map_to_list.
    - by rewrite reverse_Permutation, range_perm. }
  split; [apply Hunion|]. split; [done|]. split.
  - intros key value.
    assert (forall a b : t, CompressedResponses a = CompressedResponses b ->
              MetaInfo a = MetaInfo b -> a = b) as Hext
      by (intros [] []; simpl; congruence).
    apply Hext; [done|]. rewrite Hunion. cbn [AddInfo MetaInfo].
    by rewrite insert_union_singleton_l.
  - intros key. rewrite Hunion, lookup_union.
    by destruct (info !! key), (MetaInfo r !! key).
Qed.

Lemma DeleteResponse_map (r : t) (url : string) :
  CompressedResponses (DeleteResponse r url).1 = delete url (CompressedResponses r) /\
  MetaInfo (DeleteResponse r url).1 = MetaInfo r /\
  (DeleteResponse r url).2 =
    match CompressedResponses r !! url with
    | Some _ => None
    | None => Some (ErrNotFound url)
    end.
Proof.
  unfold DeleteResponse.
  destruct (CompressedResponses r !! url) as [rounds|] eqn:Hurl.
  - cbn [fst snd CompressedResponses MetaInfo]. split; [|done].
    destruct (Z.of_nat (size (delete url (CompressedResponses r))) =? 0) eqn:Hsize;
      [|done].
    apply Z.eqb_eq in Hsize. symmetry. apply map_size_empty_iff. lia.
  - cbn [fst snd]. split; [|done]. by rewrite delete_id.
Qed.

(** X10.  [Clear] removes every response and keeps [MetaInfo]: the count is
    then 0 and every [GetResponse] returns the not-found error.  After
    [Clear], and after [DeleteResponse] of a URL, the numbering of the rounds
    of a URL starts again: the next record added under it is stored under
    [round_1]. *)
Theorem Clear_removes_every_response (r : t) (response : Response) :
  GetResponseCount (Clear r) = 0 /\
  (forall url, GetResponse (Clear r) url = inl (ErrNotFound url)) /\
  MetaInfo (Clear r) = MetaInfo r /\
  CompressedResponses (AddResponse (Clear r) (Some response)).1 =
    {[ Url response := {[ "round_1"%string := compressed response ]} ]} /\
  CompressedResponses
    (AddResponse (DeleteResponse r (Url response)).1 (Some response)).1
    !! Url response = Some {[ "round_1"%string := compressed response ]}.
Proof.
  split; [|split; [|split; [|split]]]; try done.
  - unfold GetResponseCount, Clear. cbn [CompressedResponses]. by rewrite range_empty.
  - rewrite CompressAddResponse_commit.
    destruct (DeleteResponse_map r (Url response)) as (-> & _ & _).
    unfold commit. rewrite lookup_delete_eq. by rewrite lookup_insert_eq.
Qed.

(** X11.  [DeleteResponse] of a URL of the pack lowers [GetResponseCount]
    by the number of rounds stored under the URL (the count fits an
    [int]). *)
Theorem DeleteResponse_lowers_the_count (r : t) (url : string) (rounds : gmap string (list byte)) :
  Z.of_nat (entries (CompressedResponses r)) <= MaxInt ->
  CompressedResponses r !! url = Some rounds ->
  GetResponseCount (DeleteResponse r url).1 =
    GetResponseCount r - Z.of_nat (size rounds).
Proof.
  intros Hlen Hurl.
  pose proof (entries_delete _ _ _ Hurl) as Hentries.
  destruct (DeleteResponse_map r url) as (Hmap & _ & _).
  rewrite (GetResponseCount_entries range_perm r) by done.
  rewrite (GetResponseCount_entries range_perm (DeleteResponse r url).1)
    by (rewrite Hmap; lia).
  rewrite Hmap. lia.
Qed.

Lemma BatchDeleteResponse_loop (l : list string) (r : t) (errs : list error) :
  let st := foldl (fun st url =>
                     let '(r', err) := DeleteResponse st.1 url in
                     (r', st.2 ++ option_list err)) (r, errs) l in
  CompressedResponses st.1 =
    filter (fun kv => kv.1 ∉ l) (CompressedResponses r) /\
  MetaInfo st.1 = MetaInfo r /\
  (length st.2 + size (CompressedResponses r) =
   length errs + length l + size (CompressedResponses st.1))%nat /\
  (forall e, e ∈ st.2 -> e ∈ errs \/ exists url, url ∈ l /\ e = ErrNotFound url).
Proof.
  revert r errs. induction l as [|url l IH]; intros r errs.
  - cbn [foldl fst snd]. split; [|split; [done|split; [cbn [length]; lia|by left]]].
    symmetry. apply map_filter_id. intros k v _. apply not_elem_of_nil.
  - cbn [foldl fst snd].
    destruct (DeleteResponse_map r url) as (Hmap & Hinfo & Herr).
    destruct (DeleteResponse r url) as [r' err]. cbn [fst snd] in *.
    destruct (IH r' (errs ++ option_list err)) as (IHm & IHi & IHn & IHe). clear IH.
    cbv zeta in *.
    set (st := foldl _ (r', errs ++ option_list err) l) in *.
    assert (length (option_list err) + size (CompressedResponses r) =
            1 + size (delete url (CompressedResponses r)))%nat as Hstep.
    { rewrite map_size_delete.
      destruct (CompressedResponses r !! url) as [rounds|] eqn:Hurl; subst err;
        simpl; [|done].
      pose proof (map_size_ne_0_lookup_2 (CompressedResponses r) url
                    (ex_intro _ rounds Hurl)).
      lia. }
    split; [|split; [|split]].
    + rewrite IHm, Hmap. apply map_eq. intros k.
      apply option_eq. intros v.
      rewrite !map_lookup_filter_Some. cbn [fst].
      rewrite lookup_delete_Some, not_elem_of_cons. intuition congruence.
    + by rewrite IHi.
    + rewrite length_app, Hmap in IHn. cbn [length]. lia.
    + intros e He. destruct (IHe e He) as [Hin|(url' & Hin & ->)].
      * apply elem_of_app in Hin as [Hin|Hin]; [by left|].
        right. exists url. split; [left|].
        destruct (CompressedResponses r !! url); subst err;
          cbn [option_list] in Hin.
        -- by apply not_elem_of_nil in Hin.
        -- by apply list_elem_of_singleton in Hin.
      * right. exists url'. split; [by right|done].
Qed.

Lemma BatchDeleteResponse_filter (r : t) (urls : list string) :
  CompressedResponses (BatchDeleteResponse r urls).1 =
    filter (fun kv => kv.1 ∉ urls) (CompressedResponses r).
Proof.
  unfold BatchDeleteResponse.
  destruct (BatchDeleteResponse_loop (sched urls) r []) as (Hm & _).
  cbv zeta in *. rewrite Hm.
  apply map_filter_ext. intros k v _. cbn [fst]. by rewrite sched_perm.
Qed.

(** X12.  [BatchDeleteResponse] removes every requested URL, with all its
    rounds, and nothing else, whatever the order in which the goroutines
    run; [MetaInfo] is kept.  Every error is the not-found error of a
    requested URL, and there is one for every request that found nothing to
    delete: the number of errors plus the number of URLs removed is the
    number of requests. *)
Theorem BatchDeleteResponse_removes_the_requested_urls (r : t) (urls : list string) :
  CompressedResponses (BatchDeleteResponse r urls).1 =
    filter (fun kv => kv.1 ∉ urls) (CompressedResponses r) /\
  MetaInfo (BatchDeleteResponse r urls).1 = MetaInfo r /\
  (length (BatchDeleteResponse r urls).2 + size (CompressedResponses r) =
   length urls + size (CompressedResponses (BatchDeleteResponse r urls).1))%nat /\
  (forall e, e ∈ (BatchDeleteResponse r urls).2 ->
     exists url, url ∈ urls /\ e = ErrNotFound url).
Proof.
  split; [apply BatchDeleteResponse_filter|].
  unfold BatchDeleteResponse.
  destruct (BatchDeleteResponse_loop (sched urls) r []) as (Hm & Hi & Hn & He).
  cbv zeta in *. split; [done|split].
  - rewrite (Permutation_length (sched_perm _ urls)) in Hn. cbn [length] in Hn. lia.
  - intros e Hin. destruct (He e Hin) as [Hnil|(url & Hurl & ->)].
    + by apply not_elem_of_nil in Hnil.
    + exists url. split; [|done]. by rewrite <- (sched_perm _ urls).
Qed.

End compress_info.

Lemma AddInfoFromMap_merges_witness :
  CompressResponsePack.MetaInfo
    (@CompressResponsePack.AddInfoFromMap (in_order_runtime 2)
       (CompressResponsePack.mk ∅ {[ "source" := "test"; "date" := "monday" ]}%string)
       {[ "source" := "production"; "owner" := "team" ]}%string) =
  ({[ "source" := "production"; "owner" := "team" ]} ∪
   {[ "source" := "test"; "date" := "monday" ]})%string.
Proof.
  apply (@AddInfoFromMap_merges (in_order_runtime 2) (in_order_range 2)).
Defined.

Lemma Clear_removes_every_response_witness :
  @CompressResponsePack.GetResponseCount (in_order_runtime 2)
    (CompressResponsePack.Clear
       (CompressResponsePack.mk
          {[ "https://example.com/api1"%string :=
               {[ "round_1"%string := [x00]; "round_2"%string := [x01] ]} ]} ∅)) = 0.
Proof.
  apply (@Clear_removes_every_response (in_order_runtime 2) reference.codec
           (in_order_range 2) _ ok_200).
Defined.

Lemma DeleteResponse_lowers_the_count_witness :
  let r := CompressResponsePack.mk
             {[ "https://example.com/api1"%string :=
                  {[ "round_1"%string := [x00]; "round_2"%string := [x01] ]};
                "https://example.com/api3"%string :=
                  {[ "round_1"%string := [x02] ]} ]} ∅ in
  @CompressResponsePack.GetResponseCount (in_order_runtime 2)
    (CompressResponsePack.DeleteResponse r "https://example.com/api1").1 =
  @CompressResponsePack.GetResponseCount (in_order_runtime 2) r -
  Z.of_nat (size ({[ "round_1"%string := [x00]; "round_2"%string := [x01] ]}
                    : gmap string (list byte))).
Proof.
  apply (@DeleteResponse_lowers_the_count (in_order_runtime 2) (in_order_range 2)).
  - vm_compute. discriminate.
  - apply lookup_insert_eq.
Defined.

Lemma BatchDeleteResponse_removes_the_requested_urls_witness :
  let r := CompressResponsePack.mk
             {[ "https://example.com/api1"%string :=
                  {[ "round_1"%string := [x00]; "round_2"%string := [x01] ]};
                "https://example.com/api3"%string :=
                  {[ "round_1"%string := [x02] ]} ]} ∅ in
  let urls := ["https://example.com/api1"; "https://nonexistent.com";
               "https://example.com/api1"]%string in
  (length (@CompressResponsePack.BatchDeleteResponse (in_order_runtime 2) r urls).2 +
   size (CompressResponsePack.CompressedResponses r) =
   length urls +
   size (CompressResponsePack.CompressedResponses
           (@CompressResponsePack.BatchDeleteResponse (in_order_runtime 2) r urls).1))%nat.
Proof.
  apply (@BatchDeleteResponse_removes_the_requested_urls (in_order_runtime 2)
           (in_order_sched 2)).
Defined.

(** ** Both packs: a record that is added overwrites nothing *)

Section numbered_rounds.
Context {rt : GoRuntime} {codec : Codec}.
Hypothesis range_perm :
  forall (A : Type) (m : gmap string A), range m ≡ₚ map_to_list m.
Hypothesis sched_perm : forall (A : Type) (l : list A), sched l ≡ₚ l.

Lemma numbered_empty {V} : numbered (∅ : gmap string (gmap string V)).
Proof. intros url rounds Hurl. by rewrite lookup_empty in Hurl. Qed.

Lemma numbered_entry {V} (m : gmap string (gmap string V)) url :
  numbered m -> exists vs, m !! url = entry_of vs /\ (length vs <= entries m)%nat.
Proof.
  intros Hm. destruct (m !! url) as [rounds|] eqn:Hurl.
  - destruct (Hm url rounds Hurl) as (vs & Hne & ->). exists vs.
    split; [by destruct vs|].
    rewrite (entries_delete m url _ Hurl), rounds_of_size. lia.
  - exists []. split; [done|]. simpl. lia.
Qed.

Lemma commit_numbered {V} (m : gmap string (gmap string V)) url (v : V) :
  numbered m ->
  Z.of_nat (entries m) < MaxInt ->
  numbered (commit url v m) /\
  keeps m (commit url v m) /\
  entries (commit url v m) = S (entries m) /\
  exists key, lookup2 m url key = None /\ lookup2 (commit url v m) url key = Some v.
Proof.
  intros Hm Hlen. destruct (numbered_entry m url Hm) as (vs & Hentry & Hvs).
  pose proof (commit_same range_perm m url v vs Hentry ltac:(lia)) as Hsame.
  rewrite entry_of_snoc in Hsame.
  assert (forall url', url' <> url -> commit url v m !! url' = m !! url') as Hother.
  { intros url' Hne. by apply (commit_other m url url' v). }
  assert (commit url v m = <[url := rounds_of (vs ++ [v])]> m) as Hcommit.
  { apply map_eq. intros url'. destruct (decide (url' = url)) as [->|Hne].
    - by rewrite lookup_insert_eq.
    - by rewrite lookup_insert_ne, Hother. }
  split; [|split; [|split]].
  - intros url' rounds. destruct (decide (url' = url)) as [->|Hne].
    + rewrite Hsame. intros [= <-]. exists (vs ++ [v]). split; [|done].
      by destruct vs.
    + rewrite Hother by done. apply Hm.
  - intros url' key w. unfold lookup2. destruct (decide (url' = url)) as [->|Hne].
    + rewrite Hsame, Hentry. destruct vs as [|v0 vs']; [done|].
      cbn [entry_of]. rewrite rounds_of_snoc. intros Hkey.
      rewrite lookup_insert_ne; [done|]. intros <-.
      by rewrite (rounds_of_fresh (v0 :: vs')) in Hkey.
    + by rewrite Hother.
  - rewrite Hcommit, entries_insert, rounds_of_size, length_app. cbn [length].
    destruct (m !! url) as [rounds|] eqn:Hurl.
    + rewrite (entries_delete m url _ Hurl).
      destruct vs as [|v0 vs']; [done|]. cbn [entry_of] in Hentry.
      injection Hentry as ->. rewrite rounds_of_size. lia.
    + rewrite delete_id by done. destruct vs; [simpl; lia|done].
  - exists (round_key (Z.of_nat (S (length vs)))). unfold lookup2.
    rewrite Hsame, Hentry. split.
    + destruct vs as [|v0 vs']; [done|]. cbn [entry_of]. apply rounds_of_fresh.
    + rewrite rounds_of_snoc. apply lookup_insert_eq.
Qed.

(** X13.  In a pack, plain or compressed, whose rounds are numbered from 1
    under every URL, [AddResponse] overwrites nothing: every record of the
    pack is still there under its URL and round key, the new record is
    stored under a round key that was free, the number of stored records
    grows by one, and the rounds are still numbered from 1.  (The number of
    stored records fits an [int].) *)
Theorem AddResponse_overwrites_nothing
    (p : ResponsePack.t) (r : CompressResponsePack.t) (response : Response) :
  numbered (ResponsePack.Responses p) ->
  numbered (CompressResponsePack.CompressedResponses r) ->
  Z.of_nat (entries (ResponsePack.Responses p)) < MaxInt ->
  Z.of_nat (entries (CompressResponsePack.CompressedResponses r)) < MaxInt ->
  (let after := ResponsePack.Responses (ResponsePack.AddResponse p (Some response)).1 in
   numbered after /\
   keeps (ResponsePack.Responses p) after /\
   entries after = S (entries (ResponsePack.Responses p)) /\
   exists key,
     lookup2 (ResponsePack.Responses p) (Url response) key = None /\
     lookup2 after (Url response) key = Some response) /\
  (let after :=
     CompressResponsePack.CompressedResponses
       (CompressResponsePack.AddResponse r (Some response)).1 in
   numbered after /\
   keeps (CompressResponsePack.CompressedResponses r) after /\
   entries after = S (entries (CompressResponsePack.CompressedResponses r)) /\
   exists key,
     lookup2 (CompressResponsePack.CompressedResponses r) (Url response) key = None /\
     lookup2 after (Url response) key = Some (compressed response)).
Proof.
  intros Hp Hr Hlenp Hlenr. cbv zeta.
  rewrite AddResponse_Responses, CompressAddResponse_commit.
  split; by apply commit_numbered.
Qed.

Lemma CompressAddResponses_numbered (rs : list (option Response)) (r : CompressResponsePack.t) :
  numbered (CompressResponsePack.CompressedResponses r) ->
  Z.of_nat (entries (CompressResponsePack.CompressedResponses r) + length rs) <= MaxInt ->
  numbered (CompressResponsePack.CompressedResponses (CompressAddResponses r rs)) /\
  keeps (CompressResponsePack.CompressedResponses r)
        (CompressResponsePack.CompressedResponses (CompressAddResponses r rs)) /\
  (entries (CompressResponsePack.CompressedResponses (CompressAddResponses r rs)) <=
   entries (CompressResponsePack.CompressedResponses r) + length rs)%nat.
Proof.
  revert r. induction rs as [|x rs IH]; intros r Hr Hlen.
  - cbn [CompressAddResponses foldl length]. split; [done|]. split; [by intros ???|lia].
  - change (CompressAddResponses r (x :: rs))
      with (CompressAddResponses (CompressResponsePack.AddResponse r x).1 rs).
    cbn [length] in *. destruct x as [x|].
    + destruct (commit_numbered (CompressResponsePack.CompressedResponses r)
                  (Url x) (compressed x) Hr ltac:(lia)) as (Hn & Hk & He & _).
      set (r' := (CompressResponsePack.AddResponse r (Some x)).1) in *.
      assert (CompressResponsePack.CompressedResponses r' =
              commit (Url x) (compressed x) (CompressResponsePack.CompressedResponses r))
        as Hr' by apply CompressAddResponse_commit.
      rewrite <- Hr' in Hn, Hk, He.
      destruct (IH r' Hn ltac:(lia)) as (IHn & IHk & IHe).
      split; [done|]. split; [|lia].
      intros url key v Hv. by apply IHk, Hk.
    + rewrite CompressAddResponse_nil. cbn [fst].
      destruct (IH r Hr ltac:(lia)) as (IHn & IHk & IHe). split; [done|]. split; [done|lia].
Qed.

(** X14.  The rounds of a compressed pack stay numbered from 1 under every
    URL: they are so in a new pack, and every operation of the pack keeps
    them so ([AddResponse], [BatchAddResponse], [DeleteResponse],
    [BatchDeleteResponse], [Clear], [AddInfo], [AddInfoFromMap]), deletions
    included, since a deletion removes all the rounds of a URL.
    [BatchAddResponse] moreover keeps every record the pack held.  (The
    number of stored records, after the additions, fits an [int].) *)
Theorem CompressResponsePack_rounds_stay_numbered (r : CompressResponsePack.t) :
  numbered (CompressResponsePack.CompressedResponses r) ->
  numbered (CompressResponsePack.CompressedResponses
              CompressResponsePack.NewCompressResponsePack) /\
  (forall response,
     Z.of_nat (entries (CompressResponsePack.CompressedResponses r)) < MaxInt ->
     numbered (CompressResponsePack.CompressedResponses
                 (CompressResponsePack.AddResponse r response).1)) /\
  (forall responses,
     Z.of_nat (entries (CompressResponsePack.CompressedResponses r) + length responses)
       <= MaxInt ->
     numbered (CompressResponsePack.CompressedResponses
                 (CompressResponsePack.BatchAddResponse r responses).1) /\
     keeps (CompressResponsePack.CompressedResponses r)
           (CompressResponsePack.CompressedResponses
              (CompressResponsePack.BatchAddResponse r responses).1)) /\
  (forall url,
     numbered (CompressResponsePack.CompressedResponses
                 (CompressResponsePack.DeleteResponse r url).1)) /\
  (forall urls,
     numbered (CompressResponsePack.CompressedResponses
                 (CompressResponsePack.BatchDeleteResponse r urls).1)) /\
  numbered (CompressResponsePack.CompressedResponses (CompressResponsePack.Clear r)) /\
  (forall key value,
     numbered (CompressResponsePack.CompressedResponses
                 (CompressResponsePack.AddInfo r key value))) /\
  (forall info,
     numbered (CompressResponsePack.CompressedResponses
                 (CompressResponsePack.AddInfoFromMap r info))).
Proof.
  intros Hr. split; [apply numbered_empty|]. split; [|split; [|split; [|split]]].
  - intros [response|] Hlen.
    + rewrite CompressAddResponse_commit. by apply commit_numbered.
    + by rewrite CompressAddResponse_nil.
  - intros responses Hlen. unfold CompressResponsePack.BatchAddResponse.
    destruct (Nat.min NumCPU (length responses)); [by split; [|intros ???]|].
    rewrite CompressBatchAddResponse_loop. cbn [fst].
    destruct (CompressAddResponses_numbered (sched responses) r Hr) as (Hn & Hk & _);
      [|done].
    by rewrite (Permutation_length (sched_perm _ responses)).
  - intros url. destruct (DeleteResponse_map r url) as (-> & _ & _).
    intros url' rounds Hurl'. apply lookup_delete_Some in Hurl' as [_ Hurl'].
    by apply (Hr url').
  - intros urls.
    rewrite (BatchDeleteResponse_filter sched_perm).
    intros url' rounds Hurl'. apply map_lookup_filter_Some in Hurl' as [Hurl' _].
    by apply (Hr url').
  - split; [apply numbered_empty|]. by split.
Qed.

End numbered_rounds.

Lemma AddResponse_overwrites_nothing_witness :
  let p := (@ResponsePack.AddResponse (in_order_runtime 2)
              ResponsePack.NewResponsePack (Some ok_200)).1 in
  let r := (@CompressResponsePack.AddResponse (in_order_runtime 2) reference.codec
              CompressResponsePack.NewCompressResponsePack (Some ok_200)).1 in
  entries (ResponsePack.Responses
             (@ResponsePack.AddResponse (in_order_runtime 2) p (Some created_201)).1)
    = 2%nat /\
  entries (CompressResponsePack.CompressedResponses
             (@CompressResponsePack.AddResponse (in_order_runtime 2) reference.codec
                r (Some created_201)).1) = 2%nat.
Proof.
  intros p r.
  destruct (@AddResponse_overwrites_nothing (in_order_runtime 2) reference.codec
              (in_order_range 2) ResponsePack.NewResponsePack
              CompressResponsePack.NewCompressResponsePack ok_200
              numbered_empty numbered_empty)
    as [(Hp & _ & Hep & _) (Hr & _ & Her & _)]; [by vm_compute..|].
  destruct (@AddResponse_overwrites_nothing (in_order_runtime 2) reference.codec
              (in_order_range 2) p r created_201 Hp Hr)
    as [(_ & _ & Hep' & _) (_ & _ & Her' & _)].
  - unfold p. rewrite Hep. by vm_compute.
  - unfold r. rewrite Her. by vm_compute.
  - split.
    + rewrite Hep'. unfold p. by rewrite Hep.
    + rewrite Her'. unfold r. by rewrite Her.
Defined.

Lemma CompressResponsePack_rounds_stay_numbered_witness :
  numbered
    (CompressResponsePack.CompressedResponses
       (CompressResponsePack.DeleteResponse
          (@CompressResponsePack.AddResponse (in_order_runtime 2) reference.codec
             CompressResponsePack.NewCompressResponsePack (Some ok_200)).1
          "https://example.com/api3").1).
Proof.
  apply (@CompressResponsePack_rounds_stay_numbered (in_order_runtime 2) reference.codec
           (in_order_range 2) (in_order_sched 2)).
  apply (@CompressResponsePack_rounds_stay_numbered (in_order_runtime 2) reference.codec
           (in_order_range 2) (in_order_sched 2)
           CompressResponsePack.NewCompressResponsePack numbered_empty).
  by vm_compute.
Defined.

(** ** [CompressResponsePack]: reading the records back *)

Section compress_get.
Context {rt : GoRuntime} {codec : Codec}.
Hypothesis range_perm :
  forall (A : Type) (m : gmap string A), range m ≡ₚ map_to_list m.
Import CompressResponsePack.

Lemma GetResponse_loop_error (l : list (string * list byte)) (err : error) :
  foldl (fun (acc : error + list Response) (value : string * list byte) =>
           match acc with
           | inl err => inl err
           | inr responseSlice =>
             match NewResponseFromCompressed value.2 with
             | inl err => inl err
             | inr response => inr (responseSlice ++ [response])
             end
           end) (inl err) l = inl err.
Proof. by induction l. Qed.

Lemma GetResponse_loop (l : list (string * list byte)) (acc : list Response) :
  (Forall (fun kv => exists v, NewResponseFromCompressed kv.2 = inr v) l ->
   exists result,
     foldl (fun (acc : error + list Response) (value : string * list byte) =>
              match acc with
              | inl err => inl err
              | inr responseSlice =>
                match NewResponseFromCompressed value.2 with
                | inl err => inl err
                | inr response => inr (responseSlice ++ [response])
                end
              end) (inr acc) l = inr (acc ++ result) /\
     Forall2 (fun kv v => NewResponseFromCompressed kv.2 = inr v) l result) /\
  (forall kv e, kv ∈ l -> NewResponseFromCompressed kv.2 = inl e ->
   exists e' kv',
     foldl (fun (acc : error + list Response) (value : string * list byte) =>
              match acc with
              | inl err => inl err
              | inr responseSlice =>
                match NewResponseFromCompressed value.2 with
                | inl err => inl err
                | inr response => inr (responseSlice ++ [response])
                end
              end) (inr acc) l = inl e' /\
     kv' ∈ l /\ NewResponseFromCompressed kv'.2 = inl e').
Proof.
  revert acc. induction l as [|kv0 l IH]; intros acc.
  - split.
    + intros _. exists []. by rewrite app_nil_r.
    + intros kv e Hin. by apply not_elem_of_nil in Hin.
  - cbn [foldl]. destruct (NewResponseFromCompressed kv0.2) as [e0|v0] eqn:Hkv0.
    + split.
      * intros Hall. apply Forall_cons in Hall as [[v Hv] _]. congruence.
      * intros _ _ _ _. exists e0, kv0. rewrite GetResponse_loop_error.
        split; [done|]. split; [left|done].
    + destruct (IH (acc ++ [v0])) as [IHok IHerr]. split.
      * intros Hall. apply Forall_cons in Hall as [_ Hall].
        destruct (IHok Hall) as (result & Hfold & Hres).
        exists (v0 :: result). rewrite Hfold, <- (assoc_L (++)). split; [done|].
        by constructor.
      * intros kv e Hin He. apply elem_of_cons in Hin as [->|Hin]; [congruence|].
        destruct (IHerr kv e Hin He) as (e' & kv' & Hfold & Hin' & He').
        exists e', kv'. split; [done|]. split; [by right|done].
Qed.

(** X15.  [GetResponse] of the compressed pack returns all the records of a
    URL or none: when every blob stored under the URL decompresses, it
    returns one record for every round, the records the blobs decompress to;
    when a blob does not, it returns the error of a blob that does not, and
    no record. *)
Theorem CompressGetResponse_all_or_nothing
    (r : t) (url : string) (rounds : gmap string (list byte)) :
  CompressedResponses r !! url = Some rounds ->
  ((forall key blob, rounds !! key = Some blob ->
      exists v, NewResponseFromCompressed blob = inr v) ->
   exists result,
     GetResponse r url = inr result /\
     length result = size rounds /\
     forall v, v ∈ result <->
       exists key blob, rounds !! key = Some blob /\
                        NewResponseFromCompressed blob = inr v) /\
  (forall key blob e,
     rounds !! key = Some blob -> NewResponseFromCompressed blob = inl e ->
     exists e' key' blob',
       GetResponse r url = inl e' /\
       rounds !! key' = Some blob' /\
       NewResponseFromCompressed blob' = inl e').
Proof.
  intros Hurl. unfold GetResponse. rewrite Hurl.
  destruct (GetResponse_loop (range rounds) []) as [Hok Herr]. split.
  - intros Hall. destruct Hok as (result & Hfold & Hres).
    { apply Forall_forall. intros [key blob] Hin.
      apply (elem_of_range range_perm) in Hin. by apply (Hall key). }
    exists result. split; [done|]. split.
    + by rewrite <- (Forall2_length _ _ _ Hres), (length_range range_perm).
    + intros v. split.
      * intros Hv. apply list_elem_of_lookup in Hv as [i Hi].
        destruct (Forall2_lookup_r _ _ _ _ _ Hres Hi) as ([key blob] & Hkv & Hdec).
        exists key, blob. split; [|done].
        apply (elem_of_range range_perm). by eapply list_elem_of_lookup_2.
      * intros (key & blob & Hkey & Hdec).
        apply (elem_of_range range_perm) in Hkey.
        apply list_elem_of_lookup in Hkey as [i Hi].
        destruct (Forall2_lookup_l _ _ _ _ _ Hres Hi) as (v' & Hv' & Hdec').
        cbn [snd] in Hdec'. assert (v' = v) as -> by congruence.
        by eapply list_elem_of_lookup_2.
  - intros key blob e Hkey He.
    destruct (Herr (key, blob) e) as (e' & [key' blob'] & Hfold & Hin & He');
      [by apply (elem_of_range range_perm)|done|].
    exists e', key', blob'. split; [done|]. split; [|done].
    by apply (elem_of_range range_perm).
Qed.

Hypothesis codec_lossless : lossless codec.

Lemma Forall2_decompressed (l : list (list byte)) (vs result : list Response) :
  Forall round_trips vs ->
  l ≡ₚ compressed <$> vs ->
  Forall2 (fun blob v => NewResponseFromCompressed blob = inr v) l result ->
  result ≡ₚ vs.
Proof.
  intros Hvs Hperm Hres.
  set (dec := fun blob : list byte =>
                match NewResponseFromCompressed blob with
                | inr v => v
                | inl _ => json.zero
                end).
  assert (result = dec <$> l) as ->.
  { clear Hperm. induction Hres as [|blob v l result Hdec _ IH]; [done|].
    rewrite fmap_cons, <- IH. unfold dec at 1. by rewrite Hdec. }
  rewrite Hperm, <- list_fmap_compose.
  assert ((dec ∘ compressed) <$> vs = vs) as ->; [|done].
  rewrite <- (list_fmap_id vs) at 2. apply Forall_fmap_ext_1.
  eapply Forall_impl; [apply Hvs|]. intros v [Hfits Htext]. cbn [compose].
  unfold dec.
  by rewrite (NewResponseFromCompressed_Compress codec_lossless v (compressed v)).
Qed.

(** The records of a URL of the pack come back from their blobs, in the order
    in which the rounds are visited. *)
Lemma CompressGetResponse_added_perm
    (rs : list (option Response)) (url : string) :
  Z.of_nat (length (added rs)) <= MaxInt ->
  Forall round_trips (added rs) ->
  with_url url (added rs) <> [] ->
  exists result,
    GetResponse (CompressAddResponses NewCompressResponsePack rs) url = inr result /\
    result ≡ₚ with_url url (added rs).
Proof.
  intros Hlen Hrt Hne.
  pose proof (CompressAddResponses_entry range_perm rs url Hlen) as Hentry.
  assert (Forall round_trips (with_url url (added rs))) as Hvs.
  { apply Forall_forall. intros v Hv. unfold with_url in Hv.
    apply list_elem_of_filter in Hv as [_ Hv].
    by eapply Forall_forall in Hrt. }
  set (vs := with_url url (added rs)) in *.
  assert (CompressedResponses (CompressAddResponses NewCompressResponsePack rs) !! url =
          Some (rounds_of (compressed <$> vs))) as Hrounds.
  { rewrite Hentry. by destruct vs. }
  unfold GetResponse. rewrite Hrounds.
  destruct (GetResponse_loop (range (rounds_of (compressed <$> vs))) [])
    as [(result & Hfold & Hres) _].
  { apply Forall_forall. intros [key blob] Hin.
    apply (range_rounds_of_entries range_perm) in Hin.
    apply list_elem_of_fmap in Hin as (v & -> & Hv).
    exists v. eapply Forall_forall in Hvs as [Hfits Htext]; [|done].
    by apply (NewResponseFromCompressed_Compress codec_lossless v). }
  exists result. split; [done|].
  apply (Forall2_decompressed (range (rounds_of (compressed <$> vs))).*2); [done|..].
  - apply (range_rounds_of_values range_perm).
  - by apply Forall2_fmap_l.
Qed.

(** X16.  [GetResponse] of the compressed pack after a sequence of
    [AddResponse] calls on a new pack: for a URL under which no record was
    added it returns the not-found error; for any other URL it returns the
    records that were added with that URL, decompressed, each one once, in
    the order of the map iteration.  (The strings of the records are valid
    UTF-8.) *)
Theorem CompressGetResponse_returns_the_added_records
    (rs : list (option Response)) (url : string) :
  Z.of_nat (length (added rs)) <= MaxInt ->
  Forall round_trips (added rs) ->
  (with_url url (added rs) = [] ->
   GetResponse (CompressAddResponses NewCompressResponsePack rs) url =
     inl (ErrNotFound url)) /\
  (with_url url (added rs) <> [] ->
   exists result,
     GetResponse (CompressAddResponses NewCompressResponsePack rs) url = inr result /\
     result ≡ₚ with_url url (added rs)).
Proof.
  intros Hlen Hrt. split.
  - intros Hnil. unfold GetResponse.
    by rewrite (CompressAddResponses_entry range_perm rs url Hlen), Hnil.
  - by apply CompressGetResponse_added_perm.
Qed.

End compress_get.

Lemma CompressGetResponse_all_or_nothing_witness :
  let rounds : gmap string (list byte) :=
    {[ "round_1"%string := [x00]; "round_2"%string := [x01] ]} in
  let r := CompressResponsePack.mk {[ "https://example.com/api1"%string := rounds ]} ∅ in
  ((forall key blob, rounds !! key = Some blob ->
      exists v, @NewResponseFromCompressed reference.codec blob = inr v) ->
   exists result,
     @CompressResponsePack.GetResponse (in_order_runtime 2) reference.codec r
       "https://example.com/api1" = inr result /\
     length result = size rounds /\
     forall v, v ∈ result <->
       exists key blob, rounds !! key = Some blob /\
                        @NewResponseFromCompressed reference.codec blob = inr v) /\
  (forall key blob e,
     rounds !! key = Some blob ->
     @NewResponseFromCompressed reference.codec blob = inl e ->
     exists e' key' blob',
       @CompressResponsePack.GetResponse (in_order_runtime 2) reference.codec r
         "https://example.com/api1" = inl e' /\
       rounds !! key' = Some blob' /\
       @NewResponseFromCompressed reference.codec blob' = inl e').
Proof.
  apply (@CompressGetResponse_all_or_nothing (in_order_runtime 2) reference.codec
           (in_order_range 2)).
  apply lookup_insert_eq.
Defined.

Lemma CompressGetResponse_returns_the_added_records_witness :
  exists result,
    @CompressResponsePack.GetResponse (in_order_runtime 2) reference.codec
      (@CompressAddResponses (in_order_runtime 2) reference.codec
         CompressResponsePack.NewCompressResponsePack [Some ok_200; Some ok_200])
      "https://example.com/api1" = inr result /\
    result ≡ₚ [ok_200; ok_200].
Proof.
  apply (@CompressGetResponse_returns_the_added_records (in_order_runtime 2)
           reference.codec (in_order_range 2) reference_lossless
           [Some ok_200; Some ok_200] "https://example.com/api1").
  - vm_compute. discriminate.
  - apply Forall_cons_2; [apply ok_200_round_trips|].
    apply Forall_cons_2; [apply ok_200_round_trips|]. apply Forall_nil_2.
  - discriminate.
Defined.

(** ** The constructors of [Response] *)

Section constructors.
Context {validator : codes.Validator} {codec : Codec}.

(** X17.  [NewResponse] checks the status code first and the method second
    and returns the error of the first check that fails.  A record it returns
    has the URL, host, method, status code and raw response it was given, and
    neither its headers nor its body is [nil]: a [nil] argument becomes the
    empty map or slice.  Its [BodyLength] is the given length, or the length
    of the body when the given length is 0, so it is 0 only for an empty
    body.  [NewResponseFromConfig] returns what [NewResponse] returns for the
    fields of the configuration. *)
Theorem NewResponse_checks_and_defaults
    (url host method : string) (statusCode : Z)
    (headers : option (gmap string string)) (body : option (list byte))
    (bodyLength : Z) (rawResponse : option (list byte)) :
  (codes.ValidateStatusCode statusCode = false ->
   NewResponse url host method statusCode headers body bodyLength rawResponse =
     inl ErrStatusCode) /\
  (codes.ValidateStatusCode statusCode = true ->
   codes.ValidateMethod method = false ->
   NewResponse url host method statusCode headers body bodyLength rawResponse =
     inl ErrMethod) /\
  (forall r,
     NewResponse url host method statusCode headers body bodyLength rawResponse = inr r ->
     codes.ValidateStatusCode statusCode = true /\
     codes.ValidateMethod method = true /\
     Url r = url /\ Host r = host /\ Method r = method /\
     StatusCode r = statusCode /\ RawResponse r = rawResponse /\
     Headers r = Some (default ∅ headers) /\
     Body r = Some (default [] body) /\
     (bodyLength <> 0 -> BodyLength r = bodyLength) /\
     (bodyLength = 0 -> BodyLength r = Z.of_nat (length (default [] body))) /\
     (BodyLength r = 0 <-> bodyLength = 0 /\ default [] body = [])) /\
  NewResponseFromConfig
    (ConfigResponse.mk method statusCode url host headers body bodyLength rawResponse) =
  NewResponse url host method statusCode headers body bodyLength rawResponse.
Proof.
  unfold NewResponse.
  split; [by intros ->|]. split; [by intros -> ->|]. split; [|done].
  intros r.
  destruct (codes.ValidateStatusCode statusCode); [|done].
  destruct (codes.ValidateMethod method); [|done].
  cbn [negb]. intros [= <-]. cbn [Url Host Method StatusCode RawResponse Headers Body
                                   BodyLength].
  assert (match headers with Some headers0 => headers0 | None => ∅ end = default ∅ headers)
    as -> by by destruct headers.
  assert (match body with Some body0 => body0 | None => [] end = default [] body)
    as -> by by destruct body.
  repeat (split; [done|]).
  destruct (bodyLength =? 0) eqn:Hlen.
  - apply Z.eqb_eq in Hlen. subst bodyLength.
    split; [done|]. split; [done|]. split.
    + intros H0. split; [done|]. apply nil_length_inv. lia.
    + intros [_ ->]. done.
  - apply Z.eqb_neq in Hlen. split; [done|]. split; [done|]. split; [done|].
    by intros [? _].
Qed.

End constructors.

(** ** [ToJSON] and [NewResponseFromJSON] *)

Section json_round_trip.
Context {codec : Codec}.
Hypothesis codec_lossless : lossless codec.
Hypothesis text_not_empty : forall v, json_text v <> [].

(** X18.  [NewResponseFromJSON] returns its own error for a [nil] slice and
    for an empty one, before it reads anything.  It reads back what [ToJSON]
    wrote: for a record whose strings are valid UTF-8, whatever its body and
    raw bytes are, [NewResponseFromJSON] of the result of [ToJSON] is the
    record.  And [NewResponseFromCompressed] reads a blob as
    [NewResponseFromJSON] reads the data that was compressed into it.  (The
    JSON encoder writes no empty text.) *)
Theorem NewResponseFromJSON_reads_ToJSON (r : Response) :
  fits_types r -> utf8_text r ->
  NewResponseFromJSON None = inl ErrJSONNil /\
  NewResponseFromJSON (Some []) = inl ErrJSONEmpty /\
  (exists data, ToJSON r = inr data /\ NewResponseFromJSON (Some data) = inr r) /\
  (forall data r',
     data <> [] ->
     NewResponseFromCompressed (gzip_Write data) = inr r' <->
     NewResponseFromJSON (Some data) = inr r').
Proof.
  intros Hfits Htext. destruct codec_lossless as [Hgzip Hjson].
  split; [done|]. split; [done|]. split.
  - exists (json_text (json.Marshal r)). split; [done|].
    unfold NewResponseFromJSON.
    destruct (json_text (json.Marshal r)) as [|b data] eqn:Htextr.
    { by apply text_not_empty in Htextr. }
    rewrite <- Htextr, Hjson. by rewrite Unmarshal_Marshal.
  - intros data r' Hdata. unfold NewResponseFromCompressed, NewResponseFromJSON.
    rewrite Hgzip. destruct data as [|b data]; [done|].
    destruct (json_scan (b :: data)) as [v|]; [|done].
    destruct (Unmarshal v); split; intros H; inversion H; done.
Qed.

End json_round_trip.

Lemma reference_text_not_empty (v : json.value) : @json_text reference.codec v <> [].
Proof.
  cbn [json_text reference.codec]. unfold reference.text.
  intros Hnil. apply (f_equal length) in Hnil.
  rewrite length_replicate in Hnil. cbn [length] in Hnil. lia.
Qed.

Lemma NewResponseFromJSON_reads_ToJSON_witness :
  exists data,
    @ToJSON reference.codec binary_body = inr data /\
    @NewResponseFromJSON reference.codec (Some data) = inr binary_body.
Proof.
  apply (@NewResponseFromJSON_reads_ToJSON reference.codec reference_lossless
           reference_text_not_empty binary_body).
  - split; split; vm_compute; discriminate.
  - split; [by vm_compute|]. split; [by vm_compute|]. split; [by vm_compute|].
    apply map_Forall_singleton. by vm_compute.
Defined.

(** ** [ToReadableJSON] *)

Section readable.
Context {codec : Codec} {unicode : gostrings.Unicode}.
Import base64.

Lemma size_encode b0 b1 b2 b3 b4 b5 :
  utf8.size (utf8.code (encode (Ascii b0 b1 b2 b3 b4 b5 false false))) = 1%nat.
Proof. destruct b0, b1, b2, b3, b4, b5; vm_compute; reflexivity. Qed.

Lemma Valid_ascii_cons (a : ascii) (s : string) :
  utf8.size (utf8.code a) = 1%nat -> utf8.Valid (String a s) = utf8.Valid s.
Proof.
  intros Ha. cbn [utf8.Valid]. unfold utf8.rune_len. by rewrite Ha.
Qed.

(** Base64 text is ASCII, so the JSON encoder writes it as it is. *)
Lemma Valid_EncodeToString src : utf8.Valid (EncodeToString src) = true.
Proof.
  induction src as [|x|x y|x y z rest IH] using list_ind3; [done|..].
  - cbn [EncodeToString].
    destruct (ascii_of_byte x) as [x0 x1 x2 x3 x4 x5 x6 x7].
    cbn [split zero]. by rewrite !Valid_ascii_cons by apply size_encode.
  - cbn [EncodeToString].
    destruct (ascii_of_byte x) as [x0 x1 x2 x3 x4 x5 x6 x7].
    destruct (ascii_of_byte y) as [y0 y1 y2 y3 y4 y5 y6 y7].
    cbn [split zero]. by rewrite !Valid_ascii_cons by apply size_encode.
  - cbn [EncodeToString].
    destruct (ascii_of_byte x) as [x0 x1 x2 x3 x4 x5 x6 x7].
    destruct (ascii_of_byte y) as [y0 y1 y2 y3 y4 y5 y6 y7].
    destruct (ascii_of_byte z) as [z0 z1 z2 z3 z4 z5 z6 z7].
    cbn [split]. by rewrite !Valid_ascii_cons by apply size_encode.
Qed.

Lemma of_string_EncodeToString src :
  json.of_string (EncodeToString src) = json.JStr (EncodeToString src).
Proof. unfold json.of_string. by rewrite coerce_Valid by apply Valid_EncodeToString. Qed.

(** X19.  In the document [ToReadableJSON] writes, a body or a raw response
    that is not valid UTF-8 is written in base64, which decodes to the bytes,
    and is marked ["base64"] in the member [encoding]; a raw response that is
    valid UTF-8 is written as text, unmarked.  A body that is valid UTF-8 is
    never marked: it is written as text when the headers say that the content
    is text, and in base64, still unmarked, when they do not.  The member
    [encoding] is always written. *)
Theorem ToReadableJSON_marks_invalid_utf8 (r : Response) :
  ToReadableJSON r = inr (json_text (tempData r)) /\
  member "encoding" (tempData r) = Some (Encoding r) /\
  (bytes_Valid (RawResponse r) = true ->
   member "rawResponse" (tempData r) = Some (json.JStr (ReadRawResponse r)) /\
   member "rawResponse" (Encoding r) = None) /\
  (bytes_Valid (RawResponse r) = false ->
   member "rawResponse" (tempData r) =
     Some (json.JStr (EncodeToString (default [] (RawResponse r)))) /\
   member "rawResponse" (Encoding r) = Some (json.JStr "base64") /\
   DecodeString (EncodeToString (default [] (RawResponse r))) =
     Some (default [] (RawResponse r))) /\
  (bytes_Valid (Body r) = false ->
   member "body" (tempData r) =
     Some (json.JStr (EncodeToString (default [] (Body r)))) /\
   member "body" (Encoding r) = Some (json.JStr "base64") /\
   DecodeString (EncodeToString (default [] (Body r))) = Some (default [] (Body r))) /\
  (bytes_Valid (Body r) = true -> isTextContent (Headers r) = true ->
   member "body" (tempData r) = Some (json.JStr (ReadBody r)) /\
   member "body" (Encoding r) = None) /\
  (bytes_Valid (Body r) = true -> isTextContent (Headers r) = false ->
   member "body" (tempData r) =
     Some (json.JStr (EncodeToString (default [] (Body r)))) /\
   member "body" (Encoding r) = None).
Proof.
  split; [done|]. split; [done|].
  assert (member "rawResponse" (tempData r) = Some (json.of_string (rawResponseContent r)))
    as -> by done.
  assert (member "body" (tempData r) = Some (json.of_string (bodyContent r)))
    as -> by done.
  unfold rawResponseContent, bodyContent, Encoding, ReadRawResponse, ReadBody.
  split; [|split; [|split; [|split]]].
  - intros Hraw. rewrite Hraw. split.
    + unfold json.of_string. by rewrite coerce_Valid.
    + by destruct (bytes_Valid (Body r)).
  - intros Hraw. rewrite Hraw. rewrite of_string_EncodeToString.
    split; [done|]. split; [|apply DecodeString_EncodeToString].
    by destruct (bytes_Valid (Body r)).
  - intros Hbody. rewrite Hbody, andb_false_r, of_string_EncodeToString.
    split; [done|]. split; [done|apply DecodeString_EncodeToString].
  - intros Hbody Htext. rewrite Hbody, Htext. cbn [andb negb app]. split.
    + unfold json.of_string. by rewrite coerce_Valid.
    + by destruct (bytes_Valid (RawResponse r)).
  - intros Hbody Htext. rewrite Hbody, Htext. cbn [andb negb app].
    rewrite of_string_EncodeToString. split; [done|].
    by destruct (bytes_Valid (RawResponse r)).
Qed.

Lemma is_ascii_lower (a : ascii) :
  gostrings.is_ascii a = true ->
  gostrings.is_ascii (gostrings.lower a) = true /\
  gostrings.lower (gostrings.lower a) = gostrings.lower a.
Proof.
  destruct a as [[] [] [] [] [] [] [] []]; vm_compute; intros; split; congruence.
Qed.

Lemma lower_bytes_ascii (s : string) :
  gostrings.all_ascii s = true ->
  gostrings.all_ascii (gostrings.lower_bytes s) = true /\
  gostrings.lower_bytes (gostrings.lower_bytes s) = gostrings.lower_bytes s.
Proof.
  induction s as [|a s IH]; [done|].
  cbn [gostrings.all_ascii gostrings.lower_bytes]. intros Hs.
  apply andb_true_iff in Hs as [Ha Hs].
  destruct (is_ascii_lower a Ha) as [Ha' Hl]. destruct (IH Hs) as [Hs' Hls].
  by rewrite Ha', Hs', Hl, Hls.
Qed.

(** X20.  [isTextContent] looks at one header, under the exact name
    [Content-Type]: without it, or in a [nil] map, the content is not text,
    whatever the other headers are.  The value is compared without regard to
    the case of its letters: an ASCII value and the same value in lower case
    give the same answer, and the answer is that the lowered value contains
    one of the five text types. *)
Theorem isTextContent_reads_one_header (headers : option (gmap string string)) :
  isTextContent None = false /\
  (default ∅ headers !! "Content-Type"%string = None -> isTextContent headers = false) /\
  (forall headers',
     default ∅ headers' !! "Content-Type"%string =
       default ∅ headers !! "Content-Type"%string ->
     isTextContent headers' = isTextContent headers) /\
  (forall contentType,
     default ∅ headers !! "Content-Type"%string = Some contentType ->
     gostrings.all_ascii contentType = true ->
     isTextContent headers =
       existsb (fun textType =>
                  gostrings.Contains (gostrings.lower_bytes contentType) textType)
               textTypes /\
     isTextContent (Some {[ "Content-Type"%string := gostrings.lower_bytes contentType ]})
       = isTextContent headers).
Proof.
  unfold isTextContent. split; [done|]. split; [by intros ->|]. split; [by intros ? ->|].
  intros contentType Hct Hascii. rewrite Hct.
  destruct (lower_bytes_ascii contentType Hascii) as [Hl Hll].
  cbn [from_option id]. rewrite lookup_singleton_eq.
  unfold gostrings.ToLower. by rewrite Hascii, Hl, Hll.
Qed.

End readable.

(** ** [GetErrorReportString] *)

Lemma append_cons (a : ascii) (s t : string) : String a s +:+ t = String a (s +:+ t).
Proof. reflexivity. Qed.

Lemma append_assoc (s t u : string) : (s +:+ t) +:+ u = s +:+ t +:+ u.
Proof. induction s as [|a s IH]; [done|]. by rewrite !append_cons, IH. Qed.

Lemma append_nil_r (s : string) : s +:+ "" = s.
Proof. induction s as [|a s IH]; [done|]. by rewrite append_cons, IH. Qed.

Section report_string.
Context {rt : GoRuntime} {text : ErrorText}.
Hypothesis range_perm :
  forall (A : Type) (m : gmap string A), range m ≡ₚ map_to_list m.
Hypothesis messages : package_messages.
Import ResponsePack.

Lemma range_singleton {A} (key : string) (x : A) : range ({[ key := x ]} : gmap string A) = [(key, x)].
Proof. apply Permutation_singleton_r. by rewrite range_perm, map_to_list_singleton. Qed.

Lemma GetErrorReport_no_failure (p : t) :
  Responses p <> ∅ ->
  (forall url key r, lookup2 (Responses p) url key = Some r -> is_success r) ->
  GetErrorReport (Some p) = inr ∅.
Proof.
  intros Hne Hall.
  destruct (GetErrorReport_entries range_perm p Hne) as (output & Hrep & Hout).
  rewrite Hrep. f_equal. apply map_eq. intros url.
  rewrite Hout, lookup_empty.
  destruct (Responses p !! url) as [rounds|] eqn:Hurl; [|done].
  apply (reported_None range_perm). intros key r Hr. apply (Hall url key).
  unfold lookup2. by rewrite Hurl.
Qed.

(** X21.  [GetErrorReportString] returns an error exactly when
    [GetErrorReport] does, for a [nil] pack and for an empty one, and the
    string is then the message of the error.  For a pack that holds
    responses and holds only successes it returns no error and the heading
    alone: a report without failures is not an error. *)
Theorem GetErrorReportString_without_failures (p : t) :
  GetErrorReportString None = ("response pack is nil"%string, Some ErrPackNil) /\
  (Responses p = ∅ ->
   GetErrorReportString (Some p) = ("no responses found"%string, Some ErrNoResponses)) /\
  (Responses p <> ∅ -> (GetErrorReportString (Some p)).2 = None) /\
  (Responses p <> ∅ ->
   (forall url key r, lookup2 (Responses p) url key = Some r -> is_success r) ->
   GetErrorReportString (Some p) = ("Error Report:" +:+ newline, None)).
Proof.
  destruct messages as (_ & Hnil & Hempty & _).
  unfold GetErrorReportString. split; [|split; [|split]].
  - cbn [GetErrorReport]. by rewrite Hnil.
  - intros Hp. apply (GetErrorReport_empty p) in Hp. by rewrite Hp, Hempty.
  - intros Hp. destruct (GetErrorReport_entries range_perm p Hp) as (output & -> & _).
    done.
  - intros Hp Hall. rewrite (GetErrorReport_no_failure p Hp Hall).
    by rewrite (range_empty range_perm).
Qed.

Lemma report_string_loop (l : list (string * gmap string Response)) (str : string) :
  Forall (fun out => exists key r, out.2 = {[ key := r ]}) l ->
  exists entries : list (string * string * Response),
    Forall2 (fun out e => out.1 = e.1.1 /\ out.2 = {[ e.1.2 := e.2 ]}) l entries /\
    foldl (fun str out =>
             foldl (fun str inn => str +:+ report_line inn.1 inn.2)
                   (str +:+ "URL: " +:+ out.1 +:+ newline)
                   (range out.2))
          str l =
    str +:+ concat_all ((fun e => report_block e.1.1 e.1.2 e.2) <$> entries).
Proof.
  revert str. induction l as [|[url s] l IH]; intros str Hall.
  - exists []. split; [constructor|]. cbn [foldl fmap list_fmap concat_all foldr].
    by rewrite append_nil_r.
  - apply Forall_cons in Hall as [(key & r & Hs) Hall]. cbn [snd] in Hs. subst s.
    cbn [foldl fst snd]. rewrite range_singleton. cbn [foldl fst snd].
    destruct (IH ((str +:+ "URL: " +:+ url +:+ newline) +:+ report_line key r) Hall)
      as (entries & Hentries & Hfold).
    exists ((url, key, r) :: entries). split; [by constructor|].
    rewrite Hfold, fmap_cons. cbn [concat_all foldr fst snd]. unfold report_block.
    by rewrite !append_assoc.
Qed.

(** X22.  The text of the report, for a pack that holds responses: the
    heading, then for every URL that has a round that is not a success, once
    and in the order of the map iteration, the line of the URL and one line
    with a round key of the URL and the status code stored under it, which
    is not a success. *)
Theorem GetErrorReportString_lists_the_failing_urls (p : t) :
  Responses p <> ∅ ->
  exists entries : list (string * string * Response),
    (GetErrorReportString (Some p)).1 =
      "Error Report:" +:+ newline +:+
      concat_all ((fun e => report_block e.1.1 e.1.2 e.2) <$> entries) /\
    NoDup entries.*1.*1 /\
    (forall url, url ∈ entries.*1.*1 <->
       exists key r, lookup2 (Responses p) url key = Some r /\ ~ is_success r) /\
    (forall url key r, (url, key, r) ∈ entries ->
       lookup2 (Responses p) url key = Some r /\ ~ is_success r).
Proof.
  intros Hne.
  destruct (GetErrorReport_entries range_perm p Hne) as (output & Hrep & Hout).
  assert (forall url s, output !! url = Some s ->
            exists key r, s = {[ key := r ]} /\
                          lookup2 (Responses p) url key = Some r /\ ~ is_success r)
    as Hsingle.
  { intros url s. rewrite Hout. unfold lookup2.
    destruct (Responses p !! url) as [rounds|]; [|done].
    apply (reported_Some range_perm). }
  destruct (report_string_loop (range output) ("Error Report:" +:+ newline))
    as (entries & Hentries & Hfold).
  { apply Forall_forall. intros [url s] Hin.
    apply (elem_of_range range_perm) in Hin.
    destruct (Hsingle url s Hin) as (key & r & -> & _). by exists key, r. }
  assert (entries.*1.*1 = (range output).*1) as Hurls.
  { clear Hfold. induction Hentries as [|out e l entries [He _] _ IH]; [done|].
    rewrite !fmap_cons. by rewrite IH, He. }
  exists entries. split; [|split; [|split]].
  - unfold GetErrorReportString. rewrite Hrep. cbn [fst]. rewrite Hfold.
    by rewrite append_assoc.
  - rewrite Hurls, range_perm. apply NoDup_fst_map_to_list.
  - intros url. rewrite Hurls, list_elem_of_fmap. split.
    + intros ([url' s] & -> & Hin). apply (elem_of_range range_perm) in Hin.
      destruct (Hsingle url' s Hin) as (key & r & _ & Hr & Hbad). by exists key, r.
    + intros (key & r & Hr & Hbad).
      destruct (output !! url) as [s|] eqn:Hs.
      * exists (url, s). split; [done|]. by apply (elem_of_range range_perm).
      * rewrite Hout in Hs. unfold lookup2 in Hr.
        destruct (Responses p !! url) as [rounds|]; [|done].
        destruct Hbad. by eapply (reported_None range_perm).
  - intros url key r Hin. apply list_elem_of_lookup in Hin as [i Hi].
    destruct (Forall2_lookup_r _ _ _ _ _ Hentries Hi) as ([url' s] & Hout' & Hu & Hs).
    cbn [fst snd] in Hu, Hs. subst url' s.
    apply list_elem_of_lookup_2, (elem_of_range range_perm) in Hout'.
    destruct (Hsingle url _ Hout') as (key' & r' & Heq & Hr & Hbad).
    assert (({[ key := r ]} : gmap string Response) !! key' = Some r') as Hk
      by (rewrite Heq; apply lookup_singleton_eq).
    apply lookup_singleton_Some in Hk as [<- <-]. done.
Qed.

End report_string.

Lemma reference_package_messages : @package_messages reference_messages.
Proof. by repeat split. Qed.

Lemma GetErrorReportString_without_failures_witness :
  @GetErrorReportString (in_order_runtime 2) reference_messages
    (Some (@AddResponses (in_order_runtime 2) ResponsePack.NewResponsePack
             [Some ok_200])) = ("Error Report:" +:+ newline, None).
Proof.
  apply (@GetErrorReportString_without_failures (in_order_runtime 2) reference_messages
           (in_order_range 2) reference_package_messages).
  - intros Hempty.
    apply (f_equal (fun m : gmap string (gmap string Response) => size m)) in Hempty.
    vm_compute in Hempty. lia.
  - intros url key r. unfold lookup2.
    rewrite (@AddResponses_entry (in_order_runtime 2));
      [|intros A m; reflexivity|vm_compute; discriminate].
    change (added [Some ok_200]) with [ok_200].
    unfold with_url. rewrite filter_cons, filter_nil.
    case_decide; [|done]. cbn [entry_of]. intros Hr.
    apply rounds_of_lookup in Hr as (i & _ & Hi).
    destruct i; cbv [lookup list_lookup] in Hi; [|done].
    injection Hi as <-. by vm_compute.
Defined.

Lemma GetErrorReportString_lists_the_failing_urls_witness :
  exists entries : list (string * string * Response),
    (@GetErrorReportString (in_order_runtime 2) reference_messages
       (Some (@AddResponses (in_order_runtime 2) ResponsePack.NewResponsePack
                [Some ok_200; Some not_found_404]))).1 =
      "Error Report:" +:+ newline +:+
      concat_all ((fun e => report_block e.1.1 e.1.2 e.2) <$> entries) /\
    NoDup entries.*1.*1 /\
    (forall url, url ∈ entries.*1.*1 <->
       exists key r,
         lookup2 (ResponsePack.Responses
                    (@AddResponses (in_order_runtime 2) ResponsePack.NewResponsePack
                       [Some ok_200; Some not_found_404])) url key = Some r /\
         ~ is_success r) /\
    (forall url key r, (url, key, r) ∈ entries ->
       lookup2 (ResponsePack.Responses
                  (@AddResponses (in_order_runtime 2) ResponsePack.NewResponsePack
                     [Some ok_200; Some not_found_404])) url key = Some r /\
       ~ is_success r).
Proof.
  apply (@GetErrorReportString_lists_the_failing_urls (in_order_runtime 2)
           reference_messages (in_order_range 2)).
  intros Hempty.
  apply (f_equal (fun m : gmap string (gmap string Response) => size m)) in Hempty.
  vm_compute in Hempty. lia.
Defined.

(** ** The parser of raw HTTP responses *)

Section parse.
Context {validator : codes.Validator} {lib : HttpLib}.

(** X23.  The parser returns the error "empty response data" for a [nil]
    pointer, for empty data and for an empty string, before it reads
    anything.  A record it returns has the given URL, the data as its raw
    response, the status code and the headers that were read, the values of a
    header joined by a comma and a space, and a body that is not [nil] with
    its length as [BodyLength]; its method is always [codes.GET], since the
    response is read without a request; its host is the URL itself when the
    URL starts neither with [http://] nor with [https://].
    [ParseStringHTTPResponse] is [ParseRawHTTPResponse] on the bytes of the
    string. *)
Theorem ParseRawHTTPResponse_result
    (data : option (list byte)) (url : string) (r : Response) :
  ParseRawHTTPResponse data url = inr r ->
  (forall url', ParseRawHTTPResponse None url' = inl ErrEmptyData) /\
  (forall url', ParseRawHTTPResponse (Some []) url' = inl ErrEmptyData) /\
  (forall url', ParseStringHTTPResponse "" url' = inl ErrEmptyData) /\
  (forall s url',
     ParseStringHTTPResponse s url' =
     ParseRawHTTPResponse (Some (list_byte_of_string s)) url') /\
  (exists bytes httpResponse body,
     data = Some bytes /\ bytes <> [] /\
     ReadResponse bytes = Some httpResponse /\
     http.Body httpResponse = Some body /\
     RawResponse r = Some bytes /\
     StatusCode r = http.StatusCode httpResponse /\
     Headers r =
       Some ((fun values => gostrings.Join values ", ") <$> http.Header httpResponse) /\
     Body r = Some body /\
     BodyLength r = Z.of_nat (length body)) /\
  Url r = url /\
  Method r = GET /\
  (gostrings.HasPrefix url "http://" = false ->
   gostrings.HasPrefix url "https://" = false -> Host r = url) /\
  codes.ValidateStatusCode (StatusCode r) = true /\
  codes.ValidateMethod GET = true.
Proof.
  unfold ParseRawHTTPResponse, ParseStringHTTPResponse, responseParser.
  intros Hr. do 4 (split; [done|]).
  destruct data as [[|b data]|]; try done.
  destruct (ReadResponse (b :: data)) as [httpResponse|] eqn:Hread; [|done].
  destruct (http.Body httpResponse) as [body|] eqn:Hbody; [|done].
  cbv zeta in Hr.
  destruct (if gostrings.HasPrefix url "http://" || gostrings.HasPrefix url "https://"
            then url_Parse_Host url else Some url) as [host|] eqn:Hhost; [|done].
  destruct (NewResponse _ _ _ _ _ _ _ _) as [err|response] eqn:Hnew; [done|].
  destruct (http.Close httpResponse); [|done]. injection Hr as ->.
  unfold NewResponse in Hnew.
  destruct (codes.ValidateStatusCode (http.StatusCode httpResponse)) eqn:Hcode; [|done].
  destruct (codes.ValidateMethod GET) eqn:Hmethod; [|done].
  cbn [negb] in Hnew. injection Hnew as <-.
  cbn [RawResponse StatusCode Headers Body BodyLength Url Method Host].
  split.
  { exists (b :: data), httpResponse, body. repeat (split; [done|]).
    by destruct (Z.of_nat (length body) =? 0). }
  repeat (split; [done|]). split; [|done].
  intros H1 H2. rewrite H1, H2 in Hhost. cbn [orb] in Hhost. congruence.
Qed.

End parse.

Lemma ParseRawHTTPResponse_result_witness :
  exists r,
    @ParseRawHTTPResponse reference_validator reference_http
      (Some ["H"; "T"; "T"; "P"]%byte) "127.0.0.1:8080" = inr r /\
    Method r = "GET"%string /\ Host r = "127.0.0.1:8080"%string /\ BodyLength r = 2.
Proof.
  eexists. split; [reflexivity|].
  destruct (@ParseRawHTTPResponse_result reference_validator reference_http
              (Some ["H"; "T"; "T"; "P"]%byte) "127.0.0.1:8080" _ eq_refl)
    as (_ & _ & _ & _ & (bytes & httpResponse & body & _ & _ & Hread & Hbody & _ & _ & _ & _ & Hlen)
        & _ & Hmethod & Hhost & _).
  split; [exact Hmethod|]. split; [by apply Hhost|].
  injection Hread as <-. injection Hbody as <-. exact Hlen.
Defined.

(** ** [Compress] and [NewResponseFromCompressed] on any record *)

Section coerce_facts.
Import json.

Lemma rune_len_1 a0 rest :
  utf8.rune_len (String a0 rest) = 1%nat -> utf8.size (utf8.code a0) = 1%nat.
Proof.
  unfold utf8.rune_len.
  destruct (utf8.size (utf8.code a0)) as [|[|[|[|[|?]]]]]; try done;
    destruct rest as [|a1 [|a2 [|a3 s4]]]; try done;
    repeat match goal with |- context [if ?b then _ else _] => destruct b end; done.
Qed.

Lemma rune_len_2 a0 a1 s2 s2' :
  utf8.rune_len (String a0 (String a1 s2)) = 2%nat ->
  utf8.rune_len (String a0 (String a1 s2')) = 2%nat.
Proof.
  unfold utf8.rune_len.
  destruct (utf8.size (utf8.code a0)) as [|[|[|[|[|?]]]]]; try done;
    destruct s2 as [|a2 [|a3 s4]]; try done;
    repeat match goal with |- context [if ?b then _ else _] => destruct b end; done.
Qed.

Lemma rune_len_3 a0 a1 a2 s3 s3' :
  utf8.rune_len (String a0 (String a1 (String a2 s3))) = 3%nat ->
  utf8.rune_len (String a0 (String a1 (String a2 s3'))) = 3%nat.
Proof.
  unfold utf8.rune_len.
  destruct (utf8.size (utf8.code a0)) as [|[|[|[|[|?]]]]]; try done;
    destruct s3 as [|a3 s4]; try done;
    repeat match goal with |- context [if ?b then _ else _] => destruct b end; done.
Qed.

Lemma rune_len_4 a0 a1 a2 a3 s4 s4' :
  utf8.rune_len (String a0 (String a1 (String a2 (String a3 s4)))) = 4%nat ->
  utf8.rune_len (String a0 (String a1 (String a2 (String a3 s4')))) = 4%nat.
Proof.
  unfold utf8.rune_len.
  destruct (utf8.size (utf8.code a0)) as [|[|[|[|[|?]]]]]; try done;
    repeat match goal with |- context [if ?b then _ else _] => destruct b end; done.
Qed.

Local Arguments utf8.rune_len : simpl never.

(** What the encoder writes for a string is valid UTF-8. *)
Lemma Valid_coerce s : utf8.Valid (coerce s) = true.
Proof.
  remember (String.length s) as n eqn:Hn.
  revert s Hn. induction (lt_wf n) as [n _ IH]. intros s Hn.
  destruct s as [|a0 rest]; [done|].
  assert (utf8.Valid (utf8.RuneError +:+ coerce rest) = true) as Hrune.
  { change (utf8.RuneError +:+ coerce rest)
      with (String "239" (String "191" (String "189" (coerce rest)))).
    cbn [utf8.Valid].
    change (utf8.rune_len (String "239" (String "191" (String "189" (coerce rest)))))
      with 3%nat.
    eapply IH; [|done]. simpl in Hn. lia. }
  cbn [coerce].
  destruct (utf8.rune_len (String a0 rest)) as [|[|[|[|[|?]]]]] eqn:Hlen;
    try exact Hrune.
  - rewrite Valid_ascii_cons by by eapply rune_len_1.
    eapply IH; [|done]. simpl in Hn. lia.
  - destruct rest as [|a1 s2]; [exact Hrune|].
    cbn [utf8.Valid]. rewrite (rune_len_2 a0 a1 s2 (coerce s2) Hlen).
    eapply IH; [|done]. simpl in Hn. lia.
  - destruct rest as [|a1 [|a2 s3]]; try exact Hrune.
    cbn [utf8.Valid]. rewrite (rune_len_3 a0 a1 a2 s3 (coerce s3) Hlen).
    eapply IH; [|done]. simpl in Hn. lia.
  - destruct rest as [|a1 [|a2 [|a3 s4]]]; try exact Hrune.
    cbn [utf8.Valid]. rewrite (rune_len_4 a0 a1 a2 a3 s4 (coerce s4) Hlen).
    eapply IH; [|done]. simpl in Hn. lia.
Qed.

Lemma coerce_headers_Valid (m : gmap string string) :
  map_Forall (fun k v => utf8.Valid k = true /\ utf8.Valid v = true) (coerce_headers m).
Proof.
  unfold coerce_headers. generalize (merge_sort key_le (map_to_list m)). intros l.
  assert (map_Forall (fun k v => utf8.Valid k = true /\ utf8.Valid v = true)
                     (∅ : gmap string string)) as Hbase by apply map_Forall_empty.
  revert Hbase. generalize (∅ : gmap string string).
  induction l as [|[k v] l IH]; intros acc Hacc; [done|].
  cbn [foldl fst snd]. apply IH. apply map_Forall_insert_2; [|done].
  split; apply Valid_coerce.
Qed.

Lemma to_map_coerced (m : gmap string string) :
  to_map None (of_map (Some m)) = Some (Some (coerce_headers m)).
Proof.
  unfold of_map, to_map, coerce_headers. cbn [default from_option id fmap option_fmap option_map].
  generalize (merge_sort key_le (map_to_list m)). intros l.
  generalize (∅ : gmap string string).
  induction l as [|[k v] l IH]; intros acc; [done|].
  rewrite fmap_cons. cbn [foldl fst snd of_string to_string]. apply IH.
Qed.

End coerce_facts.

Section any_record.
Context {codec : Codec}.
Hypothesis codec_lossless : lossless codec.
Import json.

Local Arguments of_bytes : simpl never.
Local Arguments of_map : simpl never.
Local Arguments to_bytes : simpl never.
Local Arguments to_map : simpl never.
Local Arguments coerce : simpl never.

Lemma Unmarshal_Marshal_any r : fits_types r -> Unmarshal (Marshal r) = Some (coerced r).
Proof.
  intros [Hcode Hlen].
  destruct r as [method code url host headers body len raw].
  assert ((- 2 ^ 63 <=? code) && (code <=? MaxInt) = true) as Hc.
  { simpl in Hcode. apply andb_true_iff. split; apply Z.leb_le; lia. }
  assert ((0 <=? len) && (len <=? MaxUint64) = true) as Hl.
  { simpl in Hlen. apply andb_true_iff. split; apply Z.leb_le; lia. }
  assert (to_map None (of_map headers) = Some (coerce_headers <$> headers)) as Hh.
  { destruct headers as [m|]; [apply to_map_coerced|done]. }
  unfold Unmarshal, Marshal, find_field, set_field, coerced. simpl in *.
  rewrite Hc. simpl.
  rewrite Hh. simpl.
  rewrite to_bytes_of_bytes. simpl.
  rewrite Hl. simpl.
  by rewrite to_bytes_of_bytes.
Qed.

Lemma coerced_round_trips r : fits_types r -> round_trips (coerced r).
Proof.
  intros Hfits. split; [done|].
  split; [apply Valid_coerce|]. split; [apply Valid_coerce|].
  split; [apply Valid_coerce|].
  cbn [coerced Headers]. destruct (Headers r) as [m|]; [|done].
  apply coerce_headers_Valid.
Qed.

(** X24.  Decompressing what [Compress] returned never fails, for any
    record (whose numbers are values of their Go types): it returns the
    record with every string made valid UTF-8, which is the record itself
    when its strings are valid; the status code, the body, its length and the
    raw response come back as they were, and the headers are [nil] only if
    they were.  What comes back is a record that the next round trip returns
    unchanged. *)
Theorem Compress_round_trip_is_stable (r : Response) :
  fits_types r ->
  exists compressedData back,
    Compress r = inr compressedData /\
    NewResponseFromCompressed compressedData = inr back /\
    back = coerced r /\
    StatusCode back = StatusCode r /\ Body back = Body r /\
    BodyLength back = BodyLength r /\ RawResponse back = RawResponse r /\
    (Headers back = None <-> Headers r = None) /\
    utf8_text back /\
    (utf8_text r -> back = r) /\
    exists compressedData',
      Compress back = inr compressedData' /\
      NewResponseFromCompressed compressedData' = inr back.
Proof.
  intros Hfits. destruct codec_lossless as [Hgzip Hjson].
  exists (compressed r), (coerced r).
  assert (forall x, fits_types x -> NewResponseFromCompressed (compressed x) = inr (coerced x))
    as Hback.
  { intros x Hx. unfold NewResponseFromCompressed, compressed.
    by rewrite Hgzip, Hjson, Unmarshal_Marshal_any. }
  destruct (coerced_round_trips r Hfits) as [Hfits' Htext'].
  split; [done|]. split; [by apply Hback|]. split; [done|].
  do 4 (split; [done|]). split.
  { cbn [coerced Headers]. by destruct (Headers r). }
  split; [done|]. split.
  - intros Htext.
    pose proof (Unmarshal_Marshal r Hfits Htext) as Hsame.
    rewrite Unmarshal_Marshal_any in Hsame by done. by injection Hsame.
  - exists (compressed (coerced r)). split; [done|].
    by apply (NewResponseFromCompressed_Compress codec_lossless).
Qed.

End any_record.

Lemma Compress_round_trip_is_stable_witness :
  exists compressedData back,
    @Compress reference.codec latin1_url = inr compressedData /\
    @NewResponseFromCompressed reference.codec compressedData = inr back /\
    back = coerced latin1_url /\
    StatusCode back = StatusCode latin1_url /\ Body back = Body latin1_url /\
    BodyLength back = BodyLength latin1_url /\
    RawResponse back = RawResponse latin1_url /\
    (Headers back = None <-> Headers latin1_url = None) /\
    utf8_text back /\
    (utf8_text latin1_url -> back = latin1_url) /\
    exists compressedData',
      @Compress reference.codec back = inr compressedData' /\
      @NewResponseFromCompressed reference.codec compressedData' = inr back.
Proof.
  apply (@Compress_round_trip_is_stable reference.codec reference_lossless latin1_url).
  split; split; vm_compute; discriminate.
Defined.

(** ** [BatchGetResponse]: the keys of the inner maps *)

Section batch_get_keys.
Context {rt : GoRuntime} {codec : Codec}.
Hypothesis range_perm :
  forall (A : Type) (m : gmap string A), range m ≡ₚ map_to_list m.
Hypothesis sched_perm : forall (A : Type) (l : list A), sched l ≡ₚ l.

Lemma keyed_lookup_index (result : list Response) (key : string) (r : Response) :
  keyed result !! key = Some r <->
  exists i : nat, key = round_key (Z.of_nat i) /\ result !! i = Some r.
Proof.
  split; [apply keyed_lookup|]. intros (i & -> & Hi). revert i Hi.
  induction result as [|x result IH] using rev_ind; intros i Hi; [done|].
  rewrite keyed_snoc.
  destruct (decide (i = length result)) as [->|Hne].
  - rewrite lookup_app_r, Nat.sub_diag in Hi by done. injection Hi as ->.
    apply lookup_insert_eq.
  - assert (i < length result)%nat as Hlt.
    { apply lookup_lt_Some in Hi. rewrite length_app in Hi. simpl in Hi. lia. }
    rewrite lookup_app_l in Hi by done.
    rewrite lookup_insert_ne; [by apply IH|].
    intros Hkey. apply round_key_inj in Hkey. lia.
Qed.

(** X25.  The inner map that [BatchGetResponse] of the plain pack returns
    for a requested URL of the pack is made from the slice that
    [GetResponse] returns for the URL: the record at index [i] of the slice
    is under the key [round_i], so the keys run from [round_0] and follow the
    order of the slice, not the round keys of the pack. *)
Theorem BatchGetResponse_keys_are_slice_indexes
    (rs : list (option Response)) (urls : list string) (url : string) :
  Z.of_nat (length (added rs)) <= MaxInt ->
  url ∈ urls ->
  with_url url (added rs) <> [] ->
  exists result rounds,
    ResponsePack.GetResponse (AddResponses ResponsePack.NewResponsePack rs) url =
      inr result /\
    (ResponsePack.BatchGetResponse
       (AddResponses ResponsePack.NewResponsePack rs) urls).1 !! url = Some rounds /\
    forall key r,
      rounds !! key = Some r <->
      exists i : nat, key = round_key (Z.of_nat i) /\ result !! i = Some r.
Proof.
  intros Hlen Hin Hne.
  destruct (BatchGetResponse_stored range_perm sched_perm rs urls url Hlen Hin Hne)
    as (rounds & Hrounds & _).
  pose proof Hrounds as Hturns. rewrite BatchGetResponse_turns in Hturns.
  apply turns_lookup in Hturns as [Hempty|(r0 & rest & Hres & Hu & ->)].
  { by rewrite lookup_empty in Hempty. }
  apply list_elem_of_omap in Hres as (d & Hd & Hsome).
  apply list_elem_of_fmap in Hd as (url' & -> & _).
  pose proof (GetResponse_added range_perm rs url' Hlen) as Hget.
  destruct (with_url url' (added rs)) as [|w ws] eqn:Hw.
  { by rewrite Hget in Hsome. }
  destruct Hget as (result & Hget & Hperm). rewrite Hget in Hsome.
  destruct result as [|r1 rest1]; [done|]. injection Hsome as -> ->.
  assert (Url r0 = url') as Hurl'.
  { apply (with_url_Url url' (added rs)). rewrite Hw, <- Hperm. left. }
  rewrite Hu in Hurl'. subst url'.
  exists (r0 :: rest), (keyed (r0 :: rest)). split; [done|]. split; [done|].
  apply keyed_lookup_index.
Qed.

End batch_get_keys.

Lemma BatchGetResponse_keys_are_slice_indexes_witness :
  exists result rounds,
    @ResponsePack.GetResponse (in_order_runtime 2)
      (@AddResponses (in_order_runtime 2) ResponsePack.NewResponsePack
         [Some ok_200; Some created_201])
      "https://example.com/api1" = inr result /\
    (@ResponsePack.BatchGetResponse (in_order_runtime 2)
       (@AddResponses (in_order_runtime 2) ResponsePack.NewResponsePack
          [Some ok_200; Some created_201])
       ["https://example.com/api1"%string]).1
      !! "https://example.com/api1"%string = Some rounds /\
    forall key r,
      rounds !! key = Some r <->
      exists i : nat, key = round_key (Z.of_nat i) /\ result !! i = Some r.
Proof.
  apply (@BatchGetResponse_keys_are_slice_indexes (in_order_runtime 2)
           (in_order_range 2) (in_order_sched 2)
           [Some ok_200; Some created_201] ["https://example.com/api1"%string]
           "https://example.com/api1").
  - vm_compute. discriminate.
  - left.
  - discriminate.
Defined.

Section compress_batch_get_keys.
Context {rt : GoRuntime} {codec : Codec}.
Hypothesis range_perm :
  forall (A : Type) (m : gmap string A), range m ≡ₚ map_to_list m.
Hypothesis sched_perm : forall (A : Type) (l : list A), sched l ≡ₚ l.
Hypothesis codec_lossless : lossless codec.
Import CompressResponsePack.

Lemma CompressBatchGetResponse_overwritten
    (resp : list Response) (u : string) (s : gmap string Response)
    (responses : gmap string (gmap string Response)) :
  Forall (fun v => Url v = u) resp ->
  <[u := s]> (foldl (fun responses ir =>
                       store2 (Url ir.2) (round_key (int_add (Z.of_nat ir.1) 1)) ir.2
                              (<[Url ir.2 := ∅]> responses))
                    responses (imap pair resp)) =
  <[u := s]> responses.
Proof.
  induction resp as [|y resp IH] using rev_ind; intros Hu; [done|].
  apply Forall_app in Hu as [Hresp Hy]. rewrite Forall_singleton in Hy.
  cbn beta in Hy.
  rewrite imap_app, foldl_app. cbn [imap foldl].
  rewrite CompressBatchGetResponse_turn. cbn [fst snd compose].
  by rewrite Hy, insert_insert_eq, IH.
Qed.

(** The inner loop of the compressed [BatchGetResponse] over the slice of a
    URL: the inner map is made again for every record, so it ends with the
    last record alone, under the key of its position. *)
Lemma CompressBatchGetResponse_inner
    (resp : list Response) (x : Response) (u : string)
    (responses : gmap string (gmap string Response)) :
  Forall (fun v => Url v = u) (resp ++ [x]) ->
  Z.of_nat (length (resp ++ [x])) <= MaxInt ->
  foldl (fun responses ir =>
           store2 (Url ir.2) (round_key (int_add (Z.of_nat ir.1) 1)) ir.2
                  (<[Url ir.2 := ∅]> responses))
        responses (imap pair (resp ++ [x])) =
  <[u := {[ round_key (Z.of_nat (length (resp ++ [x]))) := x ]}]> responses.
Proof.
  intros Hu Hlen. rewrite length_app in *. cbn [length] in *.
  apply Forall_app in Hu as [Hresp Hx]. rewrite Forall_singleton in Hx.
  cbn beta in Hx.
  rewrite imap_app, foldl_app. cbn [imap foldl].
  rewrite CompressBatchGetResponse_turn. cbn [fst snd compose].
  rewrite Hx, int_add_small by (unfold MaxInt in *; lia).
  replace (Z.of_nat (length resp + 0) + 1) with (Z.of_nat (length resp + 1)) by lia.
  by apply CompressBatchGetResponse_overwritten.
Qed.

(** The loop over the slices: the inner map of a URL is that of the last
    slice of the URL. *)
Lemma CompressBatchGetResponse_outer
    (respCh : list (list Response)) (u : string) (result : list Response) (x : Response)
    (responses : gmap string (gmap string Response)) :
  Z.of_nat (length (result ++ [x])) <= MaxInt ->
  Forall (fun v => Url v = u) (result ++ [x]) ->
  (forall resp, resp ∈ respCh ->
     exists u', resp <> [] /\ Forall (fun v => Url v = u') resp /\
                Z.of_nat (length resp) <= MaxInt /\
                (u' = u -> resp = result ++ [x])) ->
  (result ++ [x]) ∈ respCh ->
  foldl (fun responses resp =>
           foldl (fun responses ir =>
                    store2 (Url ir.2) (round_key (int_add (Z.of_nat ir.1) 1)) ir.2
                           (<[Url ir.2 := ∅]> responses))
                 responses (imap pair resp))
        responses respCh !! u =
  Some {[ round_key (Z.of_nat (length (result ++ [x]))) := x ]}.
Proof.
  intros Hlen Hu. induction respCh as [|resp respCh IH] using rev_ind; intros Hall Hin.
  { by apply not_elem_of_nil in Hin. }
  rewrite foldl_app. cbn [foldl].
  destruct (Hall resp) as (u' & Hne & Hu' & Hlen' & Hsame).
  { apply elem_of_app. right. left. }
  destruct (decide (u' = u)) as [->|Hdiff].
  - rewrite (Hsame eq_refl).
    rewrite (CompressBatchGetResponse_inner result x u) by done.
    apply lookup_insert_eq.
  - destruct resp as [|y resp' _] using rev_ind; [done|].
    rewrite (CompressBatchGetResponse_inner resp' y u') by done.
    rewrite lookup_insert_ne by done. apply IH.
    + intros resp0 Hresp0. apply Hall, elem_of_app. by left.
    + apply elem_of_app in Hin as [Hin|Hin]; [done|].
      apply list_elem_of_singleton in Hin. apply app_inj_tail in Hin as [-> ->].
      apply Forall_app in Hu as [_ Hx]. rewrite Forall_singleton in Hx.
      apply Forall_app in Hu' as [_ Hy]. rewrite Forall_singleton in Hy.
      cbn beta in Hx, Hy. congruence.
Qed.

(** X26.  On a compressed pack built by a sequence of [AddResponse] calls
    on a new pack, with records whose strings are valid UTF-8 (they
    round-trip through [Compress]), and when every requested URL is in the
    pack: the inner map that [BatchGetResponse] returns for a requested URL
    has one entry, however many rounds the URL has: the last record of the
    slice that [GetResponse] returns for the URL, under the key [round_k],
    [k] being the length of the slice. *)
Theorem CompressBatchGetResponse_keeps_the_last_record
    (rs : list (option Response)) (urls : list string) (url : string) :
  Z.of_nat (length (added rs)) <= MaxInt ->
  Forall round_trips (added rs) ->
  (forall u, u ∈ urls -> with_url u (added rs) <> []) ->
  url ∈ urls ->
  exists result x output,
    GetResponse (CompressAddResponses NewCompressResponsePack rs) url = inr result /\
    result ≡ₚ with_url url (added rs) /\
    last result = Some x /\
    BatchGetResponse (CompressAddResponses NewCompressResponsePack rs) urls =
      inr output /\
    output !! url = Some {[ round_key (Z.of_nat (length result)) := x ]}.
Proof.
  intros Hlen Hrt Hpresent Hin.
  set (p := CompressAddResponses NewCompressResponsePack rs).
  assert (forall u, u ∈ urls ->
            exists res y, GetResponse p u = inr (res ++ [y]) /\
                          res ++ [y] ≡ₚ with_url u (added rs)) as Hget.
  { intros u Hu.
    destruct (CompressGetResponse_added_perm range_perm codec_lossless rs u Hlen Hrt
                (Hpresent u Hu)) as (res & Hres & Hperm).
    destruct res as [|y res _] using rev_ind.
    { apply Permutation_nil_l in Hperm. by destruct (Hpresent u Hu). }
    by exists res, y. }
  assert (forall u res y, GetResponse p u = inr (res ++ [y]) ->
            res ++ [y] ≡ₚ with_url u (added rs) ->
            Forall (fun v => Url v = u) (res ++ [y]) /\
            Z.of_nat (length (res ++ [y])) <= MaxInt) as Hres.
  { intros u res y _ Hperm. split.
    - rewrite Hperm. apply Forall_forall. intros v. apply with_url_Url.
    - rewrite Hperm. pose proof (length_with_url u (added rs)). lia. }
  destruct (Hget url Hin) as (result & x & Hresult & Hperm).
  destruct (Hres url result x Hresult Hperm) as [Hurl Hlenr].
  exists (result ++ [x]), x.
  unfold BatchGetResponse. fold p.
  assert (omap (fun d : error + list Response =>
                  match d with inl e => Some e | inr _ => None end)
               (GetResponse p <$> sched urls) = []) as ->.
  { assert (Forall (fun u => u ∈ urls) (sched urls)) as Hsched.
    { apply Forall_forall. intros u. by rewrite sched_perm. }
    induction Hsched as [|u l Hu _ IH]; [done|].
    rewrite fmap_cons. destruct (Hget u Hu) as (res & y & -> & _).
    cbn [omap list_omap]. apply IH. }
  eexists. split; [done|]. split; [done|]. split; [apply last_snoc|].
  split; [done|].
  apply CompressBatchGetResponse_outer; [done|done|..].
  - intros resp Hresp. apply list_elem_of_omap in Hresp as (d & Hd & Hsome).
    apply list_elem_of_fmap in Hd as (u & -> & Hu). rewrite sched_perm in Hu.
    destruct (Hget u Hu) as (res & y & Hgetu & Hpermu). rewrite Hgetu in Hsome.
    destruct (res ++ [y]) as [|r0 rest] eqn:Hsnoc; [done|].
    injection Hsome as <-. rewrite <- Hsnoc in *.
    destruct (Hres u res y Hgetu Hpermu) as [Hurlu Hlenu].
    exists u. split; [by destruct res|]. split; [done|]. split; [done|].
    intros ->. congruence.
  - apply list_elem_of_omap. exists (inr (result ++ [x])). split.
    + apply list_elem_of_fmap. exists url. split; [done|]. by rewrite sched_perm.
    + by destruct result.
Qed.

End compress_batch_get_keys.

Lemma CompressBatchGetResponse_keeps_the_last_record_witness :
  exists result x output,
    @CompressResponsePack.GetResponse (in_order_runtime 2) reference.codec
      (@CompressAddResponses (in_order_runtime 2) reference.codec
         CompressResponsePack.NewCompressResponsePack [Some ok_200; Some ok_200])
      "https://example.com/api1" = inr result /\
    result ≡ₚ [ok_200; ok_200] /\
    last result = Some x /\
    @CompressResponsePack.BatchGetResponse (in_order_runtime 2) reference.codec
      (@CompressAddResponses (in_order_runtime 2) reference.codec
         CompressResponsePack.NewCompressResponsePack [Some ok_200; Some ok_200])
      ["https://example.com/api1"%string] = inr output /\
    output !! "https://example.com/api1"%string =
      Some {[ round_key (Z.of_nat (length result)) := x ]}.
Proof.
  apply (@CompressBatchGetResponse_keeps_the_last_record (in_order_runtime 2)
           reference.codec (in_order_range 2) (in_order_sched 2) reference_lossless
           [Some ok_200; Some ok_200] ["https://example.com/api1"%string]
           "https://example.com/api1").
  - vm_compute. discriminate.
  - apply Forall_cons_2; [apply ok_200_round_trips|].
    apply Forall_cons_2; [apply ok_200_round_trips|]. apply Forall_nil_2.
  - intros u Hu. apply list_elem_of_singleton in Hu. subst u. discriminate.
  - left.
Defined.

(** ** Adding and then deleting; what [Len] counts *)

Section add_then_delete.
Context {rt : GoRuntime} {codec : Codec}.

(** X27.  In the compressed pack [DeleteResponse] undoes the [AddResponse]
    of a record whose URL was not in the pack: the responses are then what
    they were.  For a URL that was in the pack it does not: the rounds the
    URL had before go with the new one. *)
Theorem DeleteResponse_after_AddResponse (r : CompressResponsePack.t) (response : Response) :
  (CompressResponsePack.DeleteResponse
     (CompressResponsePack.AddResponse r (Some response)).1 (Url response)).2 = None /\
  CompressResponsePack.CompressedResponses
    (CompressResponsePack.DeleteResponse
       (CompressResponsePack.AddResponse r (Some response)).1 (Url response)).1 =
    delete (Url response) (CompressResponsePack.CompressedResponses r) /\
  (CompressResponsePack.CompressedResponses r !! Url response = None ->
   CompressResponsePack.DeleteResponse
     (CompressResponsePack.AddResponse r (Some response)).1 (Url response) =
   (r, None)).
Proof.
  destruct (DeleteResponse_map (CompressResponsePack.AddResponse r (Some response)).1
              (Url response)) as (Hmap & Hinfo & Herr).
  rewrite CompressAddResponse_commit in Hmap, Herr.
  assert (exists rounds,
            commit (Url response) (compressed response)
                   (CompressResponsePack.CompressedResponses r) =
            <[Url response := rounds]> (CompressResponsePack.CompressedResponses r))
    as [rounds Hcommit].
  { unfold commit.
    destruct (CompressResponsePack.CompressedResponses r !! Url response); by eexists. }
  rewrite Hcommit in Hmap, Herr. rewrite lookup_insert_eq in Herr.
  rewrite delete_insert_eq in Hmap.
  split; [done|]. split; [done|]. intros Hnew.
  rewrite delete_id in Hmap by done.
  assert (CompressResponsePack.MetaInfo
            (CompressResponsePack.AddResponse r (Some response)).1 =
          CompressResponsePack.MetaInfo r) as Hadd.
  { unfold CompressResponsePack.AddResponse. rewrite Compress_compressed.
    by destruct (CompressResponsePack.CompressedResponses r !! Url response). }
  destruct (CompressResponsePack.DeleteResponse _ _) as [r' err].
  cbn [fst snd] in *. subst err. f_equal.
  destruct r, r'. cbn in *. congruence.
Qed.

(** X28.  [Len] counts URLs: [AddResponse] raises it by one when the URL of
    the record is not in the pack and leaves it as it is when the URL is
    there already, and an [AddResponse] that fails, [AddInfo] and
    [Calculate] leave it as it is. *)
Theorem Len_after_AddResponse (p : ResponsePack.t) (response : Response) :
  ResponsePack.Len (Some (ResponsePack.AddResponse p (Some response)).1) =
    match ResponsePack.Responses p !! Url response with
    | Some _ => ResponsePack.Len (Some p)
    | None => ResponsePack.Len (Some p) + 1
    end /\
  ResponsePack.Len (Some (ResponsePack.AddResponse p None).1) =
    ResponsePack.Len (Some p) /\
  (forall key value,
     ResponsePack.Len (Some (ResponsePack.AddInfo p key value)) =
     ResponsePack.Len (Some p)) /\
  ResponsePack.Len (Some (ResponsePack.Calculate p)) = ResponsePack.Len (Some p).
Proof.
  split; [|split; [done|split; [done|]]].
  - unfold ResponsePack.Len. rewrite AddResponse_Responses. unfold commit.
    destruct (ResponsePack.Responses p !! Url response) as [rounds|] eqn:Hurl.
    + by rewrite map_size_insert_Some.
    + rewrite map_size_insert_None by done. lia.
  - unfold ResponsePack.Len, ResponsePack.Calculate.
    by destruct (ratios_counters p) as (_ & _ & _ & ->).
Qed.

End add_then_delete.
